(** * GPT_Translate_html: a shallow embedding of the translation pipeline

    The development follows the two modules of the program:
    - [translate.py]: the inline grouping extractor
      ([get_text_group_inline]), the segmenter ([segment_groups_map]), the
      fit-back reconstructor ([validate_fit_in], [restruct], [group_fit_in])
      and the orchestrator ([translate_groups], [translation_pipeline]);
    - [rate_controller.py]: the sliding-window admission gate
      ([_ablock_by_rate], [_block_by_rate]) and the two retry loops
      ([_run], [_arun]);
    and, at its end, the chat client of [openai_api_chat.py]
    ([_make_msg], [clear], [get_response], [get_stream_aresponse]).

    Python data is modelled as the code has it: [str] as [string] (the
    UTF-8 bytes of the text), [int] as [Z], a [float] as the rational it
    stands for, a [dict] as an association list in insertion order, a list
    indexed with Python's rule for negative indices, a raised exception as
    an explicit result, a reference to a tag of the tree as the path that
    leads to it.  A [while True] loop is a function by well-founded
    recursion on what its retry counter has left.

    What the program takes from outside is a parameter of the model: the
    completion service (what each request comes to, after [as_json_obj]
    has read its text), [difflib], [str.lower], [int], the tokenizer,
    [random.uniform] and the clock.  The objects decoded from the
    service's text map strings to strings, as the signature of
    [validate_fit_in] declares them.

    Two places of the code decide much of what follows.  The dict that
    [match_score] hands to [str.maketrans] has a key of three characters,
    so that every call of [match_score] raises [ValueError]; the model
    builds the table as the code does and the facts are derived from
    it.  And a [RateController] guards one window with two locks, one for
    the callers of [_run] and one for the callers of [_arun]. *)

From Stdlib Require Import Ascii String ZArith QArith Lia Lqa DecimalString DecimalNat.
From stdpp Require Import list strings sorting.
From Equations Require Import Equations.

Local Open Scope Z_scope.
#[local] Set Warnings "-register-all".

(** ** Python exceptions *)

(** The exception classes the modelled code can raise or receive.
    [ServiceError] stands for whatever the completion call raises,
    [MaxRetryReached e] for [Exception(f'Maximum retry reached: {e}')]. *)
Inductive exn : Type :=
| IndexError
| ValueError
| KeyError
| AttributeError
| ZeroDivisionError
| RuntimeError
| ServiceError (kind : nat)
| MaxRetryReached (last : exn).

(** ** Strings *)

Module PyStr.

(** [s.replace(c, '')] for a one-byte character [c]. *)
Fixpoint remove_char (c : ascii) (s : string) : string :=
  match s with
  | EmptyString => EmptyString
  | String a r =>
      if Ascii.eqb a c then remove_char c r else String a (remove_char c r)
  end.

Definition newline : ascii := Ascii.ascii_of_nat 10.
Definition tab : ascii := Ascii.ascii_of_nat 9.

(** [c.replace('\n', '')]. *)
Definition strip_newlines (s : string) : string := remove_char newline s.

(** [set(c).issubset({'\n', '\xa0'})]: every character of [c] is a line
    feed or a no-break space (U+00A0, the bytes C2 A0). *)
Fixpoint only_ignored (s : string) : bool :=
  match s with
  | EmptyString => true
  | String a r =>
      if Ascii.eqb a newline then only_ignored r
      else if Ascii.eqb a (Ascii.ascii_of_nat 194) then
        match r with
        | String b r' =>
            if Ascii.eqb b (Ascii.ascii_of_nat 160) then only_ignored r'
            else false
        | EmptyString => false
        end
      else false
  end.

(** [s.isspace()] on ASCII text: at least one character, all of them
    white space. *)
Definition is_space (a : ascii) : bool :=
  Ascii.eqb a " " || ((9 <=? nat_of_ascii a)%nat && (nat_of_ascii a <=? 13)%nat)
  || ((28 <=? nat_of_ascii a)%nat && (nat_of_ascii a <=? 31)%nat).

Fixpoint all_space (s : string) : bool :=
  match s with
  | EmptyString => true
  | String a r => is_space a && all_space r
  end.

Definition isspace (s : string) : bool :=
  match s with
  | EmptyString => false
  | _ => all_space s
  end.

(** [''.join(l)]. *)
Definition join (l : list string) : string := String.concat "" l.

(** [str(n)] for a non-negative [int]. *)
Definition str_of_nat (n : nat) : string :=
  NilEmpty.string_of_uint (Nat.to_uint n).

(** A [str] is a sequence of characters; the model holds its UTF-8
    bytes.  A byte of the form 10xxxxxx continues the character begun
    before it. *)
Definition continues (a : ascii) : bool :=
  (128 <=? nat_of_ascii a)%nat && (nat_of_ascii a <? 192)%nat.

(** [len(s)]: the number of characters of [s]. *)
Fixpoint py_len (s : string) : nat :=
  match s with
  | EmptyString => 0%nat
  | String a r => if continues a then py_len r else S (py_len r)
  end.

(** The characters of [s], one after the other. *)
Fixpoint chars (s : string) : list string :=
  match s with
  | EmptyString => []
  | String a r =>
      match r with
      | String b _ =>
          if continues b then
            match chars r with
            | c :: cs => String a c :: cs
            | [] => [String a EmptyString]
            end
          else String a EmptyString :: chars r
      | EmptyString => [String a EmptyString]
      end
  end.

(** [str.maketrans(d)] for a dict [d] with string keys: the table, or
    [None] for the [ValueError] that a key which is not one character
    long raises. *)
Definition maketrans (d : list (string * string)) : option (list (string * string)) :=
  if forallb (fun kv => (py_len kv.1 =? 1)%nat) d then Some d else None.

Fixpoint table_get (c : string) (table : list (string * string)) : option string :=
  match table with
  | [] => None
  | (k, v) :: r => if String.eqb k c then Some v else table_get c r
  end.

(** [s.translate(table)]: a character that is a key of the table is
    replaced by what the table gives it, any other is kept. *)
Definition translate (table : list (string * string)) (s : string) : string :=
  join ((fun c => match table_get c table with Some v => v | None => c end)
          <$> chars s).

End PyStr.

(** ** The markup tree *)

(** A BeautifulSoup page element.  [Comment] and [Doctype] are the two
    string classes the extractor tells apart; every other string class is a
    [NavigableString].  The document object itself is a [Tag] whose name is
    ["[document]"]. *)
Inductive Node : Type :=
| NavigableString (text : string)
| Comment (text : string)
| Doctype (text : string)
| Tag (name : string) (contents : list Node).

(** The program keeps references to [Tag] objects of the tree; the model
    names a tag by the child indices that lead to it from the root. *)
Definition path : Type := list nat.

Module Tree.

Fixpoint get (p : path) (t : Node) : option Node :=
  match p with
  | [] => Some t
  | i :: p' =>
      match t with
      | Tag _ cs =>
          match cs !! i with
          | Some c => get p' c
          | None => None
          end
      | _ => None
      end
  end.

(** [ele.contents[cid].replace_with(v)] where [ele] is the tag at path
    [ele]: the child at index [cid] is replaced by the string [v].
    [None] is the [IndexError] of [ele.contents[cid]]. *)
Fixpoint replace_with (ele : path) (cid : nat) (v : string) (t : Node)
  : option Node :=
  match t with
  | Tag name cs =>
      match ele with
      | [] =>
          match cs !! cid with
          | Some _ => Some (Tag name (<[cid := NavigableString v]> cs))
          | None => None
          end
      | i :: ele' =>
          match cs !! i with
          | Some c =>
              match replace_with ele' cid v c with
              | Some c' => Some (Tag name (<[i := c']> cs))
              | None => None
              end
          | None => None
          end
      end
  | _ => None
  end.

End Tree.

(** ** InlineGroup *)

(** The dataclass [InlineGroup]: three parallel lists.  [elements] holds
    the owning tags, as paths. *)
Record InlineGroup : Type := mkInlineGroup {
  text_shreds : list string;
  cids : list nat;
  elements : list path
}.

(** The assertion of [__post_init__]. *)
Definition post_init (g : InlineGroup) : Prop :=
  length (text_shreds g) = length (cids g)
  /\ length (cids g) = length (elements g).

(** [str(group)] and [len(group)]. *)
Definition group_str (g : InlineGroup) : string := PyStr.join (text_shreds g).
Definition group_len (g : InlineGroup) : nat := length (text_shreds g).

(** ** Inline grouping extractor *)

Module Extract.

Definition inline_names : list string :=
  ["a"; "abbr"; "acronym"; "b";
   "bdo"; "big"; "br"; "button";
   "cite"; "code"; "dfn"; "em"; "i";
   "img"; "input"; "kbd"; "label";
   "map"; "object"; "output"; "q";
   "samp"; "script"; "select"; "small";
   "span"; "strong"; "sub"; "sup";
   "textarea"; "time"; "tt"; "var"]%string.

Definition is_inline_ele (name : string) : bool :=
  existsb (String.eqb name) inline_names.

(** One entry [[c.replace('\n', ''), cid, ele, cnt]] of a running group. *)
Record item : Type := mkItem {
  i_shred : string;
  i_cid : nat;
  i_ele : path;
  i_cnt : nat
}.

(** The two [nonlocal] variables of [traversal]. *)
Record tstate : Type := mkT {
  cnt : nat;
  all_groups : list (list item)
}.

Definition truthy {A} (l : list A) : bool :=
  match l with [] => false | _ => true end.

Definition append_group (g : list item) (st : tstate) : tstate :=
  mkT (cnt st) (all_groups st ++ [g]).

(** [traversal(ele)]; [here] is the path of [ele].  The result [None] is
    Python's [None] (a block element), [Some group] the list an inline
    element hands to its parent. *)
Fixpoint traversal (here : path) (ele : Node) (st : tstate) {struct ele}
  : option (list item) * tstate :=
  match ele with
  | Tag name contents =>
      let inline := is_inline_ele name in
      let '(group, st') :=
        (fix loop (cs : list Node) (cid : nat) (group : list item)
             (st : tstate) {struct cs} : list item * tstate :=
           match cs with
           | [] => (group, st)
           | c :: rest =>
               match c with
               | Doctype _ | Comment _ => loop rest (S cid) group st
               | NavigableString s =>
                   if PyStr.only_ignored s then loop rest (S cid) group st
                   else
                     loop rest (S cid)
                       (group ++ [mkItem (PyStr.strip_newlines s) cid here (cnt st)])
                       (mkT (S (cnt st)) (all_groups st))
               | Tag n _ =>
                   if String.eqb n "script" then loop rest (S cid) group st
                   else
                     let '(sub_shreds, st1) := traversal (here ++ [cid]) c st in
                     match sub_shreds with
                     | Some sub => loop rest (S cid) (group ++ sub) st1
                     | None =>
                         if negb inline && truthy group
                         then loop rest (S cid) [] (append_group group st1)
                         else loop rest (S cid) group st1
                     end
               end
           end) contents 0%nat [] st in
      if negb inline
      then (None, if truthy group then append_group group st' else st')
      else (Some group, st')
  | _ => (None, st)
  end.

(** [all_groups.sort(key=lambda x: x[0][3])]: a stable sort on the
    counter of each group's first entry. *)
Definition first_cnt (g : list item) : nat :=
  match g with
  | x :: _ => i_cnt x
  | [] => 0%nat
  end.

Fixpoint insert_group (g : list item) (l : list (list item)) : list (list item) :=
  match l with
  | [] => [g]
  | h :: l' =>
      if (first_cnt g <? first_cnt h)%nat then g :: h :: l'
      else h :: insert_group g l'
  end.

Definition sort_groups (l : list (list item)) : list (list item) :=
  fold_left (fun acc g => insert_group g acc) l [].

Definition to_group (g : list item) : InlineGroup :=
  mkInlineGroup (map i_shred g) (map i_cid g) (map i_ele g).

(** [get_text_group_inline(element)]: the ordered map from [str(i)] to
    the [i]-th group. *)
Definition get_text_group_inline (element : Node) : list (string * InlineGroup) :=
  let '(_, st) := traversal [] element (mkT 0 []) in
  imap (fun i g => (PyStr.str_of_nat i, to_group g)) (sort_groups (all_groups st)).

End Extract.

(** *** The extractor reaches every eligible text leaf exactly once *)

Module ExtractFacts.
Import Extract.

(** Induction on a tree together with the children of each tag. *)
Lemma Node_nested_ind (P : Node -> Prop) :
  (forall s, P (NavigableString s)) ->
  (forall s, P (Comment s)) ->
  (forall s, P (Doctype s)) ->
  (forall n cs, Forall P cs -> P (Tag n cs)) ->
  forall t, P t.
Proof.
  intros Hs Hc Hd Ht.
  fix IH 1. intros [s|s|s|n cs].
  - apply Hs.
  - apply Hc.
  - apply Hd.
  - apply Ht. induction cs as [|c cs IHcs]; constructor.
    + apply IH.
    + exact IHcs.
Qed.

(** The loop over [ele.contents] in [traversal], by name. *)
Definition children_loop (here : path) (inline : bool) :=
  fix loop (cs : list Node) (cid : nat) (group : list item)
      (st : tstate) {struct cs} : list item * tstate :=
    match cs with
    | [] => (group, st)
    | c :: rest =>
        match c with
        | Doctype _ | Comment _ => loop rest (S cid) group st
        | NavigableString s =>
            if PyStr.only_ignored s then loop rest (S cid) group st
            else
              loop rest (S cid)
                (group ++ [mkItem (PyStr.strip_newlines s) cid here (cnt st)])
                (mkT (S (cnt st)) (all_groups st))
        | Tag n _ =>
            if String.eqb n "script" then loop rest (S cid) group st
            else
              let '(sub_shreds, st1) := traversal (here ++ [cid]) c st in
              match sub_shreds with
              | Some sub => loop rest (S cid) (group ++ sub) st1
              | None =>
                  if negb inline && truthy group
                  then loop rest (S cid) [] (append_group group st1)
                  else loop rest (S cid) group st1
              end
        end
    end.

Lemma traversal_Tag here name contents st :
  traversal here (Tag name contents) st =
  let inline := is_inline_ele name in
  let '(group, st') := children_loop here inline contents 0%nat [] st in
  if negb inline
  then (None, if truthy group then append_group group st' else st')
  else (Some group, st').
Proof. reflexivity. Qed.

(** The text leaves the traversal collects below a tag, in document
    order, each as the pair of its owner's path and its child index. *)
Definition handle (x : item) : path * nat := (i_ele x, i_cid x).

Fixpoint leaves (here : path) (ele : Node) {struct ele} : list (path * nat) :=
  match ele with
  | Tag _ contents =>
      (fix go (cs : list Node) (cid : nat) {struct cs} : list (path * nat) :=
         match cs with
         | [] => []
         | c :: rest =>
             match c with
             | NavigableString s =>
                 if PyStr.only_ignored s then [] else [(here, cid)]
             | Tag n _ =>
                 if String.eqb n "script" then [] else leaves (here ++ [cid]) c
             | _ => []
             end ++ go rest (S cid)
         end) contents 0%nat
  | _ => []
  end.

Definition leaves_from (here : path) :=
  fix go (cs : list Node) (cid : nat) {struct cs} : list (path * nat) :=
    match cs with
    | [] => []
    | c :: rest =>
        match c with
        | NavigableString s =>
            if PyStr.only_ignored s then [] else [(here, cid)]
        | Tag n _ =>
            if String.eqb n "script" then [] else leaves (here ++ [cid]) c
        | _ => []
        end ++ go rest (S cid)
    end.

Lemma leaves_Tag here name contents :
  leaves here (Tag name contents) = leaves_from here contents 0%nat.
Proof. reflexivity. Qed.

Arguments traversal : simpl never.
Arguments leaves : simpl never.

Definition opt_group (o : option (list item)) : list item :=
  match o with Some g => g | None => [] end.

(** What one call of [traversal] adds: the groups it appends to
    [all_groups] and the group it returns hold the leaves below [ele]. *)
Definition adds (st st' : tstate) (pending : list item) (want : list (path * nat)) : Prop :=
  exists new,
    all_groups st' = all_groups st ++ new
    /\ Forall (fun g => g <> []) new
    /\ handle <$> (mjoin new ++ pending) ≡ₚ want.

Lemma truthy_nonempty {A} (l : list A) : truthy l = true -> l <> [].
Proof. destruct l; [discriminate | congruence]. Qed.

Lemma truthy_false {A} (l : list A) : truthy l = false -> l = [].
Proof. destruct l; [reflexivity | discriminate]. Qed.

Lemma adds_refl st pending : adds st st pending (handle <$> pending).
Proof.
  exists []. rewrite app_nil_r. split; [reflexivity|]. split; [constructor|].
  reflexivity.
Qed.

Lemma children_loop_adds here inline cs :
  Forall (fun c => forall h st, adds st (traversal h c st).2
                     (opt_group (traversal h c st).1) (leaves h c)) cs ->
  forall cid group st,
    adds st (children_loop here inline cs cid group st).2
      (children_loop here inline cs cid group st).1
      ((handle <$> group) ++ leaves_from here cs cid).
Proof.
  induction 1 as [|c cs Hc _ IH]; intros cid group st.
  - simpl. rewrite app_nil_r. apply adds_refl.
  - destruct c as [s|s|s|n sub]; simpl.
    + destruct (PyStr.only_ignored s); simpl.
      * apply IH.
      * specialize (IH (S cid)
          (group ++ [mkItem (PyStr.strip_newlines s) cid here (cnt st)])
          (mkT (S (cnt st)) (all_groups st))).
        destruct IH as (new & Hall & Hne & Hperm).
        exists new. split; [exact Hall|]. split; [exact Hne|].
        rewrite Hperm, fmap_app. simpl. rewrite <- !app_assoc. reflexivity.
    + apply IH.
    + apply IH.
    + destruct (String.eqb n "script"); simpl; [apply IH|].
      specialize (Hc (here ++ [cid]) st).
      destruct (traversal (here ++ [cid]) (Tag n sub) st) as [o st1] eqn:Et.
      simpl in Hc. destruct Hc as (new1 & Hall1 & Hne1 & Hperm1).
      destruct o as [subg|]; simpl in Hperm1.
      * specialize (IH (S cid) (group ++ subg) st1).
        destruct IH as (new & Hall & Hne & Hperm).
        exists (new1 ++ new). split; [rewrite Hall, Hall1, app_assoc; reflexivity|].
        split; [apply Forall_app; auto|].
        rewrite join_app, !fmap_app in *.
        rewrite <- (assoc_L (++)), Hperm, <- Hperm1. solve_Permutation.
      * rewrite app_nil_r in Hperm1.
        destruct (negb inline && truthy group) eqn:Eflush.
        -- apply andb_prop in Eflush as [_ Htr].
           specialize (IH (S cid) [] (append_group group st1)).
           destruct IH as (new & Hall & Hne & Hperm).
           exists (new1 ++ [group] ++ new). split.
           { rewrite Hall. simpl. rewrite Hall1, <- !app_assoc. reflexivity. }
           split.
           { apply Forall_app; split; [exact Hne1|].
             constructor; [apply truthy_nonempty; exact Htr | exact Hne]. }
           simpl in Hperm.
           rewrite !join_app, !fmap_app in *. simpl. rewrite app_nil_r.
           rewrite <- !(assoc_L (++)), Hperm, Hperm1. solve_Permutation.
        -- specialize (IH (S cid) group st1).
           destruct IH as (new & Hall & Hne & Hperm).
           exists (new1 ++ new). split; [rewrite Hall, Hall1, app_assoc; reflexivity|].
           split; [apply Forall_app; auto|].
           rewrite join_app, !fmap_app in *.
           rewrite <- (assoc_L (++)), Hperm, Hperm1. solve_Permutation.
Qed.

Lemma traversal_adds ele :
  forall h st,
    adds st (traversal h ele st).2 (opt_group (traversal h ele st).1)
      (leaves h ele).
Proof.
  induction ele as [s|s|s|n cs IH] using Node_nested_ind; intros h st;
    try (exists []; rewrite app_nil_r; repeat split; constructor).
  rewrite traversal_Tag, leaves_Tag. cbv zeta.
  pose proof (children_loop_adds h (is_inline_ele n) cs IH 0%nat [] st) as Hl.
  destruct (children_loop h (is_inline_ele n) cs 0%nat [] st) as [g st'].
  simpl in Hl. destruct Hl as (new & Hall & Hne & Hperm).
  destruct (is_inline_ele n); simpl.
  - exists new. auto.
  - destruct (truthy g) eqn:Hg.
    + exists (new ++ [g]). simpl. rewrite Hall, app_assoc.
      split; [reflexivity|]. split.
      * apply Forall_app. split; [exact Hne|].
        constructor; [apply truthy_nonempty; exact Hg | constructor].
      * rewrite app_nil_r, join_app. simpl. rewrite app_nil_r. exact Hperm.
    + apply truthy_false in Hg. subst g.
      exists new. auto.
Qed.

(** The sort only reorders the groups. *)
Lemma insert_group_perm g l : insert_group g l ≡ₚ g :: l.
Proof.
  induction l as [|h l IH]; simpl; [reflexivity|].
  destruct (first_cnt g <? first_cnt h)%nat; [reflexivity|].
  rewrite IH. apply Permutation_swap.
Qed.

Lemma sort_groups_perm l : sort_groups l ≡ₚ l.
Proof.
  unfold sort_groups.
  assert (H : forall acc, fold_left (fun acc g => insert_group g acc) l acc ≡ₚ acc ++ l).
  { induction l as [|g l IH]; intros acc; simpl.
    - rewrite app_nil_r. reflexivity.
    - rewrite IH, insert_group_perm. solve_Permutation. }
  apply (H []).
Qed.

(** The handles a group map holds, group after group. *)
Definition group_handles (g : InlineGroup) : list (path * nat) :=
  zip (elements g) (cids g).

Definition grouped_handles (gm : list (string * InlineGroup)) : list (path * nat) :=
  mjoin ((fun kv => group_handles kv.2) <$> gm).

Lemma group_handles_to_group g : group_handles (to_group g) = handle <$> g.
Proof.
  unfold group_handles, to_group. simpl.
  induction g as [|x g IH]; simpl; [reflexivity|]. rewrite IH. reflexivity.
Qed.

Lemma grouped_handles_imap (l : list (list item)) :
  grouped_handles (imap (fun i g => (PyStr.str_of_nat i, to_group g)) l)
  = handle <$> mjoin l.
Proof.
  unfold grouped_handles.
  generalize PyStr.str_of_nat as f. induction l as [|g l IH]; intros f; [reflexivity|].
  rewrite imap_cons, fmap_cons. simpl.
  rewrite fmap_app, group_handles_to_group. f_equal.
  apply (IH (fun i => f (S i))).
Qed.

(** The groups of a block-level root hold exactly the leaves of
    [leaves]. *)
Lemma get_text_group_inline_leaves name contents :
  is_inline_ele name = false ->
  grouped_handles (get_text_group_inline (Tag name contents))
  ≡ₚ leaves [] (Tag name contents).
Proof.
  intros Hblock. unfold get_text_group_inline.
  pose proof (traversal_adds (Tag name contents) [] (mkT 0 [])) as Ha.
  destruct (traversal [] (Tag name contents) (mkT 0 [])) as [o st] eqn:Et.
  rewrite traversal_Tag in Et. cbv zeta in Et. rewrite Hblock in Et.
  destruct (children_loop [] false contents 0%nat [] (mkT 0 [])) as [g st'].
  simpl in Et. injection Et as <- Est.
  simpl in Ha. destruct Ha as (new & Hall & _ & Hperm).
  simpl in Hall. rewrite app_nil_r in Hperm.
  rewrite grouped_handles_imap, sort_groups_perm, Hall. exact Hperm.
Qed.

(** **** The leaves of [leaves], said without the traversal *)

(** No tag strictly below the root and on the way down to the tag at
    [p] (that tag included) is a [script] element. *)
Definition scriptless (root : Node) (p : path) : Prop :=
  forall q n cs,
    q <> [] -> q `prefix_of` p ->
    Tree.get q root = Some (Tag n cs) -> n <> "script"%string.

(** The child [cid] of the tag at [p] is a text leaf the extractor is
    to group: a plain string with a character other than the line feed
    and the no-break space, outside every [script] element. *)
Definition eligible_leaf (root : Node) (p : path) (cid : nat) : Prop :=
  (exists s, Tree.get (p ++ [cid]) root = Some (NavigableString s)
             /\ PyStr.only_ignored s = false)
  /\ scriptless root p.

Lemma get_nontag p t :
  (forall n cs, t <> Tag n cs) -> p <> [] -> Tree.get p t = None.
Proof.
  intros Ht Hp. destruct p as [|i p]; [congruence|].
  destruct t; simpl; try reflexivity. exfalso. eapply Ht. reflexivity.
Qed.

Lemma eligible_nontag t p cid :
  (forall n cs, t <> Tag n cs) -> ~ eligible_leaf t p cid.
Proof.
  intros Ht [(s & Hget & _) _].
  rewrite get_nontag in Hget; [discriminate | exact Ht |].
  destruct p; discriminate.
Qed.

Lemma eligible_nil n cs cid :
  eligible_leaf (Tag n cs) [] cid <->
  exists s, cs !! cid = Some (NavigableString s) /\ PyStr.only_ignored s = false.
Proof.
  unfold eligible_leaf. simpl. split.
  - intros [(s & Hget & Hs) _]. exists s.
    destruct (cs !! cid) as [c|]; [|discriminate].
    simpl in Hget. injection Hget as ->. auto.
  - intros (s & Hget & Hs). split.
    + exists s. rewrite Hget. auto.
    + intros q n' cs' Hq Hpre. apply prefix_nil_inv in Hpre. contradiction.
Qed.

Lemma eligible_cons n cs j rel cid :
  eligible_leaf (Tag n cs) (j :: rel) cid <->
  exists n' sub,
    cs !! j = Some (Tag n' sub) /\ n' <> "script"%string
    /\ eligible_leaf (Tag n' sub) rel cid.
Proof.
  unfold eligible_leaf. simpl. split.
  - intros [(s & Hget & Hs) Hscr].
    destruct (cs !! j) as [c|] eqn:Hj; [|discriminate].
    destruct c as [x|x|x|n' sub];
      try (rewrite get_nontag in Hget;
           [discriminate | congruence | destruct rel; discriminate]).
    exists n', sub. split; [reflexivity|]. split.
    + apply (Hscr [j] n' sub); [discriminate | | simpl; rewrite Hj; reflexivity].
      exists rel. reflexivity.
    + split; [eauto|].
      intros q m cs' Hq Hpre Hg.
      apply (Hscr (j :: q) m cs'); [discriminate | | simpl; rewrite Hj; exact Hg].
      apply prefix_cons. exact Hpre.
  - intros (n' & sub & Hj & Hn' & (s & Hget & Hs) & Hscr). split.
    + exists s. rewrite Hj. auto.
    + intros q m cs' Hq Hpre Hg.
      destruct q as [|i q]; [congruence|].
      destruct Hpre as [k Hk]. injection Hk as -> ->.
      simpl in Hg. rewrite Hj in Hg.
      destruct q as [|i' q'].
      * simpl in Hg. injection Hg as -> ->. exact Hn'.
      * apply (Hscr (i' :: q' ) m cs'); [discriminate | | exact Hg].
        exists k. reflexivity.
Qed.

Definition leaves_spec (c : Node) : Prop :=
  forall h p cid,
    (p, cid) ∈ leaves h c <-> exists rel, p = h ++ rel /\ eligible_leaf c rel cid.

Lemma leaves_from_cons here c rest k :
  leaves_from here (c :: rest) k =
  match c with
  | NavigableString s => if PyStr.only_ignored s then [] else [(here, k)]
  | Tag n _ => if String.eqb n "script" then [] else leaves (here ++ [k]) c
  | _ => []
  end ++ leaves_from here rest (S k).
Proof. reflexivity. Qed.

(** Membership in the leaves collected from the children [cs], the first
    of which has index [k]. *)
Definition from_children (here : path) (cs : list Node) (k : nat)
    (p : path) (cid : nat) : Prop :=
  (p = here /\ exists j s, cid = (k + j)%nat
      /\ cs !! j = Some (NavigableString s) /\ PyStr.only_ignored s = false)
  \/ (exists j n' sub rel,
        cs !! j = Some (Tag n' sub) /\ n' <> "script"%string
        /\ p = here ++ (k + j)%nat :: rel
        /\ eligible_leaf (Tag n' sub) rel cid).

Lemma from_children_nil here k p cid : ~ from_children here [] k p cid.
Proof.
  intros [(_ & j & s & _ & Hj & _) | (j & n' & sub & rel & Hj & _)];
    rewrite lookup_nil in Hj; discriminate.
Qed.

Lemma from_children_cons here c rest k p cid :
  from_children here (c :: rest) k p cid <->
  (p = here /\ cid = k
     /\ exists s, c = NavigableString s /\ PyStr.only_ignored s = false)
  \/ (exists n' sub rel, c = Tag n' sub /\ n' <> "script"%string
        /\ p = here ++ k :: rel /\ eligible_leaf c rel cid)
  \/ from_children here rest (S k) p cid.
Proof.
  unfold from_children. split.
  - intros [(-> & j & s & -> & Hj & Hs) | (j & n' & sub & rel & Hj & Hn & -> & He)].
    + destruct j as [|j]; simpl in Hj.
      * injection Hj as ->. left. rewrite Nat.add_0_r. eauto.
      * right. right. left. split; [reflexivity|].
        exists j, s. split; [lia | auto].
    + destruct j as [|j]; simpl in Hj.
      * injection Hj as ->. right. left. rewrite Nat.add_0_r.
        exists n', sub, rel. auto.
      * right. right. right. exists j, n', sub, rel.
        replace (S k + j)%nat with (k + S j)%nat by lia. auto.
  - intros [(-> & -> & s & -> & Hs)
           | [(n' & sub & rel & -> & Hn & -> & He)
             | [(-> & j & s & -> & Hj & Hs) | (j & n' & sub & rel & Hj & Hn & -> & He)]]].
    + left. split; [reflexivity|]. exists 0%nat, s.
      rewrite Nat.add_0_r. auto.
    + right. exists 0%nat, n', sub, rel. rewrite Nat.add_0_r. auto.
    + left. split; [reflexivity|]. exists (S j), s. split; [lia | auto].
    + right. exists (S j), n', sub, rel.
      replace (k + S j)%nat with (S k + j)%nat by lia. auto.
Qed.

Lemma elem_of_leaves_from here cs :
  Forall leaves_spec cs ->
  forall k p cid,
    (p, cid) ∈ leaves_from here cs k <-> from_children here cs k p cid.
Proof.
  induction 1 as [|c cs Hc _ IH]; intros k p cid.
  - simpl. split; [intros Hin; inversion Hin | intros Hf].
    exfalso. eapply from_children_nil. exact Hf.
  - rewrite leaves_from_cons, elem_of_app, from_children_cons, IH.
    destruct c as [s|s|s|n sub].
    + destruct (PyStr.only_ignored s) eqn:Hs.
      * split; [intros [Hin|Hr]; [inversion Hin | auto] |].
        intros [(_ & _ & s' & Heq & Hs') | [(n' & sub & rel & Heq & _) | Hr]];
          [congruence | discriminate | auto].
      * rewrite list_elem_of_singleton. split.
        -- intros [Heq|Hr]; [injection Heq as -> ->; left; eauto | auto].
        -- intros [(-> & -> & _) | [(n' & sub & rel & Heq & _) | Hr]];
             [auto | discriminate | auto].
    + split; [intros [Hin|Hr]; [inversion Hin | auto] |].
      intros [(_ & _ & s' & Heq & _) | [(n' & sub & rel & Heq & _) | Hr]];
        [discriminate | discriminate | auto].
    + split; [intros [Hin|Hr]; [inversion Hin | auto] |].
      intros [(_ & _ & s' & Heq & _) | [(n' & sub & rel & Heq & _) | Hr]];
        [discriminate | discriminate | auto].
    + destruct (String.eqb_spec n "script") as [->|Hn].
      * split; [intros [Hin|Hr]; [inversion Hin | auto] |].
        intros [(_ & _ & s' & Heq & _) | [(n' & sub' & rel & Heq & Hn' & _) | Hr]];
          [discriminate | congruence | auto].
      * rewrite (Hc (here ++ [k]) p cid). split.
        -- intros [(rel & -> & He) | Hr]; [|auto].
           right. left. exists n, sub, rel. rewrite <- app_assoc. auto.
        -- intros [(_ & _ & s' & Heq & _) | [(n' & sub' & rel & Heq & Hn' & -> & He) | Hr]];
             [discriminate | | auto].
           left. exists rel. rewrite <- app_assoc. auto.
Qed.

Lemma from_children_eligible here n cs p cid :
  from_children here cs 0 p cid <->
  exists rel, p = here ++ rel /\ eligible_leaf (Tag n cs) rel cid.
Proof.
  unfold from_children. split.
  - intros [(-> & j & s & -> & Hj & Hs) | (j & n' & sub & rel & Hj & Hn & -> & He)].
    + exists []. rewrite app_nil_r. split; [reflexivity|].
      apply eligible_nil. eauto.
    + exists (j :: rel). split; [reflexivity|].
      apply eligible_cons. eauto.
  - intros ([|j rel] & -> & He).
    + apply eligible_nil in He as (s & Hj & Hs).
      left. rewrite app_nil_r. split; [reflexivity|]. exists cid, s. auto.
    + apply eligible_cons in He as (n' & sub & Hj & Hn & He).
      right. exists j, n', sub, rel. auto.
Qed.

Lemma elem_of_leaves ele : leaves_spec ele.
Proof.
  induction ele as [s|s|s|n cs IH] using Node_nested_ind; intros h p cid;
    try (split;
         [ intros Hin; inversion Hin
         | intros (rel & _ & He); exfalso; revert He;
           apply eligible_nontag; congruence ]).
  rewrite leaves_Tag, (elem_of_leaves_from h cs IH).
  apply from_children_eligible.
Qed.

Lemma app_cons_neq_self {A} (l r : list A) (x : A) : l ++ x :: r <> l.
Proof.
  intros H. apply (f_equal length) in H. rewrite length_app in H.
  simpl in H. lia.
Qed.

Lemma leaves_from_NoDup here cs :
  Forall (fun c => forall h, NoDup (leaves h c)) cs ->
  forall k, NoDup (leaves_from here cs k).
Proof.
  intros Hcs.
  assert (Hspec : forall l, Forall leaves_spec l)
    by (intros l; apply Forall_forall; intros c _; apply elem_of_leaves).
  induction Hcs as [|c cs Hc _ IH]; intros k; [constructor|].
  rewrite leaves_from_cons. apply NoDup_app. split; [|split; [|apply IH]].
  - destruct c as [s|s|s|n sub]; try constructor.
    + destruct (PyStr.only_ignored s); [constructor | apply NoDup_singleton].
    + destruct (String.eqb n "script"); [constructor | apply Hc].
  - intros [p cid] Hin Hrest.
    apply (elem_of_leaves_from here cs (Hspec cs)) in Hrest.
    destruct c as [s|s|s|n sub]; try (inversion Hin; fail).
    + destruct (PyStr.only_ignored s); [inversion Hin|].
      apply list_elem_of_singleton in Hin. injection Hin as -> ->.
      destruct Hrest as [(_ & j & s' & Hk & _) | (j & n' & sub & rel & _ & _ & Hp & _)];
        [lia | symmetry in Hp; revert Hp; apply app_cons_neq_self].
    + destruct (String.eqb n "script"); [inversion Hin|].
      apply elem_of_leaves in Hin as (rel & -> & _).
      rewrite <- app_assoc in Hrest. simpl in Hrest.
      destruct Hrest as [(Hp & _) | (j & n' & sub' & rel' & _ & _ & Hp & _)].
      * revert Hp. apply app_cons_neq_self.
      * apply app_inv_head in Hp. injection Hp as Hk _. lia.
Qed.

Lemma leaves_NoDup ele : forall h, NoDup (leaves h ele).
Proof.
  induction ele as [s|s|s|n cs IH] using Node_nested_ind; intros h;
    try constructor.
  rewrite leaves_Tag. apply leaves_from_NoDup. exact IH.
Qed.

(** An element that occurs once in the concatenation of some lists
    occurs in exactly one of them. *)
Lemma NoDup_join_unique {A} (ls : list (list A)) (x : A) (i j : nat) (a b : list A) :
  NoDup (mjoin ls) ->
  ls !! i = Some a -> x ∈ a ->
  ls !! j = Some b -> x ∈ b ->
  i = j.
Proof.
  revert i j. induction ls as [|l ls IH]; intros i j Hnd Hi Ha Hj Hb.
  - rewrite lookup_nil in Hi. discriminate.
  - simpl in Hnd. apply NoDup_app in Hnd as (_ & Hdisj & Hnd).
    assert (Hin : forall k c, ls !! k = Some c -> x ∈ c -> x ∈ mjoin ls).
    { intros k c Hk Hc. apply list_elem_of_join. exists c. split; [exact Hc|].
      eapply list_elem_of_lookup_2. exact Hk. }
    destruct i as [|i], j as [|j]; simpl in Hi, Hj.
    + reflexivity.
    + injection Hi as ->. exfalso. eapply Hdisj; eauto.
    + injection Hj as ->. exfalso. eapply Hdisj; eauto.
    + f_equal. eapply IH; eauto.
Qed.

(** [(p, cid)] is a member of the group under key position [i]. *)
Definition in_group (gm : list (string * InlineGroup)) (i : nat)
    (p : path) (cid : nat) : Prop :=
  exists kv, gm !! i = Some kv /\ (p, cid) ∈ group_handles kv.2.

(** The handles of the groups of a block-level root: no handle twice, and
    the members of the groups are eligible leaves. *)
Lemma grouped_handles_sound name contents :
  is_inline_ele name = false ->
  NoDup (grouped_handles (get_text_group_inline (Tag name contents)))
  /\ forall i p cid,
       in_group (get_text_group_inline (Tag name contents)) i p cid ->
       eligible_leaf (Tag name contents) p cid.
Proof.
intros Hblock.
pose proof (get_text_group_inline_leaves name contents Hblock) as Hperm.
split.
- rewrite Hperm. apply leaves_NoDup.
- intros i p cid (kv & Hi & Hx).
  assert (Hin : (p, cid) ∈ grouped_handles (get_text_group_inline (Tag name contents))).
  { apply list_elem_of_join. exists (group_handles kv.2). split; [exact Hx|].
    apply list_elem_of_fmap. exists kv. split; [reflexivity|].
    eapply list_elem_of_lookup_2. exact Hi. }
  rewrite Hperm in Hin.
  apply (elem_of_leaves (Tag name contents) [] p cid) in Hin as (rel & Heq & He).
  simpl in Heq. subst rel. exact He.
Qed.

(** C7 (amended): for a root that is not an inline tag, every eligible
    text leaf (a plain string with a character other than the line feed
    and the no-break space, outside [script] elements) belongs to exactly
    one group of [get_text_group_inline], at one position of it; the
    groups hold nothing else; and a text node made only of line feeds and
    no-break spaces is in no group.  The extractor is a function of the
    tree and returns the group map only: no node is deleted. *)
Theorem eligible_leaf_in_exactly_one_group name contents :
  is_inline_ele name = false ->
  let root := Tag name contents in
  let gm := get_text_group_inline root in
  NoDup (grouped_handles gm)
  /\ (forall p cid, eligible_leaf root p cid ->
        exists i, in_group gm i p cid
                  /\ forall j, in_group gm j p cid -> j = i)
  /\ (forall i p cid, in_group gm i p cid -> eligible_leaf root p cid)
  /\ (forall i p cid s,
        Tree.get (p ++ [cid]) root = Some (NavigableString s) ->
        PyStr.only_ignored s = true ->
        ~ in_group gm i p cid).
Proof.
  intros Hblock root gm.
  pose proof (get_text_group_inline_leaves name contents Hblock) as Hperm.
  fold root in Hperm. fold gm in Hperm.
  assert (Hnd : NoDup (grouped_handles gm)).
  { rewrite Hperm. apply leaves_NoDup. }
  assert (Hmem : forall p cid,
             (p, cid) ∈ grouped_handles gm <-> eligible_leaf root p cid).
  { intros p cid. rewrite Hperm, (elem_of_leaves root [] p cid). simpl.
    split; [intros (rel & -> & He); exact He | eauto]. }
  assert (Hin : forall i p cid, in_group gm i p cid -> (p, cid) ∈ grouped_handles gm).
  { intros i p cid (kv & Hi & Hx). apply list_elem_of_join.
    exists (group_handles kv.2). split; [exact Hx|].
    apply list_elem_of_fmap. exists kv. split; [reflexivity|].
    eapply list_elem_of_lookup_2. exact Hi. }
  split; [exact Hnd|]. split; [|split].
  - intros p cid He. apply Hmem in He.
    apply list_elem_of_join in He as (l & Hx & Hl).
    apply list_elem_of_fmap in Hl as (kv & -> & Hkv).
    apply list_elem_of_lookup_1 in Hkv as (i & Hi).
    exists i. split; [exists kv; auto|].
    intros j (kv' & Hj & Hx').
    eapply (NoDup_join_unique _ (p, cid) j i); [exact Hnd | | exact Hx' | | exact Hx].
    + rewrite list_lookup_fmap, Hj. reflexivity.
    + rewrite list_lookup_fmap, Hi. reflexivity.
  - intros i p cid Hg. apply Hmem. eapply Hin. exact Hg.
  - intros i p cid s Hget Hs Hg.
    apply Hin, Hmem in Hg. destruct Hg as [(s' & Hget' & Hs') _].
    congruence.
Qed.

End ExtractFacts.

Module ExtractExamples.
Import Extract ExtractFacts.
Open Scope string_scope.

Definition nl : string := String PyStr.newline "".

(** <p>Hello <b>big</b> world</p>, a line break between the blocks, and a
    <div> whose last child is an indentation artifact. *)
Definition page : Node :=
  Tag "[document]" [
    Doctype "html";
    Tag "p" [NavigableString "Hello "; Tag "b" [NavigableString "big"];
             NavigableString " world"];
    NavigableString nl;
    Tag "div" [Tag "span" [NavigableString "a"; Tag "div" [NavigableString "b"];
                           NavigableString "c"];
               Tag "script" [NavigableString "x=1"];
               NavigableString (nl +:+ "  ")]].

Example page_groups :
  get_text_group_inline page =
  [("0", mkInlineGroup ["Hello "; "big"; " world"] [0; 0; 2]%nat [[1]; [1; 1]; [1]]%nat);
   ("1", mkInlineGroup ["a"; "c"; "  "] [0; 2; 2]%nat [[3; 0]; [3; 0]; [3]]%nat);
   ("2", mkInlineGroup ["b"] [0%nat] [[3; 0; 1]%nat])].
Proof. reflexivity. Qed.

Lemma eligible_leaf_in_exactly_one_group_witness :
  is_inline_ele "[document]" = false
  /\ NoDup (grouped_handles (get_text_group_inline page)).
Proof.
  split; [reflexivity|].
  apply (eligible_leaf_in_exactly_one_group "[document]"
           [Doctype "html";
            Tag "p" [NavigableString "Hello "; Tag "b" [NavigableString "big"];
                     NavigableString " world"];
            NavigableString nl;
            Tag "div" [Tag "span" [NavigableString "a"; Tag "div" [NavigableString "b"];
                                   NavigableString "c"];
                       Tag "script" [NavigableString "x=1"];
                       NavigableString (nl +:+ "  ")]]).
  reflexivity.
Defined.

(** A text node of a line feed and two spaces is whitespace only, and the
    extractor groups it: only line feeds and no-break spaces are
    ignored. *)
Lemma indentation_node_is_grouped :
  let root := Tag "[document]" [Tag "p" [NavigableString (nl +:+ "  ")]] in
  Tree.get [0; 0]%nat root = Some (NavigableString (nl +:+ "  "))
  /\ PyStr.isspace (nl +:+ "  ") = true
  /\ get_text_group_inline root
     = [("0", mkInlineGroup ["  "] [0%nat] [[0%nat]])]
  /\ in_group (get_text_group_inline root) 0 [0%nat] 0.
Proof.
  cbv zeta. repeat split.
  eexists. split; [reflexivity|]. apply list_elem_of_here.
Qed.

End ExtractExamples.

(** ** What the program takes from Python and its libraries *)

(** [str_lower] is [str.lower], [int_of_str] is [int(k)] on a string
    ([None] when it raises [ValueError]) and [ratio a b] is
    [difflib.SequenceMatcher(None, a, b).ratio()], a similarity in
    [[0, 1]].  The float it returns is modelled by the rational it
    rounds. *)
Class PyLib : Type := {
  str_lower : string -> string;
  int_of_str : string -> option Z;
  ratio : string -> string -> Q;
  ratio_range : forall a b, (0 <= ratio a b <= 1)%Q
}.

(** [l[i]] on a Python list: a negative index counts from the end;
    [None] is [IndexError]. *)
Definition py_index {A} (l : list A) (i : Z) : option A :=
  let n := Z.of_nat (length l) in
  if i <? 0 then (if i + n <? 0 then None else l !! Z.to_nat (i + n))
  else l !! Z.to_nat i.

(** A Python [dict] with string keys, in insertion order. *)
Definition dict (V : Type) : Type := list (string * V).

(** ** Fit-back reconstructor *)

Inductive FitStatus : Type := Success | Compromise | Fail.

(** The state the fit-back tasks act on: the tree, and the number of
    completion requests issued so far. *)
Record world : Type := mkWorld { soup : Node; calls : nat }.

(** A Python call either returns a value or raises, in both cases with the
    state it leaves behind. *)
Inductive outcome (A : Type) : Type :=
| Returns (a : A) (w : world)
| Raised (e : exn) (w : world).
Arguments Returns {A} a w.
Arguments Raised {A} e w.

(** What one streamed completion request of [restruct] comes to: the call
    raises, or its text goes through [as_json_obj], which gives [None] or
    the decoded object. *)
Inductive reply : Type :=
| Raises (e : exn)
| Decoded (o : option (dict string)).

Definition Qltb (a b : Q) : bool :=
  match (a ?= b)%Q with Lt => true | _ => false end.

Module Fit.
Section WithLib.
Context {lib : PyLib}.

(** The keys of the dict literal of [match_score], as the source file
    holds them: the space, the line feed, the tab, the comma, the text
    between the quotes of line 60, which is the three characters U+00EF,
    U+00BC and U+0152 (the bytes C3 AF, C2 BC and C5 92), and the full
    stop.  Each is given the empty string. *)
Definition line_60_key : string :=
  String (ascii_of_nat 195) (String (ascii_of_nat 175)
    (String (ascii_of_nat 194) (String (ascii_of_nat 188)
      (String (ascii_of_nat 197) (String (ascii_of_nat 146) EmptyString))))).

Definition compact_keys : list string :=
  [String " " EmptyString; String PyStr.newline EmptyString;
   String PyStr.tab EmptyString; String "," EmptyString;
   line_60_key; String "." EmptyString].

Definition compact_dict : list (string * string) :=
  (fun k => (k, EmptyString)) <$> compact_keys.

(** [match_score(s1, s2)]: the table is built first, and
    [str.maketrans] raises [ValueError] when it cannot be. *)
Definition match_score (s1 s2 : string) : exn + Q :=
  match PyStr.maketrans compact_dict with
  | None => inl ValueError
  | Some compact_tab =>
      inr (ratio (str_lower (PyStr.translate compact_tab s1))
             (str_lower (PyStr.translate compact_tab s2)))
  end.

(** [sorted(shreds_out.items(), key=lambda x: int(x[0]))]: the keys are
    converted first ([None] when one of them raises), then a stable sort
    on the integers. *)
Fixpoint int_keys (d : dict string) : option (list (Z * string)) :=
  match d with
  | [] => Some []
  | (k, v) :: r =>
      match int_of_str k, int_keys r with
      | Some i, Some r' => Some ((i, v) :: r')
      | _, _ => None
      end
  end.

Fixpoint insert_key (x : Z * string) (l : list (Z * string)) : list (Z * string) :=
  match l with
  | [] => [x]
  | y :: l' => if x.1 <? y.1 then x :: y :: l' else y :: insert_key x l'
  end.

Definition sort_keys (l : list (Z * string)) : list (Z * string) :=
  fold_left (fun acc x => insert_key x acc) l [].

(** The two reasons of [validate_fit_in], as its f-strings build them. *)
Definition dquote : string := String (ascii_of_nat 34) EmptyString.

Definition length_reason (n_in n_out : nat) : string :=
  ("Length not match, in(" ++ PyStr.str_of_nat n_in ++ ") != out("
   ++ PyStr.str_of_nat n_out ++ ").")%string.

Definition string_reason (trans_str fit_str : string) : string :=
  ("String not match, to_fit=" ++ dquote ++ trans_str ++ dquote
   ++ " | fit=" ++ dquote ++ fit_str ++ dquote)%string.

(** [validate_fit_in(shreds_in, trans_str, shreds_out)]: the score and
    the reason, or the exception of [int] or of [match_score]. *)
Definition validate_fit_in (shreds_in : dict string) (trans_str : string)
    (shreds_out : dict string) : exn + (Q * string) :=
  if negb (length shreds_in =? length shreds_out)%nat
  then inr (0%Q, length_reason (length shreds_in) (length shreds_out))
  else
    match int_keys shreds_out with
    | None => inl ValueError
    | Some ks =>
        let fit_str := PyStr.join (snd <$> sort_keys ks) in
        match match_score trans_str fit_str with
        | inl e => inl e
        | inr score =>
            if negb (Qeq_bool score 1)
            then inr (score, string_reason trans_str fit_str)
            else inr (1%Q, ""%string)
        end
    end.

Definition max_retry : nat := 10.

(** The body of the [try] in [restruct]'s loop: [true] when it reaches
    [break], [false] when it raises, with the candidates after it. *)
Definition attempt (shreds_in : dict string) (trans : string) (r : reply)
    (fit_candidates : list (Q * dict string)) : bool * list (Q * dict string) :=
  match r with
  | Raises _ => (false, fit_candidates)
  | Decoded None => (false, fit_candidates)
  | Decoded (Some []) => (false, fit_candidates)
  | Decoded (Some shreds_out) =>
      match validate_fit_in shreds_in trans shreds_out with
      | inl _ => (false, fit_candidates)
      | inr (score, err) =>
          let fit_candidates := fit_candidates ++ [(score, shreds_out)] in
          if negb (String.eqb err "") then (false, fit_candidates)
          else (true, fit_candidates)
      end
  end.

(** [max(fit_candidates, key=lambda x: x[0])]: the first candidate of
    the highest score. *)
Fixpoint max_from (best : Q * dict string) (l : list (Q * dict string))
  : Q * dict string :=
  match l with
  | [] => best
  | x :: r => if Qltb best.1 x.1 then max_from x r else max_from best r
  end.

(** The loop that replaces the contents: for each [(k, v)] of the chosen
    candidate, [group.cids[int(k)]], [group.elements[int(k)]] and
    [ele.contents[cid].replace_with(v)]. *)
Fixpoint replace_contents (group : InlineGroup) (shreds_out : dict string)
    (t : Node) : (exn * Node) + Node :=
  match shreds_out with
  | [] => inr t
  | (k, v) :: rest =>
      match int_of_str k with
      | None => inl (ValueError, t)
      | Some i =>
          match py_index (cids group) i, py_index (elements group) i with
          | Some cid, Some ele =>
              match Tree.replace_with ele cid v t with
              | Some t' => replace_contents group rest t'
              | None => inl (IndexError, t)
              end
          | _, _ => inl (IndexError, t)
          end
      end
  end.

(** The [while True] loop of [restruct].  [retry] counts the failed
    attempts, and is also the number of the request about to be issued;
    the loop ends on [break], after the body ran without raising or when
    [retry > max_retry].  The result is the list of candidates and the
    number of requests issued. *)
Section Loop.
Variable chat : nat -> Q -> reply.
Variables (shreds_in : dict string) (trans : string).

Equations? restruct_loop (retry : nat) (temperature : Q)
    (fit_candidates : list (Q * dict string))
  : list (Q * dict string) * nat by wf (S max_retry - retry)%nat lt :=
  restruct_loop retry temperature fit_candidates
    with attempt shreds_in trans (chat retry temperature) fit_candidates => {
    | (true, cands) => (cands, S retry)
    | (false, cands) with lt_dec max_retry (S retry) => {
        | left _ => (cands, S retry)
        | right _ => restruct_loop (S retry) (temperature * (16 # 10)) cands } }.
Proof. lia. Qed.
End Loop.

(** [restruct(group, ori, trans)]; [chat n temperature] is what the
    [n]-th request of this task comes to. *)
Definition restruct (chat : nat -> Q -> reply) (group : InlineGroup)
    (ori trans : string) (w : world) : outcome FitStatus :=
  let shreds_in := imap (fun i shred => (PyStr.str_of_nat i, shred)) (text_shreds group) in
  let '(fit_candidates, n) := restruct_loop chat shreds_in trans 0 (1 # 100) [] in
  let w := mkWorld (soup w) (calls w + n) in
  match fit_candidates with
  | [] => Returns Fail w
  | c :: rest =>
      let '(max_score, shreds_out) := max_from c rest in
      match replace_contents group shreds_out (soup w) with
      | inl (e, t) => Raised e (mkWorld t (calls w))
      | inr t =>
          Returns (if Qltb max_score 1 then Compromise else Success)
            (mkWorld t (calls w))
      end
  end.

(** [group_fit_in(group, ori, trans)]. *)
Definition group_fit_in (chat : nat -> Q -> reply) (group : InlineGroup)
    (ori trans : string) (w : world) : outcome FitStatus :=
  match match_score (group_str group) trans with
  | inl e => Raised e w
  | inr score =>
      if Qeq_bool score 1 then Returns Success w
      else if (group_len group =? 1)%nat then
        match py_index (elements group) 0, py_index (cids group) 0 with
        | Some ele, Some cid =>
            match Tree.replace_with ele cid trans (soup w) with
            | Some t => Returns Success (mkWorld t (calls w))
            | None => Raised IndexError w
            end
        | _, _ => Raised IndexError w
        end
      else restruct chat group ori trans w
  end.

End WithLib.
End Fit.

Module FitExamples.
Import Fit.
Open Scope string_scope.

Fixpoint digits (s : string) (acc : Z) : option Z :=
  match s with
  | EmptyString => Some acc
  | String a r =>
      let n := Z.of_nat (nat_of_ascii a) in
      if ((48 <=? n) && (n <=? 57))%Z then digits r (10 * acc + (n - 48))%Z else None
  end.

(** [int] on the plain decimal numerals of the examples: an optional sign
    and at least one digit. *)
Definition int_decimal (s : string) : option Z :=
  match s with
  | EmptyString => None
  | String "-" (String a r) => Z.opp <$> digits (String a r) 0
  | String "+" (String a r) => digits (String a r) 0
  | _ => digits s 0
  end.

Definition lower_ascii (a : ascii) : ascii :=
  let n := nat_of_ascii a in
  if ((65 <=? n) && (n <=? 90))%nat then ascii_of_nat (n + 32) else a.

Fixpoint lower (s : string) : string :=
  match s with
  | EmptyString => EmptyString
  | String a r => String (lower_ascii a) (lower r)
  end.

(** A stand-in for [difflib]'s ratio in the examples: 1 on equal strings
    and 0 otherwise. *)
Definition ratio_eq (a b : string) : Q := if String.eqb a b then 1%Q else 0%Q.

#[refine] Instance example_lib : PyLib :=
  {| str_lower := lower; int_of_str := int_decimal; ratio := ratio_eq |}.
Proof.
  intros a b. unfold ratio_eq. destruct (String.eqb a b); split; discriminate.
Defined.

Definition settings_page : Node :=
  Tag "[document]" [Tag "p" [NavigableString "Settings"]].
Definition settings_group : InlineGroup :=
  mkInlineGroup ["Settings"] [0%nat] [[0%nat]].
(** Every request ends in the executor's retries-exhausted error. *)
Definition silent : nat -> Q -> reply :=
  fun _ _ => Raises (MaxRetryReached (ServiceError 0)).

Definition hello_page : Node :=
  Tag "[document]" [Tag "p" [NavigableString "Hello "; Tag "b" [NavigableString "world"]]].
Definition hello_group : InlineGroup :=
  mkInlineGroup ["Hello "; "world"] [0%nat; 0%nat] [[0%nat]; [0%nat; 1%nat]].
End FitExamples.

(** ** Segmenter *)

(** [d[k] = v] on a [dict]: the value of an existing key is replaced in
    place, a new key is appended. *)
Fixpoint dict_set {V} (k : string) (v : V) (d : dict V) : dict V :=
  match d with
  | [] => [(k, v)]
  | (k', v') :: r =>
      if String.eqb k' k then (k', v) :: r else (k', v') :: dict_set k v r
  end.

(** [d[k]]; [None] is [KeyError]. *)
Fixpoint dict_get {V} (k : string) (d : dict V) : option V :=
  match d with
  | [] => None
  | (k', v) :: r => if String.eqb k' k then Some v else dict_get k r
  end.

Module Segment.
Section WithCounter.

(** [token_counter]: the tokenizer's count of a text, a length. *)
Variable token_counter : string -> nat.

(** [math.ceil(a / b)] for [b <> 0], on the exact quotient.  The code
    takes the ceiling of the float [a / b], which is the same integer
    while [a] and [b] are below 2^53 in absolute value. *)
Definition ceil_div (a b : Z) : Z := - ((- a) / b).

Definition n_tokens (g : InlineGroup) : Z := Z.of_nat (token_counter (group_str g)).

(** The variables of the loop. *)
Record sstate : Type := mkS {
  ret : list (dict InlineGroup);
  token_cnt : Z;
  cnt : nat;
  seg : dict InlineGroup
}.

Definition truthy {A} (l : list A) : bool :=
  match l with [] => false | _ => true end.

(** One turn of [for k, group in groups_map.items()]. *)
Definition step (max_token len_seg : Z) (st : sstate) (kv : string * InlineGroup)
  : sstate :=
  let group := kv.2 in
  let n := n_tokens group in
  if max_token <? n then st
  else
    let st :=
      if (len_seg <? token_cnt st) && truthy (seg st)
      then mkS (ret st ++ [seg st]) 0 0 []
      else st in
    mkS (ret st) (token_cnt st + n) (S (cnt st))
        (dict_set (PyStr.str_of_nat (cnt st)) group (seg st)).

Definition token_sum (groups_map : dict InlineGroup) : Z :=
  foldr (fun kv acc => n_tokens kv.2 + acc) 0 groups_map.

(** [segment_groups_map(groups_map, max_token, token_counter)]. *)
Definition segment_groups_map (groups_map : dict InlineGroup) (max_token : Z)
  : exn + list (dict InlineGroup) :=
  let token_all := token_sum groups_map in
  if token_all =? 0 then inr []
  else if max_token =? 0 then inl ZeroDivisionError
  else
    let n_seg := ceil_div token_all max_token in
    if n_seg =? 0 then inl ZeroDivisionError
    else
      let len_seg := ceil_div token_all n_seg in
      let st := fold_left (step max_token len_seg) groups_map (mkS [] 0 0 []) in
      inr (ret st ++ [seg st]).

End WithCounter.
End Segment.

Module SegmentFacts.
Import Segment.

Lemma str_of_nat_inj m n : PyStr.str_of_nat m = PyStr.str_of_nat n -> m = n.
Proof.
  unfold PyStr.str_of_nat. intros H.
  apply (f_equal NilEmpty.uint_of_string) in H.
  rewrite !NilEmpty.usu in H. injection H as H.
  apply DecimalNat.Unsigned.to_uint_inj. exact H.
Qed.

(** A key that is not in the dict is appended. *)
Lemma dict_set_fresh {V} k (v : V) d :
  Forall (fun kv => kv.1 <> k) d -> dict_set k v d = d ++ [(k, v)].
Proof.
  induction 1 as [|[k' v'] d Hk _ IH]; simpl; [reflexivity|].
  destruct (String.eqb_spec k' k) as [->|_]; [contradiction|].
  rewrite IH. reflexivity.
Qed.

Section WithCounter.
Variable token_counter : string -> nat.
Variables max_token len_seg : Z.

Definition fits (g : InlineGroup) : bool :=
  negb (max_token <? n_tokens token_counter g).

(** The groups of the segments, in order. *)
Definition segment_groups (segs : list (dict InlineGroup)) : list InlineGroup :=
  mjoin ((fun s => snd <$> s) <$> segs).

(** The keys of the running segment are [str(0)], ..., [str(cnt - 1)]. *)
Definition keyed (st : sstate) : Prop :=
  (fst <$> seg st) = PyStr.str_of_nat <$> seq 0 (cnt st).

Lemma step_spec st kv :
  keyed st ->
  let st' := step token_counter max_token len_seg st kv in
  keyed st'
  /\ segment_groups (ret st' ++ [seg st'])
     = segment_groups (ret st ++ [seg st]) ++ (if fits kv.2 then [kv.2] else []).
Proof.
  intros Hk. unfold step, fits. cbv zeta.
  destruct (max_token <? n_tokens token_counter kv.2); simpl.
  { rewrite app_nil_r. auto. }
  set (st1 := if (len_seg <? token_cnt st) && truthy (seg st)
              then mkS (ret st ++ [seg st]) 0 0 [] else st).
  assert (Hk1 : keyed st1) by (subst st1; destruct (_ && _); [reflexivity | exact Hk]).
  assert (H1 : segment_groups (ret st1 ++ [seg st1]) = segment_groups (ret st ++ [seg st])).
  { subst st1. destruct (_ && _); [|reflexivity]. simpl.
    unfold segment_groups. rewrite !fmap_app, !join_app. simpl.
    rewrite !app_nil_r. reflexivity. }
  rewrite dict_set_fresh.
  - split.
    + unfold keyed in *. cbn [seg cnt]. rewrite fmap_app, Hk1, seq_S, fmap_app. reflexivity.
    + rewrite <- H1. unfold segment_groups.
      rewrite !fmap_app, !join_app. simpl. rewrite !app_nil_r, fmap_app.
      rewrite <- app_assoc. reflexivity.
  - unfold keyed in Hk1. apply Forall_forall. intros [k v] Hin Heq. simpl in Heq.
    assert (Hkin : k ∈ fst <$> seg st1)
      by (apply list_elem_of_fmap; exists (k, v); auto).
    rewrite Hk1, Heq in Hkin. apply list_elem_of_fmap in Hkin as (m & Hm & Hin').
    apply str_of_nat_inj in Hm. subst m.
    apply list_elem_of_In, in_seq in Hin'. lia.
Qed.

Lemma fold_step_spec groups_map : forall st,
  keyed st ->
  let st' := fold_left (step token_counter max_token len_seg) groups_map st in
  segment_groups (ret st' ++ [seg st'])
  = segment_groups (ret st ++ [seg st]) ++ List.filter fits (snd <$> groups_map).
Proof.
  induction groups_map as [|kv l IH]; intros st Hk; simpl.
  - rewrite app_nil_r. reflexivity.
  - destruct (step_spec st kv Hk) as [Hk' Heq].
    rewrite (IH _ Hk'), Heq, <- app_assoc. f_equal.
    destruct (fits kv.2); reflexivity.
Qed.
End WithCounter.

Lemma token_sum_nonneg token_counter gm : 0 <= token_sum token_counter gm.
Proof.
  induction gm as [|kv gm IH]; simpl; [lia|]. unfold n_tokens. lia.
Qed.

Lemma ceil_div_pos a b : 0 < a -> 0 < b -> 0 < ceil_div a b.
Proof.
  intros Ha Hb. unfold ceil_div.
  assert (- a / b < 0) by (apply Z.div_lt_upper_bound; lia). lia.
Qed.

(** C6: for a positive [max_token], [segment_groups_map] returns the
    empty list when the total token count is zero; otherwise the groups
    of the returned segments, read segment after segment, are the groups
    of the input whose own count does not exceed [max_token], each once
    and in the input's order, so that a group over [max_token] is in no
    segment. *)
Theorem segment_groups_map_keeps_fitting_groups
    (token_counter : string -> nat) (groups_map : dict InlineGroup)
    (max_token : Z) :
  0 < max_token ->
  exists segs,
    segment_groups_map token_counter groups_map max_token = inr segs
    /\ (token_sum token_counter groups_map = 0 -> segs = [])
    /\ (token_sum token_counter groups_map <> 0 ->
          segment_groups segs
          = List.filter (fun g => n_tokens token_counter g <=? max_token)
              (snd <$> groups_map)).
Proof.
  intros Hmax. unfold segment_groups_map. cbv zeta.
  pose proof (token_sum_nonneg token_counter groups_map) as Hnn.
  destruct (Z.eqb_spec (token_sum token_counter groups_map) 0) as [Hz|Hnz].
  { exists []. split; [reflexivity|]. split; [reflexivity | contradiction]. }
  destruct (Z.eqb_spec max_token 0) as [?|_]; [lia|].
  pose proof (ceil_div_pos (token_sum token_counter groups_map) max_token) as Hn.
  destruct (Z.eqb_spec (ceil_div (token_sum token_counter groups_map) max_token) 0)
    as [?|_]; [lia|].
  eexists. split; [reflexivity|]. split; [contradiction|]. intros _.
  rewrite fold_step_spec by reflexivity.
  simpl. apply List.filter_ext. intros g. unfold fits.
  destruct (Z.ltb_spec max_token (n_tokens token_counter g)),
           (Z.leb_spec (n_tokens token_counter g) max_token); simpl; (reflexivity || lia).
Qed.

End SegmentFacts.

Module SegmentExamples.
Import Segment SegmentFacts.
Open Scope string_scope.

Definition one (s : string) : InlineGroup := mkInlineGroup [s] [0%nat] [[]].

Definition four_groups : dict InlineGroup :=
  [("0", one "abc"); ("1", one "a much longer paragraph"); ("2", one "de");
   ("3", one "fgh")].

(** With the length of the text as its token count and [max_token = 4]:
    the long paragraph is dropped, the others fill two segments, keyed
    anew from ["0"]. *)
Example four_groups_segments :
  segment_groups_map String.length four_groups 4
  = inr [[("0", one "abc"); ("1", one "de")]; [("0", one "fgh")]].
Proof. vm_compute. reflexivity. Qed.

Lemma segment_groups_map_keeps_fitting_groups_witness :
  0 < 4
  /\ exists segs,
       segment_groups_map String.length four_groups 4 = inr segs
       /\ (token_sum String.length four_groups = 0 -> segs = [])
       /\ (token_sum String.length four_groups <> 0 ->
             segment_groups segs
             = List.filter (fun g => (n_tokens String.length g <=? 4)%Z)
                 (snd <$> four_groups)).
Proof.
  split; [lia|].
  apply (segment_groups_map_keeps_fitting_groups String.length four_groups 4).
  lia.
Defined.

End SegmentExamples.

(** ** Replacing a leaf: what changes in the tree and what does not *)

Module TreeFacts.

(** The node at path [p] is a plain string. *)
Definition text_at (t : Node) (p : path) : Prop :=
  exists s, Tree.get p t = Some (NavigableString s).

Lemma get_app p q t :
  Tree.get (p ++ q) t =
  match Tree.get p t with
  | Some c => Tree.get q c
  | None => None
  end.
Proof.
  revert t. induction p as [|i p IH]; intros t; simpl; [reflexivity|].
  destruct t as [s|s|s|n cs]; try reflexivity.
  destruct (cs !! i); [apply IH | reflexivity].
Qed.

Lemma get_string_inv s p c :
  Tree.get p (NavigableString s) = Some c -> p = [].
Proof. destruct p; [reflexivity | discriminate]. Qed.

(** [replace_with] raises exactly when the child is not there. *)
Lemma replace_with_is_Some ele cid v t :
  is_Some (Tree.replace_with ele cid v t) <-> is_Some (Tree.get (ele ++ [cid]) t).
Proof.
  revert t. induction ele as [|i ele IH]; intros t; simpl.
  - destruct t as [s|s|s|n cs]; simpl; try (split; intros [x Hx]; discriminate).
    destruct (cs !! cid); simpl; split; intros [x Hx]; eauto; discriminate.
  - destruct t as [s|s|s|n cs]; simpl; try (split; intros [x Hx]; discriminate).
    destruct (cs !! i) as [c|]; [|split; intros [x Hx]; discriminate].
    rewrite <- IH. destruct (Tree.replace_with ele cid v c);
      split; intros [x Hx]; eauto; discriminate.
Qed.

Lemma replace_with_get_same ele cid v t t' :
  Tree.replace_with ele cid v t = Some t' ->
  Tree.get (ele ++ [cid]) t' = Some (NavigableString v).
Proof.
  revert t t'. induction ele as [|i ele IH]; intros t t' H; simpl in *.
  - destruct t as [s|s|s|n cs]; try discriminate.
    destruct (cs !! cid) eqn:Hc; [|discriminate]. injection H as <-.
    simpl. rewrite list_lookup_insert_eq; [reflexivity|].
    eapply lookup_lt_Some. exact Hc.
  - destruct t as [s|s|s|n cs]; try discriminate.
    destruct (cs !! i) as [c|] eqn:Hc; [|discriminate].
    destruct (Tree.replace_with ele cid v c) as [c'|] eqn:Hr; [|discriminate].
    injection H as <-. simpl.
    rewrite list_lookup_insert_eq by (eapply lookup_lt_Some; exact Hc).
    eapply IH. exact Hr.
Qed.

(** A path that neither extends the replaced position nor leads to it
    reads the same node before and after. *)
Lemma replace_with_get_other ele cid v t t' p :
  Tree.replace_with ele cid v t = Some t' ->
  ~ (ele ++ [cid]) `prefix_of` p -> ~ p `prefix_of` (ele ++ [cid]) ->
  Tree.get p t' = Tree.get p t.
Proof.
  revert t t' p. induction ele as [|i ele IH]; intros t t' p H Hn1 Hn2; simpl in *.
  - destruct t as [s|s|s|n cs]; try discriminate.
    destruct (cs !! cid) eqn:Hc; [|discriminate]. injection H as <-.
    destruct p as [|j p]; [exfalso; apply Hn2, prefix_nil|]. simpl.
    destruct (decide (j = cid)) as [->|Hne].
    + exfalso. apply Hn1. exists p. reflexivity.
    + rewrite list_lookup_insert_ne by congruence. reflexivity.
  - destruct t as [s|s|s|n cs]; try discriminate.
    destruct (cs !! i) as [c|] eqn:Hc; [|discriminate].
    destruct (Tree.replace_with ele cid v c) as [c'|] eqn:Hr; [|discriminate].
    injection H as <-.
    destruct p as [|j p]; [exfalso; apply Hn2, prefix_nil|]. simpl.
    destruct (decide (j = i)) as [->|Hne].
    + rewrite list_lookup_insert_eq by (eapply lookup_lt_Some; exact Hc).
      rewrite Hc. eapply IH; [exact Hr | |].
      * intros Hp. apply Hn1. apply prefix_cons. exact Hp.
      * intros Hp. apply Hn2. apply prefix_cons. exact Hp.
    + rewrite list_lookup_insert_ne by congruence. reflexivity.
Qed.

(** Two distinct text leaves: neither path leads to the other. *)
Lemma text_at_incomparable t p q :
  text_at t p -> is_Some (Tree.get q t) -> p `prefix_of` q -> q = p.
Proof.
  intros [s Hp] [c Hq] [r ->].
  rewrite get_app, Hp in Hq. apply get_string_inv in Hq. subst r.
  apply app_nil_r.
Qed.

(** Replacing a text leaf by a string leaves the text leaves of the tree
    where they are. *)
Lemma replace_with_text_at ele cid v t t' :
  Tree.replace_with ele cid v t = Some t' ->
  text_at t (ele ++ [cid]) ->
  forall p, text_at t' p <-> text_at t p.
Proof.
  intros Hr Hleaf p.
  pose proof (replace_with_get_same _ _ _ _ _ Hr) as Hsame.
  assert (Hleaf' : text_at t' (ele ++ [cid])) by (eexists; exact Hsame).
  destruct (decide (p = ele ++ [cid])) as [->|Hne]; [tauto|].
  split; intros Hp.
  - assert (Hn1 : ~ (ele ++ [cid]) `prefix_of` p).
    { intros Hpre. apply Hne.
      eapply (text_at_incomparable t'); [exact Hleaf' | | exact Hpre].
      destruct Hp as [s Hs]. eauto. }
    assert (Hn2 : ~ p `prefix_of` (ele ++ [cid])).
    { intros Hpre. apply Hne. symmetry.
      eapply (text_at_incomparable t'); [exact Hp | | exact Hpre].
      destruct Hleaf' as [s Hs]. eauto. }
    destruct Hp as [s Hs]. exists s.
    rewrite <- (replace_with_get_other _ _ _ _ _ _ Hr Hn1 Hn2). exact Hs.
  - assert (Hn1 : ~ (ele ++ [cid]) `prefix_of` p).
    { intros Hpre. apply Hne.
      eapply (text_at_incomparable t); [exact Hleaf | | exact Hpre].
      destruct Hp as [s Hs]. eauto. }
    assert (Hn2 : ~ p `prefix_of` (ele ++ [cid])).
    { intros Hpre. apply Hne. symmetry.
      eapply (text_at_incomparable t); [exact Hp | | exact Hpre].
      destruct Hleaf as [s Hs]. eauto. }
    destruct Hp as [s Hs]. exists s.
    rewrite (replace_with_get_other _ _ _ _ _ _ Hr Hn1 Hn2). exact Hs.
Qed.

(** The text of another leaf is not touched. *)
Lemma replace_with_frame ele cid v t t' p :
  Tree.replace_with ele cid v t = Some t' ->
  text_at t (ele ++ [cid]) -> text_at t p -> p <> ele ++ [cid] ->
  Tree.get p t' = Tree.get p t.
Proof.
  intros Hr Hleaf Hp Hne.
  eapply replace_with_get_other; [exact Hr | |].
  - intros Hpre. apply Hne.
    eapply (text_at_incomparable t); [exact Hleaf | | exact Hpre].
    destruct Hp as [s Hs]. eauto.
  - intros Hpre. apply Hne. symmetry.
    eapply (text_at_incomparable t); [exact Hp | | exact Hpre].
    destruct Hleaf as [s Hs]. eauto.
Qed.

End TreeFacts.

(** ** Facts about the fit-back reconstructor *)

Module FitFacts.
Import Fit TreeFacts.

Lemma Qltb_lt a b : Qltb a b = true <-> (a < b)%Q.
Proof.
  unfold Qltb. rewrite Qlt_alt. destruct (a ?= b)%Q; split; congruence.
Qed.

Lemma Qltb_ge a b : Qltb a b = false <-> (b <= a)%Q.
Proof.
  split.
  - intros H. apply Qnot_lt_le. intros Hlt. apply Qltb_lt in Hlt. congruence.
  - intros Hle. destruct (Qltb a b) eqn:E; [|reflexivity].
    apply Qltb_lt in E. exfalso. revert E. apply Qle_not_lt. exact Hle.
Qed.

(** *** Python indexing *)

Definition in_range {A} (l : list A) (i : Z) : Prop :=
  - Z.of_nat (length l) <= i < Z.of_nat (length l).

Definition position (n : nat) (i : Z) : nat :=
  if i <? 0 then Z.to_nat (i + Z.of_nat n) else Z.to_nat i.

Lemma py_index_in_range {A} (l : list A) i :
  is_Some (py_index l i) <-> in_range l i.
Proof.
  unfold py_index, in_range. cbv zeta.
  destruct (Z.ltb_spec i 0).
  - destruct (Z.ltb_spec (i + Z.of_nat (length l)) 0).
    + split; [intros [x Hx]; discriminate | lia].
    + rewrite lookup_lt_is_Some. lia.
  - rewrite lookup_lt_is_Some. lia.
Qed.

Lemma py_index_position {A} (l : list A) i x :
  py_index l i = Some x -> l !! position (length l) i = Some x.
Proof.
  unfold py_index, position. cbv zeta.
  destruct (i <? 0); [|auto].
  destruct (i + Z.of_nat (length l) <? 0); [discriminate | auto].
Qed.

Section WithLib.
Context {lib : PyLib}.

(** *** The selected candidate *)

Lemma max_from_spec (rest : list (Q * dict string)) : forall c,
  max_from c rest ∈ c :: rest
  /\ forall x, x ∈ c :: rest -> (x.1 <= (max_from c rest).1)%Q.
Proof.
  induction rest as [|y rest IH]; intros c; simpl.
  - split; [apply list_elem_of_here|].
    intros x Hx. apply list_elem_of_singleton in Hx. subst. apply Qle_refl.
  - destruct (Qltb c.1 y.1) eqn:Hlt.
    + destruct (IH y) as [Hin Hmax]. split.
      * apply list_elem_of_further. exact Hin.
      * intros x Hx. apply elem_of_cons in Hx as [->|Hx]; [|apply Hmax; exact Hx].
        apply Qltb_lt in Hlt. eapply Qle_trans; [apply Qlt_le_weak; exact Hlt|].
        apply Hmax, list_elem_of_here.
    + destruct (IH c) as [Hin Hmax]. split.
      * apply elem_of_cons in Hin as [Hin|Hin];
          [rewrite Hin; apply list_elem_of_here
          | do 2 apply list_elem_of_further; exact Hin].
      * intros x Hx. apply elem_of_cons in Hx as [->|Hx].
        { apply Hmax, list_elem_of_here. }
        apply elem_of_cons in Hx as [->|Hx].
        { apply Qltb_ge in Hlt. eapply Qle_trans; [exact Hlt|].
          apply Hmax, list_elem_of_here. }
        apply Hmax, list_elem_of_further. exact Hx.
Qed.

(** *** Scores *)

(** The table of [match_score] cannot be built: the key of line 60 is
    three characters long. *)
Lemma compact_table_raises : PyStr.maketrans compact_dict = None.
Proof. reflexivity. Qed.

Lemma match_score_raises s1 s2 : match_score s1 s2 = inl ValueError.
Proof. unfold match_score. rewrite compact_table_raises. reflexivity. Qed.

(** So [validate_fit_in] returns on a count of shreds that differs from
    the group's, and raises on any other object. *)
Lemma validate_fit_in_cases shreds_in trans d :
  validate_fit_in shreds_in trans d =
  if (length shreds_in =? length d)%nat then inl ValueError
  else inr (0%Q, length_reason (length shreds_in) (length d)).
Proof.
  unfold validate_fit_in. destruct (length shreds_in =? length d)%nat; [|reflexivity].
  cbn [negb]. destruct (int_keys d); [|reflexivity].
  cbv zeta. rewrite match_score_raises. reflexivity.
Qed.

Lemma validate_fit_in_range shreds_in trans d score err :
  validate_fit_in shreds_in trans d = inr (score, err) ->
  (0 <= score <= 1)%Q.
Proof.
  rewrite validate_fit_in_cases. destruct (_ =? _)%nat; [discriminate|].
  intros H. injection H as <- _. split; discriminate.
Qed.

(** The score 1.0 goes with the empty reason, and only with it. *)
Lemma validate_fit_in_err shreds_in trans d score err :
  validate_fit_in shreds_in trans d = inr (score, err) ->
  (err = ""%string <-> Qeq_bool score 1 = true).
Proof.
  rewrite validate_fit_in_cases. destruct (_ =? _)%nat; [discriminate|].
  intros H. injection H as <- <-. split; discriminate.
Qed.

(** A candidate of the list: a non-empty object that
    [validate_fit_in] gave this score. *)
Definition produced (shreds_in : dict string) (trans : string)
    (c : Q * dict string) : Prop :=
  c.2 <> [] /\ exists err, validate_fit_in shreds_in trans c.2 = inr (c.1, err).

Lemma attempt_spec shreds_in trans r cands :
  (exists d score err,
      r = Decoded (Some d) /\ d <> []
      /\ validate_fit_in shreds_in trans d = inr (score, err)
      /\ attempt shreds_in trans r cands
         = (String.eqb err "", cands ++ [(score, d)]))
  \/ ((forall d score err, r = Decoded (Some d) -> d <> [] ->
          validate_fit_in shreds_in trans d <> inr (score, err))
      /\ attempt shreds_in trans r cands = (false, cands)).
Proof.
  destruct r as [e|[d|]]; [right | | right]; try (split; [congruence | reflexivity]).
  destruct d as [|kv d]; [right; split; [congruence | reflexivity]|].
  destruct (validate_fit_in shreds_in trans (kv :: d)) as [e|[score err]] eqn:Hv.
  - right. split; [intros d' s' e' Hd _; injection Hd as <-; congruence|].
    simpl. rewrite Hv. reflexivity.
  - left. exists (kv :: d), score, err.
    split; [reflexivity|]. split; [discriminate|]. split; [exact Hv|].
    simpl. rewrite Hv. destruct (String.eqb err ""); reflexivity.
Qed.

(** The object an attempt keeps as a candidate: one that decodes, is not
    empty and has another count of shreds than the group. *)
Definition retained (shreds_in : dict string) (r : reply) : option (dict string) :=
  match r with
  | Decoded (Some (kv :: d)) =>
      if (length shreds_in =? length (kv :: d))%nat then None else Some (kv :: d)
  | _ => None
  end.

Definition scored_0 (o : option (dict string)) : list (Q * dict string) :=
  (fun d => (0%Q, d)) <$> option_list o.

(** No attempt reaches [break]: what it keeps has the score 0 and a
    reason. *)
Lemma attempt_retained shreds_in trans r cands :
  attempt shreds_in trans r cands
  = (false, cands ++ scored_0 (retained shreds_in r)).
Proof.
  unfold scored_0.
  destruct r as [e|[[|kv d]|]]; simpl; rewrite ?app_nil_r; try reflexivity.
  rewrite validate_fit_in_cases. cbn [length].
  destruct (_ =? _)%nat; simpl; rewrite ?app_nil_r; reflexivity.
Qed.

(** *** The retry loop *)

(** The temperature of the [n]-th request: 0.01 multiplied [n] times by
    1.6. *)
Definition temperature_at (n : nat) : Q :=
  Nat.iter n (fun q => q * (16 # 10))%Q (1 # 100).

Section Loop.
Variable chat : nat -> Q -> reply.
Variables (shreds_in : dict string) (trans : string).

Lemma restruct_loop_step retry temp cands :
  restruct_loop chat shreds_in trans retry temp cands =
  let r := attempt shreds_in trans (chat retry temp) cands in
  if r.1 then (r.2, S retry)
  else if lt_dec max_retry (S retry) then (r.2, S retry)
       else restruct_loop chat shreds_in trans (S retry) (temp * (16 # 10)) r.2.
Proof.
rewrite restruct_loop_unfold_eq. unfold restruct_loop_unfold. cbv zeta.
destruct (attempt shreds_in trans (chat retry temp) cands) as [[|] c]; simpl;
  [reflexivity|].
destruct (lt_dec max_retry (S retry)); reflexivity.
Qed.

(** What the [n]-th attempt adds to the candidates. *)
Definition added (n : nat) : list (Q * dict string) :=
  scored_0 (retained shreds_in (chat n (temperature_at n))).

(** The loop runs its [max_retry + 1] attempts, each adding what it
    retains. *)
Lemma restruct_loop_runs k : forall retry cands,
  (retry + S k = S max_retry)%nat ->
  restruct_loop chat shreds_in trans retry (temperature_at retry) cands
  = (cands ++ mjoin (added <$> seq retry (S k)), S max_retry).
Proof.
induction k as [|k IH]; intros retry cands Hk; rewrite restruct_loop_step;
  rewrite attempt_retained; cbv zeta; cbn [fst snd];
  destruct (lt_dec max_retry (S retry)) as [Hlt|Hge]; try lia.
- simpl. rewrite app_nil_r. f_equal. lia.
- change (temperature_at retry * (16 # 10))%Q with (temperature_at (S retry)).
  rewrite IH by lia. rewrite <- app_assoc. reflexivity.
Qed.

(** A property of the candidates that each attempt keeps holds of
    the list the loop ends with. *)
Lemma restruct_loop_inv (P : list (Q * dict string) -> Prop) :
  (forall r cands, P cands -> P (attempt shreds_in trans r cands).2) ->
  forall retry temp cands,
    P cands -> P (restruct_loop chat shreds_in trans retry temp cands).1.
Proof.
  intros Hstep retry temp cands.
  funelim (restruct_loop chat shreds_in trans retry temp cands);
    intros HP; pose proof (Hstep (chat retry temperature) _ HP) as H1;
    rewrite Heq in H1 || rewrite Heq0 in H1; simpl in H1.
  - exact H1.
  - exact H1.
  - apply H; assumption.
Qed.

(** The loop issues at least one request and at most
    [max_retry + 1]. *)
Lemma restruct_loop_calls retry temp cands :
  (retry <= max_retry)%nat ->
  (retry < (restruct_loop chat shreds_in trans retry temp cands).2
   <= S max_retry)%nat.
Proof.
  funelim (restruct_loop chat shreds_in trans retry temp cands);
    intros Hle; simpl; unfold max_retry in *; lia.
Qed.


Lemma restruct_loop_produced retry temp cands :
  Forall (produced shreds_in trans) cands ->
  Forall (produced shreds_in trans)
    (restruct_loop chat shreds_in trans retry temp cands).1.
Proof.
  apply restruct_loop_inv. clear. intros r cands Hc.
  destruct (attempt_spec shreds_in trans r cands)
    as [(d & score & err & _ & Hd & Hv & ->) | [_ ->]]; [|exact Hc].
  simpl. apply Forall_app. split; [exact Hc|].
  constructor; [|constructor]. split; [exact Hd | eauto].
Qed.
End Loop.

(** *** Replacing the contents *)

(** The group's entries address text leaves of the tree, and its three
    lists have one length. *)
Definition group_in_tree (g : InlineGroup) (t : Node) : Prop :=
  post_init g
  /\ forall j ele cid,
       elements g !! j = Some ele -> cids g !! j = Some cid ->
       text_at t (ele ++ [cid]).

(** [int(k)] succeeds and [group.cids[int(k)]] is in range, negative
    indices counting from the end. *)
Definition key_ok (g : InlineGroup) (k : string) : Prop :=
  exists i, int_of_str k = Some i
            /\ - Z.of_nat (group_len g) <= i < Z.of_nat (group_len g).

Lemma replace_contents_returns g d : forall t,
  group_in_tree g t ->
  (exists t', replace_contents g d t = inr t' /\ group_in_tree g t')
  <-> Forall (fun kv => key_ok g kv.1) d.
Proof.
  induction d as [|[k v] d IH]; intros t Hg; simpl.
  - split; [constructor | eauto].
  - destruct Hg as [[Hl1 Hl2] Hleaf].
    destruct (int_of_str k) as [i|] eqn:Hk.
    + destruct (py_index (cids g) i) as [cid|] eqn:Hc.
      * destruct (py_index (elements g) i) as [ele|] eqn:He.
        -- pose proof (py_index_position _ _ _ Hc) as Hc'.
           pose proof (py_index_position _ _ _ He) as He'.
           rewrite <- Hl2 in He'.
           pose proof (Hleaf _ _ _ He' Hc') as Hat.
           assert (Hin : key_ok g k).
           { exists i. split; [exact Hk|]. unfold group_len. rewrite Hl1.
             apply py_index_in_range. eauto. }
           destruct (Tree.replace_with ele cid v t) as [t1|] eqn:Hr.
           ++ assert (Hg1 : group_in_tree g t1).
              { split; [split; assumption|]. intros j e c Hje Hjc.
                apply (replace_with_text_at _ _ _ _ _ Hr Hat). eauto. }
              rewrite (IH t1 Hg1). split.
              ** intros H. constructor; assumption.
              ** intros H. inversion H; assumption.
           ++ exfalso. destruct Hat as [s Hs].
              assert (Hsome : is_Some (Tree.replace_with ele cid v t))
                by (apply replace_with_is_Some; eauto).
              rewrite Hr in Hsome. destruct Hsome; discriminate.
        -- split; [intros (t' & Ht & _); discriminate|].
           intros H. inversion H as [|? ? (i' & Hi' & Hrange) _]; subst.
           simpl in Hi'. rewrite Hk in Hi'. injection Hi' as <-.
           assert (Hs : is_Some (py_index (elements g) i)).
           { apply py_index_in_range. unfold in_range, group_len in *.
             rewrite <- Hl2, <- Hl1. exact Hrange. }
           rewrite He in Hs. destruct Hs; discriminate.
      * split; [intros (t' & Ht & _); destruct (py_index (elements g) i); discriminate|].
        intros H. inversion H as [|? ? (i' & Hi' & Hrange) _]; subst.
        simpl in Hi'. rewrite Hk in Hi'. injection Hi' as <-.
        assert (Hs : is_Some (py_index (cids g) i)).
        { apply py_index_in_range. unfold in_range, group_len in *.
          rewrite <- Hl1. exact Hrange. }
        rewrite Hc in Hs. destruct Hs; discriminate.
    + split; [intros (t' & Ht & _); discriminate|].
      intros H. inversion H as [|? ? (i' & Hi' & _) _]; subst.
      simpl in Hi'. congruence.
Qed.

(** The string each entry of the group ends with: the value of the
    last pair of the candidate whose key selects the entry. *)
Fixpoint assigned (n : nat) (d : dict string) (j : nat) : option string :=
  match d with
  | [] => None
  | (k, v) :: r =>
      match assigned n r j with
      | Some v' => Some v'
      | None =>
          match int_of_str k with
          | Some i => if (position n i =? j)%nat then Some v else None
          | None => None
          end
      end
  end.

Lemma handle_path_inj (e1 e2 : path) (c1 c2 : nat) :
  e1 ++ [c1] = e2 ++ [c2] -> (e1, c1) = (e2, c2).
Proof. intros H. apply app_inj_tail in H as [-> ->]. reflexivity. Qed.

Lemma NoDup_zip_lookup {A B} (l1 : list A) (l2 : list B) i j a b :
  NoDup (zip l1 l2) ->
  l1 !! i = Some a -> l2 !! i = Some b ->
  l1 !! j = Some a -> l2 !! j = Some b -> i = j.
Proof.
  intros Hnd H1 H2 H3 H4.
  eapply NoDup_lookup; [exact Hnd | |].
  - apply lookup_zip_with_Some. eauto.
  - apply lookup_zip_with_Some. eauto.
Qed.

(** After the loop, each entry of the group reads the string assigned
    to it, or what it read before when no key selects it. *)
Lemma replace_contents_assigned g d : forall t t',
  group_in_tree g t ->
  NoDup (zip (elements g) (cids g)) ->
  replace_contents g d t = inr t' ->
  forall j ele cid,
    elements g !! j = Some ele -> cids g !! j = Some cid ->
    Tree.get (ele ++ [cid]) t' =
    match assigned (group_len g) d j with
    | Some v => Some (NavigableString v)
    | None => Tree.get (ele ++ [cid]) t
    end.
Proof.
  induction d as [|[k v] d IH]; intros t t' Hg Hnd Hrun j ele cid Hje Hjc; simpl in *.
  - injection Hrun as <-. reflexivity.
  - destruct (int_of_str k) as [i|] eqn:Hk; [|discriminate].
    destruct (py_index (cids g) i) as [cid0|] eqn:Hc; [|discriminate].
    destruct (py_index (elements g) i) as [ele0|] eqn:He; [|discriminate].
    destruct (Tree.replace_with ele0 cid0 v t) as [t1|] eqn:Hr; [|discriminate].
    destruct Hg as [[Hl1 Hl2] Hleaf].
    pose proof (py_index_position _ _ _ Hc) as Hc'.
    pose proof (py_index_position _ _ _ He) as He'.
    rewrite <- Hl2 in He'.
    pose proof (Hleaf _ _ _ He' Hc') as Hat.
    assert (Hg1 : group_in_tree g t1).
    { split; [split; assumption|]. intros j' e c Hj'e Hj'c.
      apply (replace_with_text_at _ _ _ _ _ Hr Hat). eauto. }
    rewrite (IH t1 t' Hg1 Hnd Hrun j ele cid Hje Hjc).
    destruct (assigned (group_len g) d j); [reflexivity|].
    unfold group_len. rewrite Hl1.
    destruct (Nat.eqb_spec (position (length (cids g)) i) j) as [Heq|Hne].
    + subst j. unfold path in *.
      assert (ele = ele0) by congruence. assert (cid = cid0) by congruence.
      subst ele cid. eapply replace_with_get_same. exact Hr.
    + eapply replace_with_frame; [exact Hr | exact Hat | eauto |].
      intros Heq. apply handle_path_inj in Heq. injection Heq as -> ->.
      apply Hne. eapply NoDup_zip_lookup; eauto.
Qed.

(** A text leaf outside the group reads the same after the loop. *)
Lemma replace_contents_frame g d : forall t t',
  group_in_tree g t ->
  replace_contents g d t = inr t' ->
  forall p, text_at t p ->
    (forall j ele cid, elements g !! j = Some ele -> cids g !! j = Some cid ->
                       p <> ele ++ [cid]) ->
    Tree.get p t' = Tree.get p t.
Proof.
  induction d as [|[k v] d IH]; intros t t' Hg Hrun p Hp Hout; simpl in *.
  - injection Hrun as <-. reflexivity.
  - destruct (int_of_str k) as [i|] eqn:Hk; [|discriminate].
    destruct (py_index (cids g) i) as [cid0|] eqn:Hc; [|discriminate].
    destruct (py_index (elements g) i) as [ele0|] eqn:He; [|discriminate].
    destruct (Tree.replace_with ele0 cid0 v t) as [t1|] eqn:Hr; [|discriminate].
    destruct Hg as [[Hl1 Hl2] Hleaf].
    pose proof (py_index_position _ _ _ Hc) as Hc'.
    pose proof (py_index_position _ _ _ He) as He'.
    rewrite <- Hl2 in He'.
    pose proof (Hleaf _ _ _ He' Hc') as Hat.
    assert (Hg1 : group_in_tree g t1).
    { split; [split; assumption|]. intros j' e c Hj'e Hj'c.
      apply (replace_with_text_at _ _ _ _ _ Hr Hat). eauto. }
    rewrite (IH t1 t' Hg1 Hrun p); [| |exact Hout].
    + eapply replace_with_frame; eauto.
    + apply (replace_with_text_at _ _ _ _ _ Hr Hat). exact Hp.
Qed.

(** *** [restruct], unfolded *)

Definition shreds_of (group : InlineGroup) : dict string :=
  imap (fun i shred => (PyStr.str_of_nat i, shred)) (text_shreds group).

(** The candidates [restruct] ends its loop with, and the number of
    requests it issued. *)
Definition candidates (chat : nat -> Q -> reply) (group : InlineGroup)
    (trans : string) : list (Q * dict string) :=
  (restruct_loop chat (shreds_of group) trans 0 (1 # 100) []).1.

Definition requests (chat : nat -> Q -> reply) (group : InlineGroup)
    (trans : string) : nat :=
  (restruct_loop chat (shreds_of group) trans 0 (1 # 100) []).2.

Lemma restruct_unfold chat group ori trans w :
  restruct chat group ori trans w =
  match candidates chat group trans with
  | [] => Returns Fail (mkWorld (soup w) (calls w + requests chat group trans))
  | c :: rest =>
      match replace_contents group (max_from c rest).2 (soup w) with
      | inl (e, t) => Raised e (mkWorld t (calls w + requests chat group trans))
      | inr t =>
          Returns (if Qltb (max_from c rest).1 1 then Compromise else Success)
            (mkWorld t (calls w + requests chat group trans))
      end
  end.
Proof.
  unfold restruct, candidates, requests, shreds_of.
  destruct (restruct_loop _ _ _ _ _ _) as [cands n]. simpl.
  destruct cands as [|c rest]; [reflexivity|].
  destruct (max_from c rest) as [score d]. reflexivity.
Qed.

Lemma candidates_produced chat group trans :
  Forall (produced (shreds_of group) trans) (candidates chat group trans).
Proof. apply restruct_loop_produced. constructor. Qed.

Lemma requests_bounds chat group trans :
  (1 <= requests chat group trans <= S max_retry)%nat.
Proof.
  pose proof (restruct_loop_calls chat (shreds_of group) trans 0 (1 # 100) []) as H.
  unfold requests. unfold max_retry in *. lia.
Qed.

(** [restruct] issues its [max_retry + 1] requests whatever the replies,
    and its candidates are what the attempts retained, in their order. *)
Lemma restruct_runs chat group trans :
  candidates chat group trans
  = mjoin (added chat (shreds_of group) <$> seq 0 (S max_retry))
  /\ requests chat group trans = S max_retry.
Proof.
  unfold candidates, requests. change (1 # 100) with (temperature_at 0).
  rewrite (restruct_loop_runs chat (shreds_of group) trans max_retry 0 []) by lia.
  split; reflexivity.
Qed.

Lemma candidates_score_0 chat group trans c :
  c ∈ candidates chat group trans ->
  c.1 = 0%Q /\ c.2 <> [] /\ length c.2 <> group_len group.
Proof.
  rewrite (proj1 (restruct_runs chat group trans)).
  intros Hin. apply list_elem_of_join in Hin as (l & Hc & Hl).
  apply list_elem_of_fmap in Hl as (n & -> & _).
  unfold added, scored_0, retained in Hc.
  destruct (chat n (temperature_at n)) as [e|[[|kv d']|]];
    try (apply elem_of_nil in Hc; contradiction).
  destruct (Nat.eqb_spec (length (shreds_of group)) (length (kv :: d'))) as [Heq|Hne];
    [apply elem_of_nil in Hc; contradiction|].
  apply list_elem_of_singleton in Hc. subst c.
  split; [reflexivity|]. split; [discriminate|].
  unfold shreds_of in Hne. rewrite length_imap in Hne.
  cbn [snd]. unfold group_len. intros Heq. apply Hne. symmetry. exact Heq.
Qed.

(** [group_fit_in] raises at its first line. *)
Lemma group_fit_in_raises chat group ori trans w :
  group_fit_in chat group ori trans w = Raised ValueError w.
Proof. unfold group_fit_in. rewrite match_score_raises. reflexivity. Qed.

(** With scores in [[0, 1]], "not below 1.0" is "equal to 1.0". *)
Lemma status_of_score score :
  (score <= 1)%Q ->
  (if Qltb score 1 then Compromise else Success)
  = (if Qeq_bool score 1 then Success else Compromise).
Proof.
  intros Hle. destruct (Qltb score 1) eqn:Hlt.
  - apply Qltb_lt in Hlt. destruct (Qeq_bool score 1) eqn:Heq; [|reflexivity].
    apply Qeq_bool_iff in Heq. rewrite Heq in Hlt.
    exfalso. revert Hlt. apply Qlt_irrefl.
  - apply Qltb_ge in Hlt. destruct (Qeq_bool score 1) eqn:Heq; [reflexivity|].
    exfalso. apply Qeq_bool_neq in Heq. apply Heq.
    apply Qle_antisym; assumption.
Qed.

End WithLib.
End FitFacts.

(** ** The groups of the extractor are what the reconstructor expects *)

Module ExtractedGroups.
Import Extract ExtractFacts TreeFacts FitFacts.

Lemma NoDup_join_elem {A} (ls : list (list A)) (l : list A) :
  NoDup (mjoin ls) -> l ∈ ls -> NoDup l.
Proof.
induction ls as [|x ls IH]; intros Hnd Hin; [inversion Hin|].
simpl in Hnd. apply NoDup_app in Hnd as (Hx & _ & Hls).
apply elem_of_cons in Hin as [->|Hin]; [exact Hx | apply IH; assumption].
Qed.

Lemma post_init_to_group g : post_init (to_group g).
Proof. unfold post_init, to_group. simpl. rewrite !length_map. auto. Qed.

Lemma get_text_group_inline_to_group element kv :
  kv ∈ get_text_group_inline element -> exists g, kv.2 = to_group g.
Proof.
unfold get_text_group_inline. destruct (traversal [] element (mkT 0 [])) as [o st].
intros Hin. apply list_elem_of_lookup_1 in Hin as [i Hi].
rewrite list_lookup_imap in Hi.
destruct (sort_groups (all_groups st) !! i) as [g|]; [|discriminate].
injection Hi as <-. exists g. reflexivity.
Qed.

(** Every group extracted from a block-level root passes the assertion of
    [__post_init__], and its entries address text leaves of the tree, no
    two of them the same leaf. *)
Lemma extracted_group_in_tree name contents kv :
  is_inline_ele name = false ->
  kv ∈ get_text_group_inline (Tag name contents) ->
  group_in_tree kv.2 (Tag name contents)
  /\ NoDup (zip (elements kv.2) (cids kv.2)).
Proof.
intros Hblock Hin.
destruct (grouped_handles_sound name contents Hblock)
  as (Hnd & Hleaf).
pose proof Hin as Hin'. apply list_elem_of_lookup_1 in Hin' as [i Hi].
destruct (get_text_group_inline_to_group _ _ Hin) as [g Hg].
split; [split|].
- rewrite Hg. apply post_init_to_group.
- intros j ele cid He Hc.
  assert (Hz : (ele, cid) ∈ group_handles kv.2).
  { eapply list_elem_of_lookup_2. apply lookup_zip_with_Some. eauto. }
  destruct (Hleaf i ele cid) as [[s [Hs _]] _]; [exists kv; auto | eauto].
  exists s. exact Hs.
- apply (NoDup_join_elem _ _ Hnd).
  apply list_elem_of_fmap. exists kv. split; [reflexivity | exact Hin].
Qed.

End ExtractedGroups.

(** ** The fit-back reconstructor, claim by claim *)

Module FitTheorems.
Import Fit TreeFacts FitFacts.

Section WithLib.
Context {lib : PyLib}.

Lemma length_shreds_of group : length (shreds_of group) = group_len group.
Proof. unfold shreds_of, group_len. apply length_imap. Qed.

Lemma best_score_le_1 chat group trans c rest :
  candidates chat group trans = c :: rest ->
  ((max_from c rest).1 <= 1)%Q.
Proof.
  intros Hc. pose proof (candidates_produced chat group trans) as Hp.
  rewrite Hc in Hp. rewrite Forall_forall in Hp.
  destruct (max_from_spec rest c) as [Hin _].
  destruct (Hp _ Hin) as [_ [err Hv]].
  apply validate_fit_in_range in Hv. apply Hv.
Qed.

(** C4 (amended): [restruct] selects a candidate of the highest score
    among those its attempts accumulated.  When every key of that
    candidate selects an entry of the group, each entry of the group
    reads the string assigned to it afterwards and the status is
    [Success] exactly when the score is 1.0, [Compromise] otherwise.
    Without any candidate the status is [Fail] and the tree is the one
    it was. *)
Theorem restruct_applies_best_candidate
    (chat : nat -> Q -> reply) (group : InlineGroup) (ori trans : string)
    (w : world) :
  group_in_tree group (soup w) ->
  NoDup (zip (elements group) (cids group)) ->
  let cands := candidates chat group trans in
  let after t := mkWorld t (calls w + requests chat group trans) in
  (cands = [] ->
   restruct chat group ori trans w = Returns Fail (after (soup w)))
  /\ (forall c rest, cands = c :: rest ->
        let best := max_from c rest in
        best ∈ cands
        /\ (forall x, x ∈ cands -> (x.1 <= best.1)%Q)
        /\ (Forall (fun kv => key_ok group kv.1) best.2 ->
            exists t',
              restruct chat group ori trans w
              = Returns (if Qeq_bool best.1 1 then Success else Compromise)
                  (after t')
              /\ forall j ele cid,
                   elements group !! j = Some ele ->
                   cids group !! j = Some cid ->
                   Tree.get (ele ++ [cid]) t' =
                   match assigned (group_len group) best.2 j with
                   | Some v => Some (NavigableString v)
                   | None => Tree.get (ele ++ [cid]) (soup w)
                   end)).
Proof.
  intros Hg Hnd cands after. split.
  - intros Hc. rewrite restruct_unfold. fold cands. rewrite Hc. reflexivity.
  - intros c rest Hc best. subst cands.
    destruct (max_from_spec rest c) as [Hin Hmax]. rewrite Hc.
    split; [exact Hin|]. split; [exact Hmax|].
    intros Hkeys.
    apply (replace_contents_returns group best.2 (soup w) Hg) in Hkeys
      as (t' & Hrun & _).
    exists t'. split.
    + rewrite restruct_unfold, Hc. fold best. rewrite Hrun.
      rewrite status_of_score by (eapply best_score_le_1; exact Hc).
      reflexivity.
    + intros j ele cid Hje Hjc.
      eapply replace_contents_assigned; eauto.
Qed.




Lemma replace_contents_inr_in_tree group d : forall t t',
  group_in_tree group t ->
  replace_contents group d t = inr t' ->
  group_in_tree group t'.
Proof.
  induction d as [|[k v] d IH]; intros t t' Hg Hrun; simpl in Hrun.
  - injection Hrun as <-. exact Hg.
  - destruct (int_of_str k) as [i|] eqn:Hi; [|discriminate].
    destruct (py_index (cids group) i) as [cid|] eqn:Hci; [|discriminate].
    destruct (py_index (elements group) i) as [ele|] eqn:Hei; [|discriminate].
    destruct (Tree.replace_with ele cid v t) as [t1|] eqn:Hr; [|discriminate].
    apply (IH t1 t'); [|exact Hrun].
    destruct Hg as [[Hl1 Hl2] Hleaf].
    split; [split; assumption|]. intros j e c0 Hje Hjc.
    pose proof (py_index_position _ _ _ Hci) as Hc'.
    pose proof (py_index_position _ _ _ Hei) as He'.
    rewrite <- Hl2 in He'.
    apply (replace_with_text_at _ _ _ _ _ Hr (Hleaf _ _ _ He' Hc')).
    eauto.
Qed.

(** C10 (amended): an attempt that decodes to a non-empty object is
    kept as a candidate whenever [validate_fit_in] returns, whatever
    the score, and with score 0 when the number of shreds differs from
    the group's.  The loop that applies the selected candidate checks
    nothing: for a group whose entries address text leaves, [restruct]
    returns a status exactly when every key of the selected candidate
    is accepted by [int] with a value in [[-len(group), len(group))],
    and raises otherwise. *)
Theorem restruct_returns_iff_keys_index_group
    (chat : nat -> Q -> reply) (group : InlineGroup) (ori trans : string)
    (w : world) :
  group_in_tree group (soup w) ->
  (forall d score err cands,
      d <> [] ->
      validate_fit_in (shreds_of group) trans d = inr (score, err) ->
      (attempt (shreds_of group) trans (Decoded (Some d)) cands).2
      = cands ++ [(score, d)])
  /\ (forall d cands,
        d <> [] -> length d <> group_len group ->
        attempt (shreds_of group) trans (Decoded (Some d)) cands
        = (false, cands ++ [(0%Q, d)]))
  /\ (forall c rest,
        candidates chat group trans = c :: rest ->
        ((exists s w', restruct chat group ori trans w = Returns s w')
         <-> Forall (fun kv => key_ok group kv.1) (max_from c rest).2)).
Proof.
  intros Hg. split; [|split].
  - intros d score err cands Hd Hv.
    destruct d as [|kv d]; [contradiction|]. simpl. rewrite Hv.
    destruct (negb (String.eqb err "")); reflexivity.
  - intros d cands Hd Hlen.
    destruct d as [|kv d]; [contradiction|]. simpl.
    unfold validate_fit_in. rewrite length_shreds_of.
    destruct (Nat.eqb_spec (group_len group) (length (kv :: d))) as [Heq|_];
      [rewrite Heq in Hlen; contradiction|].
    reflexivity.
  - intros c rest Hc. rewrite restruct_unfold, Hc.
    rewrite <- (replace_contents_returns group _ (soup w) Hg).
    destruct (replace_contents group (max_from c rest).2 (soup w)) as [[e t]|t] eqn:Hrun.
    + split; [intros (s & w' & H); discriminate | intros (t' & H & _); discriminate].
    + split; [|eauto].
      intros _. exists t. split; [reflexivity|].
      eapply replace_contents_inr_in_tree; eauto.
Qed.

End WithLib.
End FitTheorems.

Module FitWitnesses.
Import Fit TreeFacts FitFacts FitTheorems FitExamples.
Open Scope string_scope.

Definition settings_world : world := mkWorld settings_page 0.
Definition hello_world : world := mkWorld hello_page 0.

Lemma settings_group_in_tree : group_in_tree settings_group settings_page.
Proof.
  split; [split; reflexivity|].
  intros [|j] ele cid He Hc; simpl in *; [|discriminate].
  injection He as <-. injection Hc as <-. eexists. reflexivity.
Defined.

Lemma hello_group_in_tree : group_in_tree hello_group hello_page.
Proof.
  split; [split; reflexivity|].
  intros [|[|j]] ele cid He Hc; simpl in *; try discriminate;
    injection He as <-; injection Hc as <-; eexists; reflexivity.
Defined.

Lemma hello_group_handles_NoDup :
  NoDup (zip (elements hello_group) (cids hello_group)).
Proof.
  simpl. apply NoDup_cons. split.
  - intros H. apply list_elem_of_singleton in H. discriminate.
  - apply NoDup_singleton.
Defined.

(** The service splits the translation as asked, at every request. *)
Definition splits_well : nat -> Q -> reply :=
  fun _ _ => Decoded (Some [("0", "Hola "); ("1", "mundo")]).

(** Every such answer is lost in [validate_fit_in], which raises from
    [match_score]: no candidate is kept and the status is [Fail]. *)
Example hello_restruct :
  restruct splits_well hello_group "Hello world" "Hola mundo" hello_world
  = Returns Fail (mkWorld hello_page 11).
Proof. vm_compute. reflexivity. Qed.

(** The service puts the whole translation under the first key. *)
Definition one_shred : nat -> Q -> reply :=
  fun _ _ => Decoded (Some [("0", "Hola mundo")]).

Lemma restruct_applies_best_candidate_witness :
  group_in_tree hello_group (soup hello_world)
  /\ NoDup (zip (elements hello_group) (cids hello_group))
  /\ exists t',
       restruct one_shred hello_group "Hello world" "Hola mundo" hello_world
       = Returns Compromise (mkWorld t' 11)
       /\ Tree.get [0; 0]%nat t' = Some (NavigableString "Hola mundo")
       /\ Tree.get [0; 1; 0]%nat t' = Some (NavigableString "world").
Proof.
  split; [exact hello_group_in_tree|]. split; [exact hello_group_handles_NoDup|].
  destruct (restruct_applies_best_candidate one_shred hello_group
              "Hello world" "Hola mundo" hello_world
              hello_group_in_tree hello_group_handles_NoDup) as [_ H].
  destruct (H (0%Q, [("0", "Hola mundo")])
              (replicate 10 (0%Q, [("0", "Hola mundo")])) eq_refl) as (_ & _ & Happ).
  destruct Happ as (t' & Hrun & Hleaves).
  - simpl. constructor; [|constructor].
    eexists; (split; [reflexivity | vm_compute; split; [discriminate | reflexivity]]).
  - exists t'. split; [exact Hrun|]. split.
    + exact (Hleaves 0%nat [0%nat] 0%nat eq_refl eq_refl).
    + exact (Hleaves 1%nat [0; 1]%nat 0%nat eq_refl eq_refl).
Defined.

(** C4 as stated fails: a candidate with one shred too many, the second
    under the key ["5"], is kept with the score 0 and selected; its first
    shred is written and [group.cids[5]] raises, after the eleven
    requests of the loop.  No status is returned. *)
Definition stray_key : nat -> Q -> reply :=
  fun _ _ => Decoded (Some [("0", "Hola "); ("5", "mundo"); ("1", "!")]).

Lemma best_candidate_with_stray_key_raises :
  candidates stray_key hello_group "Hola mundo"
  = replicate 11 (0%Q, [("0", "Hola "); ("5", "mundo"); ("1", "!")])
  /\ restruct stray_key hello_group "Hello world" "Hola mundo" hello_world
     = Raised IndexError
         (mkWorld (Tag "[document]"
                     [Tag "p" [NavigableString "Hola ";
                               Tag "b" [NavigableString "world"]]]) 11).
Proof. split; vm_compute; reflexivity. Qed.

(** C5: [group_fit_in] reaches neither of its direct cases.  On the
    example of the specification, the one-shred group "Settings" with
    the translation "Einstellungen", it raises [ValueError] and the leaf
    reads "Settings" as before; on a translation equal to the group's
    text it raises as well; and so it does on every group and every
    translation: [match_score] raises while it builds its table, before
    it reads its arguments. *)
Theorem group_fit_in_raises_before_its_cases :
  group_fit_in silent settings_group "Settings" "Einstellungen" settings_world
  = Raised ValueError settings_world
  /\ group_fit_in silent settings_group "Settings" "Settings" settings_world
     = Raised ValueError settings_world
  /\ forall (lib : PyLib) chat group ori trans w,
       group_fit_in chat group ori trans w = Raised ValueError w.
Proof.
  split; [apply group_fit_in_raises|]. split; [apply group_fit_in_raises|].
  intros lib chat group ori trans w. apply group_fit_in_raises.
Qed.

(** C9 as stated fails: when every attempt yields a candidate that does
    not match the translation, here one shred for a group of two, the
    first of them is applied and the status is [Compromise], after the
    eleven requests of the retry ceiling. *)
Definition never_matches : nat -> Q -> reply :=
  fun _ _ => Decoded (Some [("0", "Hallo")]).



(** C10 as stated fails: the key ["-1"] is not an integer of
    [[0, len(group))], and [restruct] returns a status all the same:
    [group.cids[-1]] is the last entry of the group.  And an object that
    decodes but whose keys [int] rejects is not kept when its length is
    the group's. *)
Definition from_the_end : nat -> Q -> reply :=
  fun _ _ => Decoded (Some [("-1", "mundo")]).

Lemma negative_key_returns_a_status :
  int_of_str "-1" = Some (-1)
  /\ candidates from_the_end hello_group "Hola mundo"
     = replicate 11 (0%Q, [("-1", "mundo")])
  /\ restruct from_the_end hello_group "Hello world" "Hola mundo" hello_world
     = Returns Compromise
         (mkWorld (Tag "[document]"
                     [Tag "p" [NavigableString "Hello ";
                               Tag "b" [NavigableString "mundo"]]]) 11)
  /\ attempt (shreds_of hello_group) "Hola mundo"
       (Decoded (Some [("a", "Hola "); ("b", "mundo")])) []
     = (false, []).
Proof. repeat split; vm_compute; reflexivity. Qed.

Lemma restruct_returns_iff_keys_index_group_witness :
  group_in_tree hello_group (soup hello_world)
  /\ ((exists s w', restruct from_the_end hello_group "Hello world" "Hola mundo"
                      hello_world = Returns s w')
      <-> Forall (fun kv => key_ok hello_group kv.1) [("-1", "mundo")]).
Proof.
  split; [exact hello_group_in_tree|].
  destruct (restruct_returns_iff_keys_index_group from_the_end hello_group
              "Hello world" "Hola mundo" hello_world hello_group_in_tree)
    as (_ & _ & H).
  exact (H (0%Q, [("-1", "mundo")]) (replicate 10 (0%Q, [("-1", "mundo")])) eq_refl).
Defined.

End FitWitnesses.

(** ** Translation orchestrator *)

(** What the one streamed request of [translate_groups] comes to.
    [PDone length d]: the stream ended, with stop reason ['length'] or
    another, and [as_json_obj] gives [d] of its text.  [PRaises e d]: the
    call raised [e], and [as_json_obj] gives [d] of the text received
    before. *)
Inductive primary : Type :=
| PDone (stop_length : bool) (o : option (dict string))
| PRaises (e : exn) (partial : option (dict string)).

(** An entry of the list [asyncio.gather] returns under
    [return_exceptions=True]: the status a task returned or the exception
    it raised. *)
Inductive result : Type :=
| Status (s : FitStatus)
| Exc (e : exn).

Module Orchestrate.
Section WithLib.
Context {lib : PyLib}.

(** The [try] around the request: a [RuntimeError], the one of the
    ['length'] stop reason included, is passed over; any other exception
    leaves [translate_groups]. *)
Definition response_of (p : primary) : exn + option (dict string) :=
  match p with
  | PDone _ o => inr o
  | PRaises RuntimeError partial => inr partial
  | PRaises e _ => inl e
  end.

(** A fit-in task still to run: the group, [groups_in[i]] and the
    translation. *)
Record task : Type := mkTask {
  t_key : string;
  t_group : InlineGroup;
  t_ori : string;
  t_trans : string
}.

(** The loop that builds [fit_in_tasks]; [None] is the [KeyError] of
    [groups_map[i]]. *)
Fixpoint fit_in_tasks (groups_map : dict InlineGroup) (groups_out : dict string)
  : option (list task) :=
  match groups_out with
  | [] => Some []
  | (i, trans) :: rest =>
      match dict_get i groups_map, fit_in_tasks groups_map rest with
      | Some group, Some ts =>
          Some (mkTask i group (PyStr.strip_newlines (group_str group)) trans :: ts)
      | _, _ => None
      end
  end.

Definition result_of (o : outcome FitStatus) : result :=
  match o with
  | Returns s _ => Status s
  | Raised e _ => Exc e
  end.

Definition world_of {A} (o : outcome A) : world :=
  match o with
  | Returns _ w => w
  | Raised _ w => w
  end.

(** [asyncio.gather] over [fit_in_tasks], with [return_exceptions=True].
    The tasks act on the leaves of their own groups; the model runs them
    one after the other, in the order of the list.  [chat k] is the
    service as the task of key [k] meets it. *)
Fixpoint gather (chat : string -> nat -> Q -> reply) (ts : list task) (w : world)
  : list result * world :=
  match ts with
  | [] => ([], w)
  | t :: rest =>
      let o := Fit.group_fit_in (chat (t_key t)) (t_group t) (t_ori t) (t_trans t) w in
      let '(rs, w') := gather chat rest (world_of o) in
      (result_of o :: rs, w')
  end.

(** [translate_groups(groups_map)]. *)
Definition translate_groups (p : primary) (chat : string -> nat -> Q -> reply)
    (groups_map : dict InlineGroup) (w : world) : outcome (list result) :=
  let w := mkWorld (soup w) (S (calls w)) in
  match response_of p with
  | inl e => Raised e w
  | inr None => Raised AttributeError w
  | inr (Some groups_out) =>
      match fit_in_tasks groups_map groups_out with
      | None => Raised KeyError w
      | Some ts =>
          let '(results, w') := gather chat ts w in
          Returns results w'
      end
  end.

(** [asyncio.gather] over the tasks of the segments, without
    [return_exceptions]: the model runs the segment tasks one after the
    other, and the first exception one of them raises is propagated at
    once.  The tasks of the later segments, which [asyncio.run] cancels
    when the pipeline has raised, are left out. *)
Fixpoint gather_segments (p : nat -> primary)
    (chat : nat -> string -> nat -> Q -> reply) (n : nat)
    (segs : list (dict InlineGroup)) (w : world) : outcome (list (list result)) :=
  match segs with
  | [] => Returns [] w
  | seg :: rest =>
      match translate_groups (p n) (chat n) seg w with
      | Returns rs w1 =>
          match gather_segments p chat (S n) rest w1 with
          | Returns rss w2 => Returns (rs :: rss) w2
          | Raised e w2 => Raised e w2
          end
      | Raised e w1 => Raised e w1
      end
  end.

(** [translation_pipeline(soup)].  [n_input_token] is
    [int(conf.N_INPUT_TOKEN)] and [token_counter] the tokenizer's count;
    [p n] and [chat n] are the service as the [n]-th segment meets it. *)
Definition translation_pipeline (token_counter : string -> nat) (n_input_token : Z)
    (p : nat -> primary) (chat : nat -> string -> nat -> Q -> reply)
    (w : world) : outcome (list result) :=
  let groups_map := Extract.get_text_group_inline (soup w) in
  match Segment.segment_groups_map token_counter groups_map n_input_token with
  | inl e => Raised e w
  | inr groups_map_segments =>
      match gather_segments p chat 0 groups_map_segments w with
      | Returns results w' => Returns (mjoin results) w'
      | Raised e w' => Raised e w'
      end
  end.

End WithLib.
End Orchestrate.

Module OrchestrateFacts.
Import Orchestrate.

Section WithLib.
Context {lib : PyLib}.

(** Every key of the response is a key of the segment. *)
Definition answers_within (groups_map : dict InlineGroup) (groups_out : dict string)
  : Prop :=
  Forall (fun kv => is_Some (dict_get kv.1 groups_map)) groups_out.

Lemma fit_in_tasks_spec groups_map groups_out :
  answers_within groups_map groups_out ->
  exists ts,
    fit_in_tasks groups_map groups_out = Some ts
    /\ length ts = length groups_out
    /\ forall i k trans,
         groups_out !! i = Some (k, trans) ->
         exists g,
           dict_get k groups_map = Some g
           /\ ts !! i = Some (mkTask k g (PyStr.strip_newlines (group_str g)) trans).
Proof.
induction 1 as [|[k trans] d [g Hg] _ (ts & Hts & Hlen & Hi)]; simpl.
- exists []. split; [reflexivity|]. split; [reflexivity|].
  intros i k trans H. destruct i; discriminate.
- simpl in Hg. rewrite Hg, Hts. eexists. split; [reflexivity|].
  split; [simpl; rewrite Hlen; reflexivity|].
  intros [|i] k' trans' H; simpl in *.
  + injection H as <- <-. eauto.
  + apply Hi. exact H.
Qed.

Lemma fit_in_tasks_KeyError groups_map groups_out :
  ~ answers_within groups_map groups_out ->
  fit_in_tasks groups_map groups_out = None.
Proof.
induction groups_out as [|[k trans] d IH]; intros Hn; simpl.
- exfalso. apply Hn. constructor.
- destruct (dict_get k groups_map) as [g|] eqn:Hg; [|reflexivity].
  rewrite IH; [reflexivity|].
  intros Hd. apply Hn. constructor; [simpl; rewrite Hg; eauto | exact Hd].
Qed.

(** The result a fit-in task comes to when it is run on [w]. *)
Definition task_result (chat : string -> nat -> Q -> reply) (w : world) (t : task)
  : result :=
  result_of (Fit.group_fit_in (chat (t_key t)) (t_group t) (t_ori t) (t_trans t) w).

(** [t] is the task of the pair [kv] of the response: for the group of
    the segment that the key names, with that group's text and the
    translation of the pair. *)
Definition task_for (seg : dict InlineGroup) (kv : string * string) (t : task) : Prop :=
  t_key t = kv.1 /\ t_trans t = kv.2
  /\ dict_get kv.1 seg = Some (t_group t)
  /\ t_ori t = PyStr.strip_newlines (group_str (t_group t)).

Lemma fit_in_tasks_for groups_map groups_out :
  answers_within groups_map groups_out ->
  exists ts,
    fit_in_tasks groups_map groups_out = Some ts
    /\ Forall2 (task_for groups_map) groups_out ts.
Proof.
induction 1 as [|[k trans] d [g Hg] _ (ts & Hts & Hfor)]; simpl.
- exists []. split; [reflexivity | constructor].
- simpl in Hg. rewrite Hg, Hts. eexists. split; [reflexivity|].
  constructor; [|exact Hfor]. repeat split. exact Hg.
Qed.

(** No task of the gather writes the tree or issues a request: each
    result is the one of its task run on the state the gather started
    from. *)
Lemma gather_results chat ts w :
  gather chat ts w = (task_result chat w <$> ts, w).
Proof.
induction ts as [|t ts IH]; [reflexivity|].
cbn [gather]. cbv zeta. rewrite fmap_cons. unfold task_result at 1.
rewrite FitFacts.group_fit_in_raises. cbn [world_of]. rewrite IH. reflexivity.
Qed.

(** Each task of the gather contributes its own result, whether it
    returned or raised, and the tasks after it still run. *)
Lemma gather_spec chat ts w :
  length (gather chat ts w).1 = length ts
  /\ forall i t,
       ts !! i = Some t ->
       (gather chat ts w).1 !! i = Some (task_result chat w t).
Proof.
rewrite gather_results. cbn [fst]. split; [apply length_fmap|].
intros i t Hi. rewrite list_lookup_fmap, Hi. reflexivity.
Qed.

(** The state in which the tasks of a segment run: the tree of the
    start, and the segment's own request issued. *)
Definition requested (w : world) : world := mkWorld (soup w) (S (calls w)).

Lemma translate_groups_returns p chat groups_map w groups_out :
  response_of p = inr (Some groups_out) ->
  answers_within groups_map groups_out ->
  exists ts,
    Forall2 (task_for groups_map) groups_out ts
    /\ translate_groups p chat groups_map w
       = Returns (task_result chat (requested w) <$> ts) (requested w).
Proof.
intros Hp Hin. unfold translate_groups. rewrite Hp.
destruct (fit_in_tasks_for _ _ Hin) as (ts & -> & Hfor). cbv zeta.
exists ts. split; [exact Hfor|]. rewrite gather_results. reflexivity.
Qed.

(** What the [n]-th segment is answered. *)
Definition answered (p : nat -> primary) (n : nat) : dict string :=
  match response_of (p n) with
  | inr (Some d) => d
  | _ => []
  end.

Definition segment_answered (p : nat -> primary) (n : nat) (seg : dict InlineGroup)
  : Prop :=
  response_of (p n) = inr (Some (answered p n))
  /\ answers_within seg (answered p n).

(** The results of the segments numbered from [n], when their tasks are
    [tss] and [k] requests were issued before them. *)
Definition segment_results (chat : nat -> string -> nat -> Q -> reply) (t0 : Node)
    (k n : nat) (tss : list (list task)) : list (list result) :=
  imap (fun i ts => task_result (chat (n + i)%nat)
                      (mkWorld t0 (k + S i)) <$> ts) tss.

Lemma gather_segments_returns p chat segs : forall n w,
  (forall i seg, segs !! i = Some seg -> segment_answered p (n + i) seg) ->
  exists tss,
    length tss = length segs
    /\ (forall i seg ts,
          segs !! i = Some seg -> tss !! i = Some ts ->
          Forall2 (task_for seg) (answered p (n + i)) ts)
    /\ gather_segments p chat n segs w
       = Returns (segment_results chat (soup w) (calls w) n tss)
           (mkWorld (soup w) (calls w + length segs)).
Proof.
induction segs as [|seg segs IH]; intros n w Hans.
- exists []. split; [reflexivity|]. split; [intros i seg ts H; destruct i; discriminate|].
  simpl. rewrite Nat.add_0_r. destruct w; reflexivity.
- destruct (Hans 0%nat seg eq_refl) as [Hp Hin]. rewrite Nat.add_0_r in Hp, Hin.
  destruct (translate_groups_returns (p n) (chat n) seg w _ Hp Hin)
    as (ts & Hfor & Hrun).
  destruct (IH (S n) (requested w)) as (tss & Hlen & Hfors & Hrest).
  { intros i s Hs. replace (S n + i)%nat with (n + S i)%nat by lia.
    apply Hans. exact Hs. }
  exists (ts :: tss). split; [simpl; rewrite Hlen; reflexivity|]. split.
  + intros [|i] seg' ts' Hs Ht; simpl in Hs, Ht.
    * injection Hs as <-. injection Ht as <-. rewrite Nat.add_0_r. exact Hfor.
    * replace (n + S i)%nat with (S n + i)%nat by lia. eapply Hfors; eassumption.
  + cbn [gather_segments]. rewrite Hrun, Hrest. unfold segment_results.
    rewrite imap_cons. cbn [length requested soup calls].
    rewrite Nat.add_0_r.
    replace (calls w + 1)%nat with (S (calls w)) by lia.
    replace (calls w + S (length segs))%nat with (S (calls w) + length segs)%nat by lia.
    f_equal.
Qed.

(** C1 (amended): a segment task whose response decodes to an object
    with keys of the segment returns one result for each pair of the
    response, in its order: what the fit-in task of the group that the
    key names comes to, its status or the exception it raised, every
    task of the list having been run.  A group the response does not
    mention gets no result.  When every segment is answered so, the
    pipeline completes and returns the results of the segments one after
    the other, having issued one request for each segment. *)
Theorem pipeline_returns_a_result_per_answered_group
    (token_counter : string -> nat) (n_input_token : Z)
    (p : nat -> primary) (chat : nat -> string -> nat -> Q -> reply) (w : world)
    (segs : list (dict InlineGroup)) :
  Segment.segment_groups_map token_counter
    (Extract.get_text_group_inline (soup w)) n_input_token = inr segs ->
  (forall n seg, segs !! n = Some seg -> segment_answered p n seg) ->
  (forall n seg w0,
      segs !! n = Some seg ->
      exists ts,
        Forall2 (task_for seg) (answered p n) ts
        /\ translate_groups (p n) (chat n) seg w0
           = Returns (task_result (chat n) (requested w0) <$> ts) (requested w0))
  /\ exists tss,
       length tss = length segs
       /\ (forall n seg ts,
             segs !! n = Some seg -> tss !! n = Some ts ->
             Forall2 (task_for seg) (answered p n) ts)
       /\ translation_pipeline token_counter n_input_token p chat w
          = Returns (mjoin (segment_results chat (soup w) (calls w) 0 tss))
              (mkWorld (soup w) (calls w + length segs)).
Proof.
intros Hseg Hans. split.
- intros n seg w0 Hn. destruct (Hans n seg Hn) as [Hp Hin].
  apply translate_groups_returns; assumption.
- unfold translation_pipeline. cbv zeta. rewrite Hseg.
  destruct (gather_segments_returns p chat segs 0 w) as (tss & Hlen & Hfor & ->).
  { intros i seg Hi. apply Hans. exact Hi. }
  exists tss. split; [exact Hlen|]. split; [exact Hfor | reflexivity].
Qed.

End WithLib.
End OrchestrateFacts.

Module OrchestrateExamples.
Import Orchestrate OrchestrateFacts FitExamples.
Open Scope string_scope.

(** <p>Settings</p><p>Hello <b>world</b></p> *)
Definition two_paragraphs : Node :=
  Tag "[document]"
    [Tag "p" [NavigableString "Settings"];
     Tag "p" [NavigableString "Hello "; Tag "b" [NavigableString "world"]]].

Definition start : world := mkWorld two_paragraphs 0.

Definition the_segment : dict InlineGroup :=
  [("0", mkInlineGroup ["Settings"] [0%nat] [[0%nat]]);
   ("1", mkInlineGroup ["Hello "; "world"] [0%nat; 0%nat] [[1%nat]; [1%nat; 1%nat]])].

Example two_paragraphs_segment :
  Segment.segment_groups_map String.length
    (Extract.get_text_group_inline two_paragraphs) 100
  = inr [the_segment].
Proof. vm_compute. reflexivity. Qed.

Definition both_answered : nat -> primary :=
  fun _ => PDone false (Some [("0", "Einstellungen"); ("1", "Hola mundo")]).

Definition splits : nat -> string -> nat -> Q -> reply :=
  fun _ _ _ _ => Decoded (Some [("0", "Hola "); ("1", "mundo")]).

Definition no_reply : nat -> string -> nat -> Q -> reply :=
  fun _ _ _ _ => Raises (ServiceError 0).

(** The two groups are answered, and both fit-in tasks raise: the
    page is the one before. *)
Example both_answered_run :
  translation_pipeline String.length 100 both_answered splits start
  = Returns [Exc ValueError; Exc ValueError] (mkWorld two_paragraphs 1).
Proof. vm_compute. reflexivity. Qed.

Lemma pipeline_returns_a_result_per_answered_group_witness :
  Segment.segment_groups_map String.length
    (Extract.get_text_group_inline (soup start)) 100 = inr [the_segment]
  /\ (forall n seg, [the_segment] !! n = Some seg ->
                    segment_answered both_answered n seg)
  /\ exists tss,
       length tss = 1%nat
       /\ (forall n seg ts,
             [the_segment] !! n = Some seg -> tss !! n = Some ts ->
             Forall2 (task_for seg) (answered both_answered n) ts)
       /\ translation_pipeline String.length 100 both_answered splits start
          = Returns (mjoin (segment_results splits (soup start) (calls start) 0 tss))
              (mkWorld (soup start) (calls start + 1)).
Proof.
assert (Hans : forall n seg, [the_segment] !! n = Some seg ->
                             segment_answered both_answered n seg).
{ intros [|n] seg H; [|destruct n; discriminate]. injection H as <-.
  split; [reflexivity|].
  constructor; [eexists; reflexivity|].
  constructor; [eexists; reflexivity | constructor]. }
split; [exact two_paragraphs_segment|]. split; [exact Hans|].
exact (proj2 (pipeline_returns_a_result_per_answered_group String.length 100
                both_answered splits start [the_segment]
                two_paragraphs_segment Hans)).
Defined.

(** C1 as stated fails.  A response that leaves out group ["1"] gives
    that group no result, [Fail] or other: the list has one entry for two
    groups.  And a response that does not decode makes the segment task,
    and with it the pipeline, raise [AttributeError]. *)
Lemma unanswered_group_gets_no_status :
  Segment.segment_groups_map String.length
    (Extract.get_text_group_inline (soup start)) 100 = inr [the_segment]
  /\ length the_segment = 2%nat
  /\ translation_pipeline String.length 100
       (fun _ => PDone false (Some [("0", "Einstellungen")])) no_reply start
     = Returns [Exc ValueError] (mkWorld two_paragraphs 1)
  /\ translation_pipeline String.length 100
       (fun _ => PDone false None) no_reply start
     = Raised AttributeError (mkWorld two_paragraphs 1).
Proof. repeat split; vm_compute; reflexivity. Qed.

End OrchestrateExamples.

(** ** Rate-controlled executor: the retry loops *)

Module Retry.

(** A value together with the equation that it is the value. *)
Definition inspect {A : Type} (x : A) : {y : A | x = y} := exist _ x eq_refl.

(** Exception classes are named by numbers; [subclass c d] says that class
    [c] is [d] or derives from it.  A Python object here is a class or an
    instance of one. *)
Inductive pyobj : Type :=
| Class (c : nat)
| Instance (c : nat) (id : nat).

Definition pyobj_eqb (a b : pyobj) : bool :=
  match a, b with
  | Class c, Class d => Nat.eqb c d
  | Instance c i, Instance d j => Nat.eqb c d && Nat.eqb i j
  | _, _ => false
  end.

(** The configuration of a [RateController] that the retry loops read.
    [backoff_on_errors] is a tuple of exception classes. *)
Record config : Type := mkConfig {
  backoff_init_delay : Q;
  backoff_max_retry : Z;
  backoff_exp_base : Q;
  backoff_on_errors : list nat
}.

(** What the wrapped operation does at one call. *)
Inductive called (V : Type) : Type :=
| Ok (ret : V)
| Err (c : nat) (id : nat).
Arguments Ok {V} ret.
Arguments Err {V} c id.

(** What the caller does, in order: passes the admission gate, calls the
    operation, sleeps. *)
Inductive event : Type :=
| Gate
| Call
| Sleep (d : Q).

(** How a run ends: the value returned, or
    [Exception(f'Maximum retry reached: {e}')] for the instance [e]. *)
Inductive ended (V : Type) : Type :=
| Returned (ret : V)
| MaxRetry (c : nat) (id : nat).
Arguments Returned {V} ret.
Arguments MaxRetry {V} c id.

Section WithOperation.
Context {V : Type}.
Variable subclass : nat -> nat -> bool.
Variable cfg : config.

(** [func n]: the operation at its [n]-th call; [uniform n]: the value of
    [random.uniform(-1, 1)] drawn after the [n]-th call. *)
Variable func : nat -> called V.
Variable uniform : nat -> Q.

(** [any(isinstance(e, e_type) for e_type in self.backoff_on_errors)]. *)
Definition eligible (c : nat) : bool :=
  existsb (subclass c) (backoff_on_errors cfg).

(** [e in self.backoff_on_errors]: the instance [e] is compared with each
    class of the tuple. *)
Definition in_tuple (c id : nat) : bool :=
  existsb (fun d => pyobj_eqb (Instance c id) (Class d)) (backoff_on_errors cfg).

(** [min(x, 300)]. *)
Definition cap (x : Q) : Q := if Qltb 300 x then 300 else x.

(** *** The cooperatively-suspending form, [_arun] *)

(** One turn of the loop of [_arun], from the result of the call on:
    it returns, raises, or goes round again. *)
Inductive turn : Type :=
| Leave (e : ended V) (backoff_delay : Q)
| Again (slept : Q) (num_retry : nat) (backoff_delay : Q).

Definition arun_turn (num_retry : nat) (backoff_delay : Q) (o : called V) (r : Q)
  : turn :=
  match o with
  | Ok ret => Leave (Returned ret) (backoff_init_delay cfg)
  | Err c id =>
      let num_retry := S num_retry in
      if backoff_max_retry cfg <? Z.of_nat num_retry
      then Leave (MaxRetry c id) backoff_delay
      else if eligible c
      then Again backoff_delay num_retry
             (cap (backoff_delay * (backoff_exp_base cfg + r)))
      else Again (backoff_init_delay cfg) num_retry backoff_delay
  end.

(** [_arun]: [num_retry] is also the number of calls made so far. The
    result is the way the run ends, [self.backoff_delay] after it and what
    the caller did. *)
Equations? arun (num_retry : nat) (backoff_delay : Q) (trace : list event)
  : ended V * Q * list event
  by wf (Z.to_nat (backoff_max_retry cfg + 1 - Z.of_nat num_retry)) lt :=
  arun num_retry backoff_delay trace
    with inspect (arun_turn num_retry backoff_delay (func num_retry) (uniform num_retry)) => {
    | exist _ (Leave e d) _ => (e, d, trace ++ [Gate; Call])
    | exist _ (Again slept n d) H => arun n d (trace ++ [Gate; Call; Sleep slept]) }.
Proof.
unfold arun_turn in H. destruct (func num_retry); [discriminate|].
destruct (Z.ltb_spec (backoff_max_retry cfg) (Z.of_nat (S num_retry)));
  [discriminate|].
destruct (eligible c); injection H as _ <- _; lia.
Qed.

(** *** The synchronous form, [_run] *)

Inductive turn_sync : Type :=
| LeaveSync (e : ended V)
| AgainSync (slept : option Q) (num_retry : nat) (backoff_delay : Q).

Definition run_turn (num_retry : nat) (backoff_delay : Q) (o : called V) (r : Q)
  : turn_sync :=
  match o with
  | Ok ret => LeaveSync (Returned ret)
  | Err c id =>
      let num_retry := S num_retry in
      if backoff_max_retry cfg <? Z.of_nat num_retry
      then LeaveSync (MaxRetry c id)
      else if in_tuple c id
      then AgainSync (Some backoff_delay) num_retry
             (backoff_delay * (backoff_exp_base cfg + r))
      else AgainSync None num_retry backoff_delay
  end.

Definition slept_events (slept : option Q) : list event :=
  match slept with
  | Some d => [Sleep d]
  | None => []
  end.

(** [_run]: [backoff_delay] is the local variable of the loop. *)
Equations? run_loop (num_retry : nat) (backoff_delay : Q) (trace : list event)
  : ended V * list event
  by wf (Z.to_nat (backoff_max_retry cfg + 1 - Z.of_nat num_retry)) lt :=
  run_loop num_retry backoff_delay trace
    with inspect (run_turn num_retry backoff_delay (func num_retry) (uniform num_retry)) => {
    | exist _ (LeaveSync e) _ => (e, trace ++ [Gate; Call])
    | exist _ (AgainSync slept n d) H =>
        run_loop n d (trace ++ [Gate; Call] ++ slept_events slept) }.
Proof.
unfold run_turn in H. destruct (func num_retry); [discriminate|].
destruct (Z.ltb_spec (backoff_max_retry cfg) (Z.of_nat (S num_retry)));
  [discriminate|].
destruct (in_tuple c id); injection H as _ <- _; lia.
Qed.

Definition run : ended V * list event :=
  run_loop 0 (backoff_init_delay cfg) [].

End WithOperation.
End Retry.

Module RetryFacts.
Import Retry.

Lemma cap_le x : (cap x <= 300)%Q.
Proof.
unfold cap. destruct (Qltb 300 x) eqn:H.
- apply Qle_refl.
- apply FitFacts.Qltb_ge. exact H.
Qed.


(** [funelim] leaves the equation between the inspected pairs; the
    equation on their first components is what the proofs use. *)
Ltac clear_inspected :=
  repeat match goal with
         | H : _ = {| pr1 := _; pr2 := _ |} |- _ => clear H
         end.

Section WithOperation.
Context {V : Type}.
Variable subclass : nat -> nat -> bool.
Variable cfg : config.
Variable func : nat -> called V.
Variable uniform : nat -> Q.

(** An instance is never one of the classes of the tuple. *)
Lemma in_tuple_false c id : in_tuple cfg c id = false.
Proof.
unfold in_tuple. induction (backoff_on_errors cfg) as [|d l IH]; [reflexivity|].
simpl. exact IH.
Qed.

(** The synchronous form never sleeps between two calls. *)
Lemma not_sleep_after_call d tr :
  Sleep d ∉ tr -> Sleep d ∉ tr ++ [Gate; Call].
Proof.
intros Hn Hin. apply elem_of_app in Hin as [Hin|Hin]; [contradiction|].
apply elem_of_cons in Hin as [Hin|Hin]; [discriminate|].
apply list_elem_of_singleton in Hin. discriminate.
Qed.

Lemma run_loop_never_sleeps num_retry backoff_delay trace d :
  Sleep d ∉ trace ->
  Sleep d ∉ (run_loop cfg func uniform num_retry backoff_delay trace).2.
Proof.
funelim (run_loop cfg func uniform num_retry backoff_delay trace); intros Hn;
  clear_inspected.
- simpl. apply not_sleep_after_call. exact Hn.
- match goal with
  | E : run_turn _ _ _ _ _ = _ |- _ =>
      unfold run_turn in E; destruct (func num_retry); [discriminate|];
      cbv zeta in E;
      destruct (backoff_max_retry cfg <? Z.of_nat (S num_retry)); [discriminate|];
      rewrite in_tuple_false in E; injection E as <- _ _
  end.
  match goal with IH : forall _, _ -> _ |- _ => apply IH end.
  simpl. apply not_sleep_after_call. exact Hn.
Qed.

End WithOperation.
End RetryFacts.

Module RetryExamples.
Import Retry RetryFacts.

(** The controller of [openai_api_chat.py] with its defaults; class 1
    stands for [RateLimitError], class 2 for [APIError], and no class
    derives from another. *)
Definition chat_cfg : config := mkConfig 1 10 2 [1%nat; 2%nat].

(** The operation is rate-limited once, then answers. *)
Definition limited_once : nat -> called nat :=
  fun n => match n with 0%nat => Err 1 0 | _ => Ok 42%nat end.

Definition no_jitter : nat -> Q := fun _ => 0%Q.

(** C3: at a [RateLimitError] followed by a success, [_arun] waits the
    current delay of 1 before the second call and takes the success to
    reset the delay, while [_run] calls again at once: the test
    [e in self.backoff_on_errors] compares the instance with the classes
    and never holds. *)
Theorem run_and_arun_differ_on_eligible_failure :
  eligible Nat.eqb chat_cfg 1 = true
  /\ arun Nat.eqb chat_cfg limited_once no_jitter 0 1 []
     = (Returned 42%nat, 1%Q, [Gate; Call; Sleep 1; Gate; Call])
  /\ run chat_cfg limited_once no_jitter
     = (Returned 42%nat, [Gate; Call; Gate; Call]).
Proof. repeat split; vm_compute; reflexivity. Qed.

End RetryExamples.

(** ** Rate-controlled executor: the admission gate *)

Module Gate.
Section WithConfig.

(** [limit] and [period_sec] of the controller.  Times are rationals. *)
Variable limit : Z.
Variable period : Q.

(** [self._sw.full()] for [Queue(maxsize=limit)]: a queue whose [maxsize]
    is not positive is never full. *)
Definition full (sw : list Q) : bool :=
  (0 <? limit) && (limit <=? Z.of_nat (length sw)).

(** [self._sw.put(x)]; [None] when the call would block. *)
Definition put (x : Q) (sw : list Q) : option (list Q) :=
  if full sw then None else Some (sw ++ [x]).

(** [_ablock_by_rate] up to its suspension point, with [now] the time it
    reads first: the queue after it, and the time to sleep when it has to.
    [None] when [get] would block. *)
Definition before_sleep (now : Q) (sw : list Q) : option (list Q * option Q) :=
  if full sw then
    match sw with
    | last :: rest =>
        let lag := (now - last)%Q in
        if Qltb lag period then Some (rest, Some (period - lag)%Q)
        else Some (rest, None)
    | [] => None
    end
  else Some (sw, None).

(** Where a caller of [_arun] stands with respect to the gate: outside
    of [async with self._a_lock], or inside it, suspended in
    [asyncio.sleep] until the given time at least. *)
Inductive pc : Type :=
| Outside
| Asleep (until : Q).

(** The controller with its callers: the clock, the window [_sw] (oldest
    first), the holder of [_a_lock], the callers, and the times pushed so
    far, the admissions. *)
Record sys : Type := mkSys {
  clock : Q;
  sw : list Q;
  a_lock : option nat;
  pcs : nat -> pc;
  admissions : list Q
}.

Definition set_pc (i : nat) (c : pc) (f : nat -> pc) : nat -> pc :=
  fun j => if Nat.eqb j i then c else f j.

(** The steps of the system.  Callers run until they suspend: a caller
    that finds the lock free either goes through the gate in one step
    ([step_admit], the push reading the clock [e] later than the first
    reading) or suspends in its sleep holding the lock ([step_suspend]),
    to push when it is resumed, no sooner than its sleep ends
    ([step_resume]).  A caller that finds the lock taken waits: it has no
    step. *)
Inductive step : sys -> sys -> Prop :=
| step_tick s d :
    (0 <= d)%Q ->
    step s (mkSys (clock s + d) (sw s) (a_lock s) (pcs s) (admissions s))
| step_admit s i e sw1 sw2 :
    pcs s i = Outside -> a_lock s = None -> (0 <= e)%Q ->
    before_sleep (clock s) (sw s) = Some (sw1, None) ->
    put (clock s + e) sw1 = Some sw2 ->
    step s (mkSys (clock s + e) sw2 None (pcs s) (admissions s ++ [(clock s + e)%Q]))
| step_suspend s i sw1 d :
    pcs s i = Outside -> a_lock s = None ->
    before_sleep (clock s) (sw s) = Some (sw1, Some d) ->
    step s (mkSys (clock s) sw1 (Some i)
              (set_pc i (Asleep (clock s + d)) (pcs s)) (admissions s))
| step_resume s i u sw2 :
    pcs s i = Asleep u -> (u <= clock s)%Q ->
    put (clock s) (sw s) = Some sw2 ->
    step s (mkSys (clock s) sw2 None (set_pc i Outside (pcs s))
              (admissions s ++ [clock s])).

Definition init (t0 : Q) : sys := mkSys t0 [] None (fun _ => Outside) [].

Inductive reachable : sys -> Prop :=
| reach_init t0 : reachable (init t0)
| reach_step s s' : reachable s -> step s s' -> reachable s'.

(** The admissions within the trailing window [(t - period, t]]. *)
Definition in_window (t a : Q) : bool :=
  Qltb (t - period) a && Qle_bool a t.

Definition admitted_within (t : Q) (s : sys) : nat :=
  length (List.filter (in_window t) (admissions s)).

End WithConfig.
End Gate.

Module GateFacts.
Import Gate.

(** *** Lists of times *)

(** Times in order of admission never decrease. *)
Definition ascending (l : list Q) : Prop :=
  forall i j a b, (i <= j)%nat -> l !! i = Some a -> l !! j = Some b -> (a <= b)%Q.

(** Any admission and the [n]-th after it are [period] apart at least. *)
Definition spaced (n : nat) (period : Q) (l : list Q) : Prop :=
  forall k a b, l !! k = Some a -> l !! (k + n)%nat = Some b -> (a + period <= b)%Q.

Lemma ascending_snoc l c :
  ascending l -> Forall (fun a => (a <= c)%Q) l -> ascending (l ++ [c]).
Proof.
intros Hasc Hle i j a b Hij Hi Hj.
destruct (decide (j < length l)%nat) as [Hjl|Hjl].
- rewrite lookup_app_l in Hi by lia. rewrite lookup_app_l in Hj by lia.
  exact (Hasc i j a b Hij Hi Hj).
- rewrite lookup_app_r in Hj by lia.
  assert (b = c) by (destruct (j - length l)%nat as [|[|?]]; simpl in Hj; congruence).
  subst b.
  destruct (decide (i < length l)%nat) as [Hil|Hil].
  + rewrite lookup_app_l in Hi by lia.
    rewrite Forall_forall in Hle. apply Hle.
    eapply list_elem_of_lookup_2. exact Hi.
  + rewrite lookup_app_r in Hi by lia.
    assert (a = c) by (destruct (i - length l)%nat as [|[|?]]; simpl in Hi; congruence).
    subst a. apply Qle_refl.
Qed.

Lemma spaced_snoc n period l c :
  (0 < n)%nat ->
  spaced n period l ->
  (forall a, l !! (length l - n)%nat = Some a -> (n <= length l)%nat ->
             (a + period <= c)%Q) ->
  spaced n period (l ++ [c]).
Proof.
intros Hn Hsp Hlast k a b Ha Hb.
assert (Hk : (k + n <= length l)%nat).
{ apply lookup_lt_Some in Hb. rewrite length_app in Hb. simpl in Hb. lia. }
rewrite lookup_app_l in Ha by lia.
destruct (decide (k + n < length l)%nat) as [Hlt|Hge].
- rewrite lookup_app_l in Hb by lia. exact (Hsp k a b Ha Hb).
- rewrite lookup_app_r in Hb by lia.
  assert (b = c) by (destruct (k + n - length l)%nat as [|[|?]]; simpl in Hb; congruence).
  subst b. apply Hlast; [|lia].
  replace (length l - n)%nat with k by lia. exact Ha.
Qed.

(** *** Counting within a window *)

Section Counting.
Variable P : Q -> bool.

(** More than [m] elements pass the test: one of them has [m] elements
    before it at least. *)
Lemma filter_long_late l : forall m,
  (m < length (List.filter P l))%nat ->
  exists j b, (m <= j)%nat /\ l !! j = Some b /\ P b = true.
Proof.
induction l as [|x l IH]; intros m Hm; simpl in Hm; [lia|].
destruct (P x) eqn:Hx.
- destruct m as [|m].
  + exists 0%nat, x. auto with lia.
  + simpl in Hm. destruct (IH m) as (j & b & Hj & Hb & Hp); [lia|].
    exists (S j), b. auto with lia.
- destruct (IH m Hm) as (j & b & Hj & Hb & Hp).
  exists (S j), b. auto with lia.
Qed.

(** More than [m] elements pass the test: two of them are [m] places
    apart at least. *)
Lemma filter_long_apart l : forall m,
  (m < length (List.filter P l))%nat ->
  exists i j a b,
    (i + m <= j)%nat /\ l !! i = Some a /\ l !! j = Some b
    /\ P a = true /\ P b = true.
Proof.
induction l as [|x l IH]; intros m Hm; simpl in Hm; [lia|].
destruct (P x) eqn:Hx.
- destruct m as [|m].
  + exists 0%nat, 0%nat, x, x. auto with lia.
  + simpl in Hm. destruct (filter_long_late l m) as (j & b & Hj & Hb & Hp); [lia|].
    exists 0%nat, (S j), x, b. simpl. auto with lia.
- destruct (IH m Hm) as (i & j & a & b & Hij & Ha & Hb & Hpa & Hpb).
  exists (S i), (S j), a, b. simpl. auto with lia.
Qed.
End Counting.

Lemma in_window_spec period t a :
  in_window period t a = true <-> (t - period < a)%Q /\ (a <= t)%Q.
Proof.
unfold in_window. rewrite andb_true_iff, FitFacts.Qltb_lt, Qle_bool_iff. tauto.
Qed.

(** Ascending times spaced by [period] every [n]: no window holds more
    than [n] of them. *)
Lemma window_holds_at_most n period l t :
  ascending l -> spaced n period l ->
  (length (List.filter (in_window period t) l) <= n)%nat.
Proof.
intros Hasc Hsp.
destruct (decide (length (List.filter (in_window period t) l) <= n)%nat)
  as [H|H]; [exact H|].
destruct (filter_long_apart (in_window period t) l n)
  as (i & j & a & b & Hij & Ha & Hb & Hpa & Hpb); [lia|].
apply in_window_spec in Hpa as [Hlo _].
apply in_window_spec in Hpb as [_ Hhi].
destruct (l !! (i + n)%nat) as [c|] eqn:Hc.
- pose proof (Hsp i a c Ha Hc) as Hgap.
  pose proof (Hasc (i + n)%nat j c b Hij Hc Hb) as Hcb.
  exfalso. lra.
- apply lookup_ge_None in Hc. apply lookup_lt_Some in Hb. lia.
Qed.

(** *** The invariant of the gate *)

Section WithConfig.
Variable limit : Z.
Variable period : Q.
Hypothesis limit_pos : 0 < limit.

Local Abbreviation N := (Z.to_nat limit).

Lemma full_spec sw : full limit sw = true <-> (N <= length sw)%nat.
Proof.
unfold full. rewrite andb_true_iff, Z.ltb_lt, Z.leb_le. lia.
Qed.

Lemma put_not_full x sw :
  (length sw < N)%nat -> put limit x sw = Some (sw ++ [x]).
Proof.
intros H. unfold put. destruct (full limit sw) eqn:E; [|reflexivity].
apply full_spec in E. lia.
Qed.

Lemma put_Some x sw sw2 :
  put limit x sw = Some sw2 -> sw2 = sw ++ [x] /\ (length sw < N)%nat.
Proof.
unfold put. destruct (full limit sw) eqn:E; [discriminate|].
intros H. injection H as <-. split; [reflexivity|].
destruct (decide (length sw < N)%nat) as [Hlt|Hge]; [exact Hlt|].
assert (full limit sw = true) by (apply full_spec; lia). congruence.
Qed.

(** What the window holds: with the lock free, the last admissions, all
    of them while they are fewer than [limit]; with the lock held by a
    sleeping caller, the last [limit - 1], and the caller sleeps until
    [period] after the admission before those. *)
Definition window_ok (s : sys) : Prop :=
  match a_lock s with
  | None =>
      (forall i, pcs s i = Outside)
      /\ exists old,
           admissions s = old ++ sw s
           /\ (length (sw s) <= N)%nat
           /\ (old <> [] -> length (sw s) = N)
  | Some i =>
      (forall j, j <> i -> pcs s j = Outside)
      /\ exists u old last,
           pcs s i = Asleep u
           /\ admissions s = old ++ last :: sw s
           /\ S (length (sw s)) = N
           /\ (last + period <= u)%Q
  end.

Record inv (s : sys) : Prop := mkInv {
  inv_past : Forall (fun a => (a <= clock s)%Q) (admissions s);
  inv_ascending : ascending (admissions s);
  inv_spaced : spaced N period (admissions s);
  inv_window : window_ok s
}.

Lemma inv_init t0 : inv (init t0).
Proof.
split; simpl.
- constructor.
- intros i j a b _ H. destruct i; discriminate.
- intros k a b H. destruct k; discriminate.
- split; [reflexivity|]. exists []. simpl. split; [reflexivity|].
  split; [lia | congruence].
Qed.

Lemma past_weaken (l : list Q) (c c' : Q) :
  (c <= c')%Q -> Forall (fun a => (a <= c)%Q) l -> Forall (fun a => (a <= c')%Q) l.
Proof.
intros Hc H. eapply Forall_impl; [exact H|]. intros a Ha. simpl in Ha. lra.
Qed.

Lemma past_snoc (l : list Q) (c : Q) :
  Forall (fun a => (a <= c)%Q) l -> Forall (fun a => (a <= c)%Q) (l ++ [c]).
Proof.
intros H. apply Forall_app. split; [exact H|].
constructor; [apply Qle_refl | constructor].
Qed.

Lemma set_pc_same i c f : set_pc i c f i = c.
Proof. unfold set_pc. rewrite Nat.eqb_refl. reflexivity. Qed.

Lemma set_pc_other i j c f : j <> i -> set_pc i c f j = f j.
Proof.
intros H. unfold set_pc. destruct (Nat.eqb_spec j i); [contradiction | reflexivity].
Qed.

Lemma before_sleep_inv now sw0 sw1 o :
  before_sleep limit period now sw0 = Some (sw1, o) ->
  ((length sw0 < N)%nat /\ sw1 = sw0 /\ o = None)
  \/ (exists last,
        sw0 = last :: sw1 /\ (N <= length sw0)%nat
        /\ ((o = None /\ (last + period <= now)%Q)
            \/ (exists d, o = Some d /\ (now + d == last + period)%Q))).
Proof.
unfold before_sleep. destruct (full limit sw0) eqn:Hf.
- apply full_spec in Hf. destruct sw0 as [|last rest]; [discriminate|].
  cbv zeta. destruct (Qltb (now - last) period) eqn:Hlag; intros H; injection H as <- <-.
  + right. exists last. split; [reflexivity|]. split; [exact Hf|].
    right. eexists. split; [reflexivity|]. ring.
  + right. exists last. split; [reflexivity|]. split; [exact Hf|].
    left. split; [reflexivity|]. apply FitFacts.Qltb_ge in Hlag. lra.
- intros H. injection H as <- <-. left.
  split; [|auto].
  destruct (decide (length sw0 < N)%nat) as [Hlt|Hge]; [exact Hlt|].
  assert (full limit sw0 = true) by (apply full_spec; lia). congruence.
Qed.

Lemma inv_step s s' : inv s -> step limit period s s' -> inv s'.
Proof.
intros [Hpast Hasc Hsp Hwin] Hstep.
destruct Hstep as [s d Hd | s i e sw1 sw2 Hpc Hlock He Hbefore Hput
                  | s i sw1 d Hpc Hlock Hbefore | s i u sw2 Hpc Hu Hput].
- (* the clock advances *)
  split; simpl; try assumption.
  eapply past_weaken; [|exact Hpast]. lra.
- (* a caller goes through the gate without sleeping *)
  unfold window_ok in Hwin. rewrite Hlock in Hwin.
  destruct Hwin as [Hout (old & Hadm & Hlen & Hold)].
  apply put_Some in Hput as [-> Hroom].
  assert (Hpast' : Forall (fun a => (a <= clock s + e)%Q) (admissions s))
    by (eapply past_weaken; [|exact Hpast]; lra).
  apply before_sleep_inv in Hbefore
    as [(Hfew & -> & _) | (last & Hsw & Hfull & [[_ Hlag] | (d' & Hd' & _)])];
    [| |discriminate].
  + split; simpl.
    * apply past_snoc. exact Hpast'.
    * apply ascending_snoc; assumption.
    * apply spaced_snoc; [lia | exact Hsp|].
      intros a _ HN. exfalso.
      destruct old as [|x old]; [|specialize (Hold ltac:(discriminate)); lia].
      simpl in Hadm. rewrite Hadm in HN. lia.
    * unfold window_ok. simpl. split; [exact Hout|].
      exists old. rewrite Hadm, <- app_assoc.
      split; [reflexivity|]. rewrite length_app. simpl.
      split; [lia|]. intros Hne. specialize (Hold Hne). lia.
  + rewrite Hsw in *. simpl in Hlen, Hfull.
    assert (HlenN : S (length sw1) = N) by lia.
    split; simpl.
    * apply past_snoc. exact Hpast'.
    * apply ascending_snoc; assumption.
    * apply spaced_snoc; [lia | exact Hsp|].
      intros a Ha _. rewrite Hadm in Ha.
      rewrite length_app in Ha. simpl in Ha.
      replace (length old + S (length sw1) - N)%nat with (length old + 0)%nat in Ha by lia.
      rewrite lookup_app_r in Ha by lia.
      replace (length old + 0 - length old)%nat with 0%nat in Ha by lia.
      simpl in Ha. injection Ha as <-. lra.
    * unfold window_ok. simpl. split; [exact Hout|]. exists (old ++ [last]).
      rewrite Hadm, <- !app_assoc. simpl.
      split; [reflexivity|]. rewrite length_app. simpl. split; [lia|]. lia.
- (* a caller suspends in its sleep, holding the lock *)
  unfold window_ok in Hwin. rewrite Hlock in Hwin.
  destruct Hwin as [Hout (old & Hadm & Hlen & Hold)].
  apply before_sleep_inv in Hbefore
    as [(_ & _ & ?) | (last & Hsw & Hfull & [[? _] | (d' & Hd' & Hwake)])];
    try discriminate.
  injection Hd' as <-.
  split; simpl; try assumption.
  unfold window_ok. simpl. split.
  + intros j Hj. rewrite set_pc_other by exact Hj. apply Hout.
  + exists (clock s + d)%Q, old, last. rewrite set_pc_same.
    split; [reflexivity|]. rewrite Hadm, Hsw. split; [reflexivity|].
    rewrite Hsw in Hlen, Hfull. simpl in Hlen, Hfull. split; [lia|]. lra.
- (* the sleeping caller is resumed and pushes the time *)
  unfold window_ok in Hwin.
  destruct (a_lock s) as [h|] eqn:Hlock.
  + destruct Hwin as [Hothers (u' & old & last & Hpc' & Hadm & HlenN & Hwake)].
    assert (i = h).
    { destruct (decide (i = h)) as [->|Hne]; [reflexivity|].
      rewrite (Hothers i Hne) in Hpc. discriminate. }
    subst h. rewrite Hpc in Hpc'. injection Hpc' as <-.
    apply put_Some in Hput as [-> Hroom].
    split; simpl.
    * apply past_snoc. exact Hpast.
    * apply ascending_snoc; assumption.
    * apply spaced_snoc; [lia | exact Hsp|].
      intros a Ha _. rewrite Hadm in Ha.
      rewrite length_app in Ha. simpl in Ha.
      replace (length old + S (length (sw s)) - N)%nat with (length old + 0)%nat in Ha by lia.
      rewrite lookup_app_r in Ha by lia.
      replace (length old + 0 - length old)%nat with 0%nat in Ha by lia.
      simpl in Ha. injection Ha as <-. lra.
    * unfold window_ok. simpl. split.
      -- intros j. destruct (decide (j = i)) as [->|Hne];
           [apply set_pc_same | rewrite set_pc_other by exact Hne; apply Hothers; exact Hne].
      -- exists (old ++ [last]). rewrite Hadm, <- !app_assoc. simpl.
         split; [reflexivity|]. rewrite length_app. simpl. split; lia.
  + destruct Hwin as [Hout _]. rewrite Hout in Hpc. discriminate.
Qed.

Lemma inv_reachable s : reachable limit period s -> inv s.
Proof.
induction 1 as [t0 | s s' _ IH Hstep]; [apply inv_init | eapply inv_step; eauto].
Qed.

End WithConfig.

(** X25: Neither [get] nor [put] ever blocks the event loop: a caller that
    finds the lock free gets through the code before its sleep, and can
    push when it has no need to sleep; a caller that was asleep can
    push. *)
Lemma gate_never_blocks limit period s :
  0 < limit -> reachable limit period s ->
  (a_lock s = None ->
   exists sw1 o,
     before_sleep limit period (clock s) (sw s) = Some (sw1, o)
     /\ (o = None -> forall x, is_Some (put limit x sw1)))
  /\ (forall i u, pcs s i = Asleep u -> forall x, is_Some (put limit x (sw s))).
Proof.
intros Hpos Hreach. destruct (inv_reachable limit period Hpos s Hreach) as [_ _ _ Hwin].
unfold window_ok in Hwin. split.
- intros Hlock. rewrite Hlock in Hwin. destruct Hwin as [_ (old & _ & Hlen & _)].
  unfold before_sleep. destruct (full limit (sw s)) eqn:Hf.
  + apply (full_spec limit Hpos) in Hf.
    destruct (sw s) as [|last rest] eqn:Hsw; [simpl in Hf; lia|].
    cbv zeta. destruct (Qltb (clock s - last) period).
    * eexists _, _. split; [reflexivity | discriminate].
    * eexists _, _. split; [reflexivity|]. intros _ x.
      rewrite put_not_full; [eauto | exact Hpos | simpl in *; lia].
  + eexists _, _. split; [reflexivity|]. intros _ x.
    unfold put. rewrite Hf. eauto.
- intros i u Hpc x. destruct (a_lock s) as [h|].
  + destruct Hwin as [_ (u' & old & last & _ & _ & HlenN & _)].
    rewrite put_not_full; [eauto | exact Hpos | lia].
  + destruct Hwin as [Hout _]. rewrite Hout in Hpc. discriminate.
Qed.

(** X31: In every state the controller can reach when all its callers are
    callers of [_arun], for a positive [limit], no trailing window
    [(t - period, t]] holds more than [limit] admissions; and these
    callers meet one gate: at most one of them is inside it, the holder of
    [_a_lock], so that their checks and pushes follow one another. *)
Theorem gate_admits_at_most_limit_per_window (limit : Z) (period : Q) (s : sys) :
  0 < limit ->
  reachable limit period s ->
  (forall t, Z.of_nat (admitted_within period t s) <= limit)
  /\ (forall i j, pcs s i <> Outside -> pcs s j <> Outside -> i = j)
  /\ (forall i, pcs s i <> Outside <-> a_lock s = Some i).
Proof.
intros Hpos Hreach.
destruct (inv_reachable limit period Hpos s Hreach) as [_ Hasc Hsp Hwin].
split; [|split].
- intros t. unfold admitted_within.
  pose proof (window_holds_at_most _ _ _ t Hasc Hsp). lia.
- unfold window_ok in Hwin. intros i j Hi Hj.
  destruct (a_lock s) as [h|].
  + destruct Hwin as [Hothers _].
    destruct (decide (i = h)) as [->|Hih]; [|exfalso; apply Hi, Hothers, Hih].
    destruct (decide (j = h)) as [->|Hjh]; [reflexivity|].
    exfalso; apply Hj, Hothers, Hjh.
  + destruct Hwin as [Hout _]. exfalso. apply Hi, Hout.
- unfold window_ok in Hwin. intros i.
  destruct (a_lock s) as [h|].
  + destruct Hwin as [Hothers (u & old & last & Hpc & _)]. split.
    * intros Hi. destruct (decide (i = h)) as [->|Hih]; [reflexivity|].
      exfalso; apply Hi, Hothers, Hih.
    * intros Heq. injection Heq as ->. rewrite Hpc. discriminate.
  + destruct Hwin as [Hout _]. split; [|discriminate].
    intros Hi. exfalso. apply Hi, Hout.
Qed.

End GateFacts.

Module GateExamples.
Import Gate GateFacts.

(** The controller of [openai_api_conf.py]: one call per 3.5 seconds.
    Caller 0 is admitted at time 0; caller 1 arrives at time 1, sleeps
    until 3.5 holding the lock, and is admitted then. *)
Definition s1 : sys := mkSys 0 [0%Q] None (fun _ => Outside) [0%Q].
Definition s2 : sys := mkSys 1 [0%Q] None (fun _ => Outside) [0%Q].
Definition s3 : sys :=
  mkSys 1 [] (Some 1%nat) (set_pc 1 (Asleep (7 # 2)) (fun _ => Outside)) [0%Q].
Definition s4 : sys :=
  mkSys (7 # 2) [] (Some 1%nat) (set_pc 1 (Asleep (7 # 2)) (fun _ => Outside)) [0%Q].
Definition s5 : sys :=
  mkSys (7 # 2) [7 # 2] None
    (set_pc 1 Outside (set_pc 1 (Asleep (7 # 2)) (fun _ => Outside)))
    [0%Q; 7 # 2].

Lemma s5_reachable : reachable 1 (7 # 2) s5.
Proof.
assert (H1 : reachable 1 (7 # 2) s1).
{ apply (reach_step 1 (7 # 2) (init 0) s1 (reach_init 1 (7 # 2) 0)).
  apply (step_admit 1 (7 # 2) (init 0) 0%nat 0 [] [0%Q]);
    (reflexivity || discriminate). }
assert (H2 : reachable 1 (7 # 2) s2).
{ apply (reach_step 1 (7 # 2) s1 s2 H1).
  apply (step_tick 1 (7 # 2) s1 1). discriminate. }
assert (H3 : reachable 1 (7 # 2) s3).
{ apply (reach_step 1 (7 # 2) s2 s3 H2).
  apply (step_suspend 1 (7 # 2) s2 1%nat [] (5 # 2)); reflexivity. }
assert (H4 : reachable 1 (7 # 2) s4).
{ apply (reach_step 1 (7 # 2) s3 s4 H3).
  apply (step_tick 1 (7 # 2) s3 (5 # 2)). discriminate. }
apply (reach_step 1 (7 # 2) s4 s5 H4).
apply (step_resume 1 (7 # 2) s4 1%nat (7 # 2) [7 # 2]);
  (reflexivity || discriminate).
Defined.

Lemma gate_admits_at_most_limit_per_window_witness :
  0 < 1
  /\ reachable 1 (7 # 2) s5
  /\ admissions s5 = [0%Q; 7 # 2]
  /\ forall t, Z.of_nat (admitted_within (7 # 2) t s5) <= 1.
Proof.
split; [reflexivity|]. split; [exact s5_reachable|]. split; [reflexivity|].
exact (proj1 (gate_admits_at_most_limit_per_window 1 (7 # 2) s5 eq_refl s5_reachable)).
Defined.

End GateExamples.

(** ** More on the extractor: keys, shreds and the empty map *)

Module ExtractMore.
Import Extract ExtractFacts.

(** What a call of [traversal] appends to [all_groups] and what it
    returns are made of items that satisfy [Q]; no appended group is
    empty. *)
Definition yields (Q : item -> Prop) (st st' : tstate) (pending : list item) : Prop :=
  exists new,
    all_groups st' = all_groups st ++ new
    /\ Forall (fun g => g <> [] /\ Forall Q g) new
    /\ Forall Q pending.

(** The item stands for a text leaf of [root]: its owner and index lead
    to a plain string that is not ignored, and its shred is that string
    without its line feeds. *)
Definition item_ok (root : Node) (x : item) : Prop :=
  exists s,
    Tree.get (i_ele x ++ [i_cid x]) root = Some (NavigableString s)
    /\ PyStr.only_ignored s = false
    /\ i_shred x = PyStr.strip_newlines s.

Lemma get_child root here n contents k c :
  Tree.get here root = Some (Tag n contents) ->
  contents !! k = Some c ->
  Tree.get (here ++ [k]) root = Some c.
Proof.
intros Hh Hk. rewrite TreeFacts.get_app, Hh. simpl. rewrite Hk. reflexivity.
Qed.

Lemma children_loop_items root here n contents inline cs :
  Tree.get here root = Some (Tag n contents) ->
  Forall (fun c => forall h st, Tree.get h root = Some c ->
            yields (item_ok root) st (traversal h c st).2
              (opt_group (traversal h c st).1)) cs ->
  forall cid group st,
    (forall j c, cs !! j = Some c -> contents !! (cid + j)%nat = Some c) ->
    Forall (item_ok root) group ->
    yields (item_ok root) st (children_loop here inline cs cid group st).2
      (children_loop here inline cs cid group st).1.
Proof.
intros Hhere. induction 1 as [|c cs Hc _ IH]; intros cid group st Hcs Hgroup.
- simpl. exists []. rewrite app_nil_r. split; [reflexivity|]. split; [constructor | exact Hgroup].
- assert (Hhead : contents !! cid = Some c).
  { rewrite <- (Nat.add_0_r cid). apply Hcs. reflexivity. }
  assert (Hrest : forall j c', cs !! j = Some c' -> contents !! (S cid + j)%nat = Some c').
  { intros j c' Hj. replace (S cid + j)%nat with (cid + S j)%nat by lia.
    apply Hcs. exact Hj. }
  destruct c as [s|s|s|m sub]; simpl.
  + destruct (PyStr.only_ignored s) eqn:Hs; simpl.
    * apply IH; assumption.
    * destruct (IH (S cid)
                  (group ++ [mkItem (PyStr.strip_newlines s) cid here (cnt st)])
                  (mkT (S (cnt st)) (all_groups st)) Hrest)
        as (new & Hall & Hne & Hpend).
      { apply Forall_app. split; [exact Hgroup|].
        constructor; [|constructor]. exists s. simpl.
        split; [eapply get_child; eassumption | auto]. }
      exists new. auto.
  + apply IH; assumption.
  + apply IH; assumption.
  + destruct (String.eqb m "script"); simpl; [apply IH; assumption|].
    specialize (Hc (here ++ [cid]) st (get_child _ _ _ _ _ _ Hhere Hhead)).
    destruct (traversal (here ++ [cid]) (Tag m sub) st) as [o st1] eqn:Et.
    simpl in Hc. destruct Hc as (new1 & Hall1 & Hne1 & Hpend1).
    destruct o as [subg|]; simpl in Hpend1.
    * destruct (IH (S cid) (group ++ subg) st1 Hrest) as (new & Hall & Hne & Hpend).
      { apply Forall_app. auto. }
      exists (new1 ++ new). split; [rewrite Hall, Hall1, app_assoc; reflexivity|].
      split; [apply Forall_app; auto | exact Hpend].
    * destruct (negb inline && truthy group) eqn:Eflush.
      -- apply andb_prop in Eflush as [_ Htr].
         destruct (IH (S cid) [] (append_group group st1) Hrest) as (new & Hall & Hne & Hpend);
           [constructor|].
         exists (new1 ++ [group] ++ new). split.
         { rewrite Hall. simpl. rewrite Hall1, <- !app_assoc. reflexivity. }
         split; [|exact Hpend].
         apply Forall_app. split; [exact Hne1|].
         constructor; [|exact Hne]. split; [apply truthy_nonempty; exact Htr | exact Hgroup].
      -- destruct (IH (S cid) group st1 Hrest Hgroup) as (new & Hall & Hne & Hpend).
         exists (new1 ++ new). split; [rewrite Hall, Hall1, app_assoc; reflexivity|].
         split; [apply Forall_app; auto | exact Hpend].
Qed.

Lemma traversal_items root ele :
  forall h st, Tree.get h root = Some ele ->
    yields (item_ok root) st (traversal h ele st).2 (opt_group (traversal h ele st).1).
Proof.
induction ele as [s|s|s|n cs IH] using Node_nested_ind; intros h st Hh;
  try (exists []; rewrite app_nil_r; repeat split; constructor).
rewrite traversal_Tag. cbv zeta.
pose proof (children_loop_items root h n cs (is_inline_ele n) cs Hh IH 0%nat [] st) as Hl.
destruct (children_loop h (is_inline_ele n) cs 0%nat [] st) as [g st'].
simpl in Hl. destruct Hl as (new & Hall & Hne & Hpend); [auto | constructor|].
destruct (is_inline_ele n); simpl.
- exists new. auto.
- destruct (truthy g) eqn:Hg.
  + exists (new ++ [g]). simpl. rewrite Hall, app_assoc.
    split; [reflexivity|]. split; [|constructor].
    apply Forall_app. split; [exact Hne|].
    constructor; [|constructor]. split; [apply truthy_nonempty; exact Hg | exact Hpend].
  + exists new. split; [exact Hall|]. split; [exact Hne | constructor].
Qed.

(** The groups of the map, before they are numbered. *)
Definition sorted_groups (element : Node) : list (list item) :=
  sort_groups (all_groups (traversal [] element (mkT 0 [])).2).

Lemma get_text_group_inline_sorted element :
  get_text_group_inline element
  = imap (fun i g => (PyStr.str_of_nat i, to_group g)) (sorted_groups element).
Proof.
unfold get_text_group_inline, sorted_groups.
destruct (traversal [] element (mkT 0 [])) as [o st]. reflexivity.
Qed.

Lemma sorted_groups_items element :
  Forall (fun g => g <> [] /\ Forall (item_ok element) g) (sorted_groups element).
Proof.
unfold sorted_groups. rewrite sort_groups_perm.
destruct (traversal_items element element [] (mkT 0 []) eq_refl) as (new & Hall & Hne & _).
rewrite Hall. exact Hne.
Qed.

Lemma imap_keys {A B} (f : nat -> string) (h : A -> B) (l : list A) :
  fst <$> imap (fun i g => (f i, h g)) l = f <$> seq 0 (length l).
Proof.
revert f. induction l as [|x l IH]; intros f; [reflexivity|].
rewrite imap_cons. cbn [length seq]. rewrite !fmap_cons. f_equal.
change (fst <$> imap (fun i g => ((f ∘ S) i, h g)) l = f <$> seq 1 (length l)).
rewrite IH, <- fmap_S_seq, <- list_fmap_compose. reflexivity.
Qed.

Lemma elem_of_group_map element kv :
  kv ∈ get_text_group_inline element ->
  exists g, kv.2 = to_group g /\ g <> [] /\ Forall (item_ok element) g.
Proof.
rewrite get_text_group_inline_sorted. intros Hin.
apply list_elem_of_lookup_1 in Hin as [i Hi]. rewrite list_lookup_imap in Hi.
destruct (sorted_groups element !! i) as [g|] eqn:Hg; [|discriminate].
injection Hi as <-. exists g. split; [reflexivity|].
pose proof (sorted_groups_items element) as Hall. rewrite Forall_forall in Hall.
apply Hall. eapply list_elem_of_lookup_2. exact Hg.
Qed.

(** X1: The keys of the group map are [str(0)], [str(1)], ... in the order of
    the map, hence distinct; every group passes the assertion of
    [__post_init__] and holds one shred at least. *)
Theorem group_map_keys_count_from_zero (element : Node) :
  fst <$> get_text_group_inline element
  = PyStr.str_of_nat <$> seq 0 (length (get_text_group_inline element))
  /\ NoDup (fst <$> get_text_group_inline element)
  /\ Forall (fun kv => post_init kv.2 /\ (0 < group_len kv.2)%nat)
       (get_text_group_inline element).
Proof.
assert (Hkeys : fst <$> get_text_group_inline element
                = PyStr.str_of_nat <$> seq 0 (length (get_text_group_inline element))).
{ rewrite get_text_group_inline_sorted, length_imap. apply imap_keys. }
split; [exact Hkeys|]. split.
- rewrite Hkeys. apply NoDup_fmap_2; [|apply NoDup_seq].
  intros m n. apply SegmentFacts.str_of_nat_inj.
- apply Forall_forall. intros kv Hin.
  destruct (elem_of_group_map element kv Hin) as (g & -> & Hne & _).
  split; [apply ExtractedGroups.post_init_to_group|].
  unfold group_len, to_group. simpl. rewrite length_map.
  destruct g; [congruence | simpl; lia].
Qed.

Lemma remove_char_idem c s :
  PyStr.remove_char c (PyStr.remove_char c s) = PyStr.remove_char c s.
Proof.
induction s as [|a r IH]; simpl; [reflexivity|].
destruct (Ascii.eqb a c) eqn:E; [exact IH|]. simpl. rewrite E, IH. reflexivity.
Qed.

(** X2: Every entry of every group, whatever the root: its element and child
    index lead to a plain string of the tree that has a character other
    than the line feed and the no-break space, and its shred is that
    string with the line feeds removed, so that no shred holds a line
    feed. *)
Theorem shred_is_leaf_text_without_line_feeds
    (element : Node) (kv : string * InlineGroup) (j : nat)
    (ele : path) (cid : nat) (shred : string) :
  kv ∈ get_text_group_inline element ->
  elements kv.2 !! j = Some ele ->
  cids kv.2 !! j = Some cid ->
  text_shreds kv.2 !! j = Some shred ->
  (exists s,
      Tree.get (ele ++ [cid]) element = Some (NavigableString s)
      /\ PyStr.only_ignored s = false
      /\ shred = PyStr.strip_newlines s)
  /\ PyStr.strip_newlines shred = shred.
Proof.
intros Hin He Hc Hs.
destruct (elem_of_group_map element kv Hin) as (g & Hkv & _ & Hok).
rewrite Hkv in He, Hc, Hs. unfold to_group in He, Hc, Hs. simpl in He, Hc, Hs.
change (map i_ele g) with (i_ele <$> g) in He.
change (map i_cid g) with (i_cid <$> g) in Hc.
change (map i_shred g) with (i_shred <$> g) in Hs.
rewrite list_lookup_fmap in He. rewrite list_lookup_fmap in Hc.
rewrite list_lookup_fmap in Hs.
destruct (g !! j) as [x|] eqn:Hx; [|discriminate].
simpl in He, Hc, Hs. injection He as <-. injection Hc as <-. injection Hs as <-.
rewrite Forall_forall in Hok.
destruct (Hok x) as (s & Hget & Hign & Hshred);
  [eapply list_elem_of_lookup_2; exact Hx|].
split; [eauto|]. rewrite Hshred. apply remove_char_idem.
Qed.

(** X3: A block-level root yields the empty map exactly when the tree has no
    eligible text leaf. *)
Theorem no_group_iff_no_eligible_leaf (name : string) (contents : list Node) :
  is_inline_ele name = false ->
  get_text_group_inline (Tag name contents) = []
  <-> forall p cid, ~ eligible_leaf (Tag name contents) p cid.
Proof.
intros Hblock.
pose proof (get_text_group_inline_leaves name contents Hblock) as Hperm.
split.
- intros Hnil p cid He. rewrite Hnil in Hperm. simpl in Hperm.
  symmetry in Hperm. apply Permutation_nil_r in Hperm.
  assert (Hin : (p, cid) ∈ leaves [] (Tag name contents)).
  { apply elem_of_leaves. exists p. auto. }
  rewrite Hperm in Hin. inversion Hin.
- intros Hnone.
  assert (Hleaves : leaves [] (Tag name contents) = []).
  { destruct (leaves [] (Tag name contents)) as [|[p cid] l] eqn:El; [reflexivity|].
    exfalso. apply (Hnone p cid).
    assert (Hin : (p, cid) ∈ leaves [] (Tag name contents))
      by (rewrite El; apply list_elem_of_here).
    apply elem_of_leaves in Hin as (rel & -> & He). exact He. }
  rewrite Hleaves in Hperm. apply Permutation_nil_r in Hperm.
  destruct (get_text_group_inline (Tag name contents)) as [|kv gm] eqn:Egm; [reflexivity|].
  exfalso.
  destruct (elem_of_group_map (Tag name contents) kv) as (g & Hkv & Hne & _).
  { rewrite Egm. apply list_elem_of_here. }
  unfold grouped_handles in Hperm. simpl in Hperm.
  apply app_eq_nil in Hperm as [Hg _].
  rewrite Hkv, group_handles_to_group in Hg.
  apply fmap_nil_inv in Hg. contradiction.
Qed.

(** Every tag at or below the node is an inline tag. *)
Fixpoint all_inline (t : Node) : bool :=
  match t with
  | Tag n cs => is_inline_ele n && forallb all_inline cs
  | _ => true
  end.

Lemma children_loop_all_inline here cs :
  Forall (fun c => all_inline c = true ->
            forall h st, all_groups (traversal h c st).2 = all_groups st) cs ->
  forallb all_inline cs = true ->
  forall cid group st,
    all_groups (children_loop here true cs cid group st).2 = all_groups st.
Proof.
induction 1 as [|c cs Hc _ IH]; intros Hall cid group st; [reflexivity|].
simpl in Hall. apply andb_prop in Hall as [Hcin Hrest].
destruct c as [s|s|s|m sub]; simpl.
- destruct (PyStr.only_ignored s); rewrite IH by exact Hrest; reflexivity.
- apply IH. exact Hrest.
- apply IH. exact Hrest.
- destruct (String.eqb m "script"); [apply IH; exact Hrest|].
  specialize (Hc Hcin (here ++ [cid]) st).
  destruct (traversal (here ++ [cid]) (Tag m sub) st) as [o st1].
  simpl in Hc. destruct o; simpl; rewrite IH by exact Hrest; exact Hc.
Qed.

Lemma traversal_all_inline ele :
  all_inline ele = true ->
  forall h st, all_groups (traversal h ele st).2 = all_groups st.
Proof.
induction ele as [s|s|s|n cs IH] using Node_nested_ind; intros Hall h st;
  try reflexivity.
simpl in Hall. apply andb_prop in Hall as [Hn Hcs].
rewrite traversal_Tag. cbv zeta. rewrite Hn.
pose proof (children_loop_all_inline h cs IH Hcs 0%nat [] st) as Hl.
destruct (children_loop h true cs 0%nat [] st) as [g st']. exact Hl.
Qed.

(** An inline element hands the group of its text to its parent: called on
    a root all of whose tags are inline, the extractor appends no
    group. *)
Lemma all_inline_no_group (element : Node) :
  all_inline element = true ->
  get_text_group_inline element = [].
Proof.
intros Hall. rewrite get_text_group_inline_sorted. unfold sorted_groups.
rewrite (traversal_all_inline element Hall [] (mkT 0 [])). reflexivity.
Qed.

End ExtractMore.

Module ExtractMoreExamples.
Import Extract ExtractFacts ExtractMore ExtractExamples.
Open Scope string_scope.

(** <p>Hello, a line feed, world</p> *)
Definition wrapped : Node :=
  Tag "[document]" [Tag "p" [NavigableString ("Hello" +:+ nl +:+ "world")]].

Lemma shred_is_leaf_text_without_line_feeds_witness :
  ("0", mkInlineGroup ["Helloworld"] [0%nat] [[0%nat]]) ∈ get_text_group_inline wrapped
  /\ exists s,
       Tree.get [0; 0]%nat wrapped = Some (NavigableString s)
       /\ "Helloworld" = PyStr.strip_newlines s.
Proof.
assert (Hin : ("0", mkInlineGroup ["Helloworld"] [0%nat] [[0%nat]])
              ∈ get_text_group_inline wrapped)
  by (vm_compute; apply list_elem_of_here).
split; [exact Hin|].
destruct (shred_is_leaf_text_without_line_feeds wrapped
            ("0", mkInlineGroup ["Helloworld"] [0%nat] [[0%nat]])
            0 [0%nat] 0 "Helloworld" Hin eq_refl eq_refl eq_refl)
  as [(s & Hget & _ & Hs) _].
exists s. split; [exact Hget | exact Hs].
Defined.

(** A page of a doctype, a line feed and a script. *)
Definition no_text : Node :=
  Tag "[document]" [Doctype "html"; NavigableString nl;
                    Tag "script" [NavigableString "x=1"]].

Lemma no_group_iff_no_eligible_leaf_witness :
  is_inline_ele "[document]" = false
  /\ forall p cid, ~ eligible_leaf no_text p cid.
Proof.
split; [reflexivity|].
apply (proj1 (no_group_iff_no_eligible_leaf "[document]"
                [Doctype "html"; NavigableString nl;
                 Tag "script" [NavigableString "x=1"]] eq_refl)).
reflexivity.
Defined.

End ExtractMoreExamples.

(** ** More on the extractor: the order of the groups *)

Module ExtractOrder.
Import Extract ExtractFacts ExtractMore.

(** The item's counter is its place among the leaves [L], counted from
    [base]. *)
Definition placed (base : nat) (L : list (path * nat)) (x : item) : Prop :=
  (base <= i_cnt x)%nat /\ L !! (i_cnt x - base)%nat = Some (handle x).

(** The counters of a group increase from each entry to the next. *)
Definition rising (g : list item) : Prop :=
  forall a b x y, (a < b)%nat -> g !! a = Some x -> g !! b = Some y ->
                  (i_cnt x < i_cnt y)%nat.

Definition well_counted (base : nat) (L : list (path * nat)) (g : list item) : Prop :=
  Forall (placed base L) g /\ rising g.

Lemma placed_app base L L' x : placed base L x -> placed base (L ++ L') x.
Proof.
intros [Hle Hx]. split; [exact Hle|]. apply lookup_app_l_Some. exact Hx.
Qed.

Lemma placed_lt base L x : placed base L x -> (i_cnt x < base + length L)%nat.
Proof. intros [Hle Hx]. apply lookup_lt_Some in Hx. lia. Qed.

Lemma placed_shift base L L' x :
  placed (base + length L) L' x -> placed base (L ++ L') x.
Proof.
intros [Hle Hx]. split; [lia|].
rewrite lookup_app_r by lia.
replace (i_cnt x - base - length L)%nat with (i_cnt x - (base + length L))%nat by lia.
exact Hx.
Qed.

Lemma well_counted_app base L L' g :
  well_counted base L g -> well_counted base (L ++ L') g.
Proof.
intros [Hp Hr]. split; [|exact Hr].
eapply Forall_impl; [exact Hp|]. intros x. apply placed_app.
Qed.

Lemma well_counted_shift base L L' g :
  well_counted (base + length L) L' g -> well_counted base (L ++ L') g.
Proof.
intros [Hp Hr]. split; [|exact Hr].
eapply Forall_impl; [exact Hp|]. intros x. apply placed_shift.
Qed.

Lemma rising_nil : rising [].
Proof. intros a b x y _ H. destruct a; discriminate. Qed.

(** Two groups in a row, the counters of the first below those of the
    second. *)
Lemma rising_app g1 g2 (m : nat) :
  rising g1 -> rising g2 ->
  Forall (fun x => (i_cnt x < m)%nat) g1 ->
  Forall (fun y => (m <= i_cnt y)%nat) g2 ->
  rising (g1 ++ g2).
Proof.
intros H1 H2 Hlow Hhigh a b x y Hab Ha Hb.
rewrite Forall_forall in Hlow. rewrite Forall_forall in Hhigh.
destruct (decide (b < length g1)%nat) as [Hb1|Hb1].
- rewrite lookup_app_l in Ha by lia. rewrite lookup_app_l in Hb by lia.
  exact (H1 a b x y Hab Ha Hb).
- rewrite lookup_app_r in Hb by lia.
  assert (Hy : (m <= i_cnt y)%nat)
    by (apply Hhigh; eapply list_elem_of_lookup_2; exact Hb).
  destruct (decide (a < length g1)%nat) as [Ha1|Ha1].
  + rewrite lookup_app_l in Ha by lia.
    assert (Hx : (i_cnt x < m)%nat)
      by (apply Hlow; eapply list_elem_of_lookup_2; exact Ha).
    lia.
  + rewrite lookup_app_r in Ha by lia.
    apply (H2 (a - length g1)%nat (b - length g1)%nat); [lia | assumption | assumption].
Qed.

(** What one call of [traversal] does to the counter, and how the items
    it collects are counted. *)
Definition counted (st st' : tstate) (pending : list item) (L : list (path * nat))
  : Prop :=
  cnt st' = (cnt st + length L)%nat
  /\ exists new,
       all_groups st' = all_groups st ++ new
       /\ Forall (well_counted (cnt st) L) new
       /\ well_counted (cnt st) L pending.

Lemma children_loop_counted here inline cs :
  Forall (fun c => forall h st,
            counted st (traversal h c st).2 (opt_group (traversal h c st).1)
              (leaves h c)) cs ->
  forall cid group st base Lpre,
    cnt st = (base + length Lpre)%nat ->
    well_counted base Lpre group ->
    cnt (children_loop here inline cs cid group st).2
    = (base + length (Lpre ++ leaves_from here cs cid))%nat
    /\ exists new,
         all_groups (children_loop here inline cs cid group st).2
         = all_groups st ++ new
         /\ Forall (well_counted base (Lpre ++ leaves_from here cs cid)) new
         /\ well_counted base (Lpre ++ leaves_from here cs cid)
              (children_loop here inline cs cid group st).1.
Proof.
induction 1 as [|c cs Hc _ IH]; intros cid group st base Lpre Hcnt Hgroup.
- simpl. rewrite app_nil_r. split; [exact Hcnt|].
  exists []. rewrite app_nil_r. split; [reflexivity|]. split; [constructor | exact Hgroup].
- rewrite leaves_from_cons.
  destruct c as [s|s|s|n sub].
  + simpl. destruct (PyStr.only_ignored s) eqn:Hs; simpl.
    * apply IH; assumption.
    * assert (Hnew : well_counted base (Lpre ++ [(here, cid)])
                       (group ++ [mkItem (PyStr.strip_newlines s) cid here (cnt st)])).
      { destruct Hgroup as [Hp Hr]. split.
        - apply Forall_app. split.
          + eapply Forall_impl; [exact Hp|]. intros x. apply placed_app.
          + constructor; [|constructor]. split; simpl; [lia|].
            rewrite lookup_app_r by lia.
            replace (cnt st - base - length Lpre)%nat with 0%nat by lia. reflexivity.
        - apply (rising_app _ _ (cnt st)); [exact Hr | | |].
          + intros a b x y Hab Ha Hb. apply lookup_lt_Some in Hb. simpl in Hb. lia.
          + eapply Forall_impl; [exact Hp|]. intros x Hx.
            apply placed_lt in Hx. simpl. lia.
          + constructor; [simpl; lia | constructor]. }
      destruct (IH (S cid)
                  (group ++ [mkItem (PyStr.strip_newlines s) cid here (cnt st)])
                  (mkT (S (cnt st)) (all_groups st)) base
                  (Lpre ++ [(here, cid)])) as (Hc' & new & Hall & Hnews & Hfin);
        [simpl; rewrite length_app; simpl; lia | exact Hnew|].
      rewrite <- app_assoc in Hc', Hnews, Hfin. simpl in Hc', Hnews, Hfin.
      split; [exact Hc'|]. exists new. auto.
  + simpl. apply IH; assumption.
  + simpl. apply IH; assumption.
  + simpl. destruct (String.eqb n "script"); simpl; [apply IH; assumption|].
    specialize (Hc (here ++ [cid]) st).
    destruct (traversal (here ++ [cid]) (Tag n sub) st) as [o st1] eqn:Et.
    simpl in Hc. destruct Hc as (Hcnt1 & new1 & Hall1 & Hnews1 & Hpend1).
    set (Lc := leaves (here ++ [cid]) (Tag n sub)) in *.
    assert (Hcnt1' : cnt st1 = (base + length (Lpre ++ Lc))%nat)
      by (rewrite length_app; lia).
    rewrite Hcnt in Hnews1, Hpend1.
    assert (Hnews1' : Forall (well_counted base (Lpre ++ Lc)) new1).
    { eapply Forall_impl; [exact Hnews1|]. intros g. apply well_counted_shift. }
    pose proof Hpend1 as Hpend0.
    apply well_counted_shift in Hpend1.
    assert (Hgroup' : well_counted base (Lpre ++ Lc) group)
      by (apply well_counted_app; exact Hgroup).
    assert (Hlift : forall rest new,
              Forall (well_counted base ((Lpre ++ Lc) ++ rest)) new ->
              Forall (well_counted base ((Lpre ++ Lc) ++ rest)) (new1 ++ new)).
    { intros rest new Hn. apply Forall_app. split; [|exact Hn].
      eapply Forall_impl; [exact Hnews1'|]. intros g. apply well_counted_app. }
    rewrite app_assoc.
    destruct o as [subg|]; simpl in Hpend1, Hpend0.
    * assert (Hjoin : well_counted base (Lpre ++ Lc) (group ++ subg)).
      { destruct Hgroup' as [Hp Hr], Hpend1 as [Hp1 Hr1]. split.
        - apply Forall_app. auto.
        - apply (rising_app _ _ (cnt st)); [exact Hr | exact Hr1 | |].
          + destruct Hgroup as [Hp0 _].
            eapply Forall_impl; [exact Hp0|]. intros x Hx.
            apply placed_lt in Hx. simpl. lia.
          + destruct Hpend0 as [Hp0 _].
            eapply Forall_impl; [exact Hp0|]. intros x [Hle _]. simpl. lia. }
      destruct (IH (S cid) (group ++ subg) st1 base (Lpre ++ Lc) Hcnt1' Hjoin)
        as (Hc' & new & Hall & Hnews & Hfin).
      split; [exact Hc'|]. exists (new1 ++ new).
      split; [rewrite Hall, Hall1, app_assoc; reflexivity|].
      split; [apply Hlift; exact Hnews | exact Hfin].
    * destruct (negb inline && truthy group) eqn:Eflush.
      -- destruct (IH (S cid) [] (append_group group st1) base (Lpre ++ Lc))
           as (Hc' & new & Hall & Hnews & Hfin);
           [exact Hcnt1' | split; [constructor | apply rising_nil]|].
         split; [exact Hc'|]. exists (new1 ++ [group] ++ new).
         split; [rewrite Hall; simpl; rewrite Hall1, <- !app_assoc; reflexivity|].
         split; [|exact Hfin].
         apply Hlift. constructor; [|exact Hnews].
         apply well_counted_app. exact Hgroup'.
      -- destruct (IH (S cid) group st1 base (Lpre ++ Lc) Hcnt1' Hgroup')
           as (Hc' & new & Hall & Hnews & Hfin).
         split; [exact Hc'|]. exists (new1 ++ new).
         split; [rewrite Hall, Hall1, app_assoc; reflexivity|].
         split; [apply Hlift; exact Hnews | exact Hfin].
Qed.


Lemma traversal_counted ele :
  forall h st,
    counted st (traversal h ele st).2 (opt_group (traversal h ele st).1)
      (leaves h ele).
Proof.
induction ele as [s|s|s|n cs IH] using Node_nested_ind; intros h st;
  try (split; [simpl; lia|]; exists []; rewrite app_nil_r;
       split; [reflexivity|]; split; [constructor|];
       split; [constructor | apply rising_nil]).
rewrite traversal_Tag, leaves_Tag. cbv zeta.
destruct (children_loop_counted h (is_inline_ele n) cs IH 0%nat [] st (cnt st) [])
  as (Hcnt & new & Hall & Hnews & Hfin);
  [simpl; lia | split; [constructor | apply rising_nil]|].
simpl in Hcnt, Hnews, Hfin.
destruct (children_loop h (is_inline_ele n) cs 0%nat [] st) as [g st'].
simpl in *. destruct (is_inline_ele n); simpl.
- split; [exact Hcnt|]. exists new. auto.
- destruct (truthy g) eqn:Hg; simpl.
  + split; [exact Hcnt|]. exists (new ++ [g]). simpl. rewrite Hall, app_assoc.
    split; [reflexivity|]. split.
    * apply Forall_app. split; [exact Hnews|]. constructor; [exact Hfin | constructor].
    * split; [constructor | apply rising_nil].
  + split; [exact Hcnt|]. exists new. split; [exact Hall|]. split; [exact Hnews|].
    split; [constructor | apply rising_nil].
Qed.

(** The sort puts the groups in the order of their first counters. *)
Definition first_le (g h : list item) : Prop := (first_cnt g <= first_cnt h)%nat.

Lemma insert_group_sorted g l :
  StronglySorted first_le l -> StronglySorted first_le (insert_group g l).
Proof.
induction 1 as [|h l Hl IH Hh]; simpl.
- repeat constructor.
- destruct (Nat.ltb_spec (first_cnt g) (first_cnt h)) as [Hlt|Hge].
  + constructor; [constructor; assumption|].
    constructor; [unfold first_le; lia|].
    eapply Forall_impl; [exact Hh|]. unfold first_le. intros z Hz. simpl in Hz. lia.
  + constructor; [exact IH|].
    rewrite insert_group_perm. constructor; [exact Hge | exact Hh].
Qed.

Lemma sort_groups_sorted l : StronglySorted first_le (sort_groups l).
Proof.
unfold sort_groups.
assert (H : forall acc, StronglySorted first_le acc ->
            StronglySorted first_le (fold_left (fun acc g => insert_group g acc) l acc)).
{ induction l as [|g l IH]; intros acc Hacc; simpl; [exact Hacc|].
  apply IH, insert_group_sorted, Hacc. }
apply H. constructor.
Qed.

Lemma StronglySorted_lookup {A} (R : relation A) (l : list A) a b x y :
  StronglySorted R l -> (a < b)%nat -> l !! a = Some x -> l !! b = Some y -> R x y.
Proof.
intros Hs. revert a b. induction Hs as [|z l _ IH Hz]; intros a b Hab Ha Hb.
- destruct a; discriminate.
- destruct b as [|b]; [lia|]. destruct a as [|a]; simpl in *.
  + injection Ha as <-. rewrite Forall_forall in Hz. apply Hz.
    eapply list_elem_of_lookup_2. exact Hb.
  + apply (IH a b); [lia | assumption | assumption].
Qed.

Lemma sorted_groups_counted element :
  Forall (well_counted 0 (leaves [] element)) (sorted_groups element).
Proof.
unfold sorted_groups. rewrite sort_groups_perm.
destruct (traversal_counted element [] (mkT 0 [])) as (_ & new & Hall & Hnews & _).
rewrite Hall. exact Hnews.
Qed.

(** No leaf is in two groups, whatever the root. *)
Lemma grouped_handles_NoDup element :
  NoDup (grouped_handles (get_text_group_inline element)).
Proof.
rewrite get_text_group_inline_sorted, grouped_handles_imap.
unfold sorted_groups. rewrite sort_groups_perm.
destruct (traversal_adds element [] (mkT 0 [])) as (new & Hall & _ & Hperm).
simpl in Hall. rewrite Hall.
pose proof (leaves_NoDup element []) as Hnd. rewrite <- Hperm, fmap_app in Hnd.
apply NoDup_app in Hnd as (Hnd & _). exact Hnd.
Qed.

Lemma lookup_group_handles g j h :
  group_handles (to_group g) !! j = Some h ->
  exists x, g !! j = Some x /\ handle x = h.
Proof.
rewrite group_handles_to_group, list_lookup_fmap.
destruct (g !! j) as [x|]; [|discriminate]. simpl. intros H. injection H as <-. eauto.
Qed.

(** X4: The map follows the document.  With [leaves [] element] the eligible
    leaves in the order the traversal meets them, first to last through
    the children of each tag: the entries of a group come in that order,
    and so do the first entries of the groups, read in the order of the
    map. *)
Theorem groups_follow_document_order (element : Node) :
  (forall kv a b x y,
      kv ∈ get_text_group_inline element -> (a < b)%nat ->
      group_handles kv.2 !! a = Some x -> group_handles kv.2 !! b = Some y ->
      exists i j, (i < j)%nat /\ leaves [] element !! i = Some x
                  /\ leaves [] element !! j = Some y)
  /\ (forall a b kv kv' x y,
        (a < b)%nat ->
        get_text_group_inline element !! a = Some kv ->
        get_text_group_inline element !! b = Some kv' ->
        group_handles kv.2 !! 0%nat = Some x ->
        group_handles kv'.2 !! 0%nat = Some y ->
        exists i j, (i < j)%nat /\ leaves [] element !! i = Some x
                    /\ leaves [] element !! j = Some y).
Proof.
pose proof (sorted_groups_counted element) as Hcounted.
rewrite Forall_forall in Hcounted.
assert (Hlook : forall a kv,
          get_text_group_inline element !! a = Some kv ->
          exists g, sorted_groups element !! a = Some g /\ kv.2 = to_group g).
{ intros a kv. rewrite get_text_group_inline_sorted, list_lookup_imap.
  destruct (sorted_groups element !! a) as [g|]; [|discriminate].
  intros H. injection H as <-. eauto. }
assert (Hplaced : forall g x, g ∈ sorted_groups element -> x ∈ g ->
          leaves [] element !! i_cnt x = Some (handle x)).
{ intros g x Hg Hx. destruct (Hcounted g Hg) as [Hp _].
  rewrite Forall_forall in Hp. destruct (Hp x Hx) as [_ H].
  rewrite Nat.sub_0_r in H. exact H. }
split.
- intros kv a b x y Hin Hab Ha Hb.
  apply list_elem_of_lookup_1 in Hin as [k Hk].
  destruct (Hlook k kv Hk) as (g & Hg & Hkv). rewrite Hkv in Ha, Hb.
  apply lookup_group_handles in Ha as (ix & Hia & <-).
  apply lookup_group_handles in Hb as (iy & Hib & <-).
  assert (Hgin : g ∈ sorted_groups element)
    by (eapply list_elem_of_lookup_2; exact Hg).
  destruct (Hcounted g Hgin) as [_ Hr].
  exists (i_cnt ix), (i_cnt iy). split; [exact (Hr a b ix iy Hab Hia Hib)|].
  split; eapply Hplaced; try exact Hgin; eapply list_elem_of_lookup_2; eassumption.
- intros a b kv kv' x y Hab Hka Hkb Hx Hy.
  destruct (Hlook a kv Hka) as (g & Hg & Hkv).
  destruct (Hlook b kv' Hkb) as (g' & Hg' & Hkv').
  pose proof Hx as Hx0. pose proof Hy as Hy0.
  rewrite Hkv in Hx. rewrite Hkv' in Hy.
  apply lookup_group_handles in Hx as (ix & Hix & <-).
  apply lookup_group_handles in Hy as (iy & Hiy & <-).
  assert (Hgin : g ∈ sorted_groups element)
    by (eapply list_elem_of_lookup_2; exact Hg).
  assert (Hgin' : g' ∈ sorted_groups element)
    by (eapply list_elem_of_lookup_2; exact Hg').
  pose proof (Hplaced g ix Hgin ltac:(eapply list_elem_of_lookup_2; exact Hix)) as Hpx.
  pose proof (Hplaced g' iy Hgin' ltac:(eapply list_elem_of_lookup_2; exact Hiy)) as Hpy.
  pose proof (StronglySorted_lookup first_le _ a b g g'
                (sort_groups_sorted _) Hab Hg Hg') as Hle.
  unfold first_le, first_cnt in Hle.
  destruct g as [|x0 g]; [discriminate|]. destruct g' as [|y0 g']; [discriminate|].
  simpl in Hix, Hiy. injection Hix as ->. injection Hiy as ->.
  exists (i_cnt ix), (i_cnt iy). split; [|split; assumption].
  destruct (decide (i_cnt ix = i_cnt iy)) as [Heq|Hne]; [|lia].
  exfalso. assert (Hh : handle iy = handle ix) by congruence.
  assert (a = b); [|lia].
  eapply (NoDup_join_unique _ (handle ix) a b);
    [exact (grouped_handles_NoDup element) | | | |].
  + rewrite list_lookup_fmap, Hka. reflexivity.
  + eapply list_elem_of_lookup_2. exact Hx0.
  + rewrite list_lookup_fmap, Hkb. reflexivity.
  + rewrite <- Hh. eapply list_elem_of_lookup_2. exact Hy0.
Qed.

End ExtractOrder.

(** ** More on the segmenter: keys, sizes and the number of segments *)

Module SegmentMore.
Import Segment SegmentFacts.

Section WithCounter.
Variable token_counter : string -> nat.
Variables max_token len_seg : Z.

(** The keys of a segment are [str(0)], [str(1)], ... in its order. *)
Definition numbered (s : dict InlineGroup) : Prop :=
  fst <$> s = PyStr.str_of_nat <$> seq 0 (length s).

(** The total count of the segments. *)
Definition segs_total (segs : list (dict InlineGroup)) : Z :=
  foldr (fun s acc => token_sum token_counter s + acc) 0 segs.

(** A segment the loop has closed. *)
Definition closed (s : dict InlineGroup) : Prop :=
  s <> [] /\ numbered s
  /\ len_seg < token_sum token_counter s <= len_seg + max_token.

Record sinv (st : sstate) : Prop := mkSinv {
  sinv_keyed : keyed st;
  sinv_tokens : token_cnt st = token_sum token_counter (seg st);
  sinv_bound : token_cnt st <= len_seg + max_token;
  sinv_closed : Forall closed (ret st)
}.

Lemma keyed_cnt st : keyed st -> cnt st = length (seg st).
Proof.
unfold keyed. intros H. apply (f_equal length) in H.
rewrite !length_fmap, length_seq in H. congruence.
Qed.

Lemma keyed_numbered st : keyed st -> numbered (seg st).
Proof.
intros H. unfold numbered. rewrite <- (keyed_cnt st H). exact H.
Qed.

Lemma token_sum_app a b :
  token_sum token_counter (a ++ b)
  = token_sum token_counter a + token_sum token_counter b.
Proof.
unfold token_sum. induction a as [|x a IH]; simpl; [reflexivity|].
rewrite IH. lia.
Qed.

Lemma segs_total_app a b : segs_total (a ++ b) = segs_total a + segs_total b.
Proof.
unfold segs_total. induction a as [|x a IH]; simpl; [reflexivity|].
rewrite IH. lia.
Qed.

Lemma keyed_fresh st :
  keyed st -> Forall (fun kv => kv.1 <> PyStr.str_of_nat (cnt st)) (seg st).
Proof.
intros Hk. apply Forall_forall. intros [k v] Hin Heq. simpl in Heq.
assert (Hkin : k ∈ fst <$> seg st)
  by (apply list_elem_of_fmap; exists (k, v); auto).
rewrite Hk, Heq in Hkin. apply list_elem_of_fmap in Hkin as (m & Hm & Hin').
apply str_of_nat_inj in Hm. subst m.
apply list_elem_of_In, in_seq in Hin'. lia.
Qed.

Hypothesis len_seg_nonneg : 0 <= len_seg.

Lemma step_sinv st kv :
  sinv st ->
  let st' := step token_counter max_token len_seg st kv in
  sinv st'
  /\ segs_total (ret st') + token_cnt st'
     = segs_total (ret st) + token_cnt st
       + (if fits token_counter max_token kv.2 then n_tokens token_counter kv.2 else 0).
Proof.
intros [Hk Htok Hbound Hclosed]. unfold step, fits. cbv zeta.
destruct (Z.ltb_spec max_token (n_tokens token_counter kv.2)) as [Hbig|Hfit]; simpl.
{ split; [split; assumption | lia]. }
set (st1 := if (len_seg <? token_cnt st) && truthy (seg st)
            then mkS (ret st ++ [seg st]) 0 0 [] else st).
assert (H1 : keyed st1
             /\ token_cnt st1 = token_sum token_counter (seg st1)
             /\ token_cnt st1 <= len_seg
             /\ Forall closed (ret st1)
             /\ segs_total (ret st1) + token_cnt st1
                = segs_total (ret st) + token_cnt st).
{ subst st1. destruct (Z.ltb_spec len_seg (token_cnt st)) as [Hover|Hunder];
    [|simpl; auto].
  destruct (truthy (seg st)) eqn:Htr; cbn [andb].
  - cbn [ret token_cnt cnt seg].
    split; [reflexivity|]. split; [reflexivity|]. split; [lia|]. split.
    + apply Forall_app. split; [exact Hclosed|]. constructor; [|constructor].
      split; [destruct (seg st); [discriminate | congruence]|]. split.
      * apply keyed_numbered. exact Hk.
      * rewrite <- Htok. lia.
    + rewrite segs_total_app. simpl. rewrite <- Htok. lia.
  - destruct (seg st) eqn:Hseg; [|discriminate].
    simpl in Htok. lia. }
destruct H1 as (Hk1 & Htok1 & Hle1 & Hclosed1 & Htotal1).
rewrite dict_set_fresh by (apply keyed_fresh; exact Hk1).
split; [split; simpl|simpl; lia].
- unfold keyed in *. cbn [seg cnt]. rewrite fmap_app, Hk1, seq_S, fmap_app. reflexivity.
- rewrite token_sum_app, Htok1. simpl. lia.
- lia.
- exact Hclosed1.
Qed.

Lemma fold_step_sinv groups_map : forall st,
  sinv st ->
  let st' := fold_left (step token_counter max_token len_seg) groups_map st in
  sinv st'
  /\ segs_total (ret st') + token_cnt st'
     = segs_total (ret st) + token_cnt st
       + token_sum token_counter
           (List.filter (fun kv => fits token_counter max_token kv.2) groups_map).
Proof.
induction groups_map as [|kv l IH]; intros st Hst; simpl.
- split; [exact Hst | lia].
- destruct (step_sinv st kv Hst) as [Hst' Heq].
  destruct (IH _ Hst') as [Hfin Heq']. split; [exact Hfin|].
  rewrite Heq', Heq.
  destruct (fits token_counter max_token kv.2); simpl; lia.
Qed.

Lemma closed_total segs :
  Forall closed segs -> (len_seg + 1) * Z.of_nat (length segs) <= segs_total segs.
Proof.
induction 1 as [|s segs (_ & _ & Hs & _) _ IH]; simpl; [lia|]. lia.
Qed.

End WithCounter.

Lemma token_sum_filter_le token_counter (P : string * InlineGroup -> bool) gm :
  token_sum token_counter (List.filter P gm) <= token_sum token_counter gm.
Proof.
induction gm as [|kv gm IH]; simpl; [lia|].
destruct (P kv); simpl; unfold n_tokens in *; lia.
Qed.

(** [math.ceil(a / b)] is the least integer whose product with [b]
    reaches [a]. *)
Lemma ceil_div_spec a b :
  0 < b -> a <= b * ceil_div a b /\ b * (ceil_div a b - 1) < a.
Proof.
intros Hb. unfold ceil_div.
pose proof (Z.div_mod (- a) b ltac:(lia)) as Hdm.
pose proof (Z.mod_pos_bound (- a) b Hb) as Hm. nia.
Qed.

(** The running sum of the loop, unfolded. *)
Definition len_seg_of (token_counter : string -> nat) (groups_map : dict InlineGroup)
    (max_token : Z) : Z :=
  ceil_div (token_sum token_counter groups_map)
    (ceil_div (token_sum token_counter groups_map) max_token).

Lemma segment_groups_map_inv token_counter groups_map max_token :
  0 < max_token ->
  token_sum token_counter groups_map <> 0 ->
  let total := token_sum token_counter groups_map in
  let n_seg := ceil_div total max_token in
  let len_seg := len_seg_of token_counter groups_map max_token in
  exists st,
    segment_groups_map token_counter groups_map max_token = inr (ret st ++ [seg st])
    /\ 0 < n_seg /\ 0 < len_seg <= max_token /\ total <= n_seg * len_seg
    /\ sinv token_counter max_token len_seg st
    /\ segs_total token_counter (ret st) + token_cnt st <= total.
Proof.
intros Hmax Hnz. cbv zeta. unfold segment_groups_map, len_seg_of. cbv zeta.
pose proof (token_sum_nonneg token_counter groups_map) as Hnn.
set (total := token_sum token_counter groups_map) in *.
destruct (Z.eqb_spec total 0) as [?|_]; [contradiction|].
destruct (Z.eqb_spec max_token 0) as [?|_]; [lia|].
pose proof (ceil_div_pos total max_token ltac:(lia) Hmax) as Hn.
destruct (Z.eqb_spec (ceil_div total max_token) 0) as [?|_]; [lia|].
set (n_seg := ceil_div total max_token) in *.
pose proof (ceil_div_pos total n_seg ltac:(lia) Hn) as Hl.
set (len_seg := ceil_div total n_seg) in *.
pose proof (ceil_div_spec total max_token Hmax) as [Hn1 Hn2]. fold n_seg in Hn1, Hn2.
pose proof (ceil_div_spec total n_seg Hn) as [Hl1 Hl2]. fold len_seg in Hl1, Hl2.
assert (Hlm : len_seg <= max_token) by nia.
destruct (fold_step_sinv token_counter max_token len_seg ltac:(lia) groups_map
            (mkS [] 0 0 [])) as [Hinv Htot].
{ split; simpl; [reflexivity | reflexivity | lia | constructor]. }
eexists. split; [reflexivity|].
split; [exact Hn|]. split; [lia|]. split; [lia|]. split; [exact Hinv|].
rewrite Htot. simpl.
pose proof (token_sum_filter_le token_counter
              (fun kv => fits token_counter max_token kv.2) groups_map).
fold total in H. lia.
Qed.

(** X5: Whenever [segment_groups_map] returns, the keys of every segment are
    [str(0)], [str(1)], ... in the segment's order, whatever keys the
    groups had in the input, and no segment but the last is empty. *)
Theorem segments_are_keyed_anew
    (token_counter : string -> nat) (groups_map : dict InlineGroup)
    (max_token : Z) (segs : list (dict InlineGroup)) :
  segment_groups_map token_counter groups_map max_token = inr segs ->
  Forall numbered segs
  /\ forall i s, segs !! i = Some s -> (S i < length segs)%nat -> s <> [].
Proof.
unfold segment_groups_map. cbv zeta.
destruct (token_sum token_counter groups_map =? 0).
{ intros H. injection H as <-. split; [constructor|]. intros i s H. destruct i; discriminate. }
destruct (max_token =? 0); [discriminate|].
destruct (ceil_div (token_sum token_counter groups_map) max_token =? 0); [discriminate|].
set (len_seg := ceil_div _ (ceil_div _ _)).
intros H. injection H as <-.
assert (Hinv : forall l st,
          keyed st -> Forall (fun s => s <> [] /\ numbered s) (ret st) ->
          let st' := fold_left (step token_counter max_token len_seg) l st in
          keyed st' /\ Forall (fun s => s <> [] /\ numbered s) (ret st')).
{ clear. induction l as [|kv l IH]; intros st Hk Hret; simpl; [auto|].
  apply IH.
  - apply (step_spec token_counter max_token len_seg st kv Hk).
  - unfold step. cbv zeta.
    destruct (max_token <? n_tokens token_counter kv.2); [exact Hret|].
    destruct ((len_seg <? token_cnt st) && truthy (seg st)) eqn:E; simpl; [|exact Hret].
    apply andb_prop in E as [_ Htr].
    apply Forall_app. split; [exact Hret|]. constructor; [|constructor].
    split; [destruct (seg st); [discriminate | congruence]|].
    apply keyed_numbered. exact Hk. }
destruct (Hinv groups_map (mkS [] 0 0 [])) as [Hk Hret];
  [reflexivity | constructor|].
set (st := fold_left _ _ _) in *. clearbody st. split.
- apply Forall_app. split.
  + eapply Forall_impl; [exact Hret|]. intros s [_ Hs]. exact Hs.
  + constructor; [apply keyed_numbered; exact Hk | constructor].
- intros i s Hi Hlt. rewrite length_app in Hlt. simpl in Hlt.
  clear - Hi Hlt Hret.
  assert (Hi' : (i < length (ret st))%nat) by lia.
  rewrite lookup_app_l in Hi by exact Hi'.
  rewrite Forall_forall in Hret. apply Hret. eapply list_elem_of_lookup_2. exact Hi.
Qed.

(** X6: For a positive [max_token] and a non-zero total, both below
    2^53 so that the floats of the code carry the exact quotients, with
    [n_seg = ceil(total / max_token)] and [len_seg = ceil(total / n_seg)]:
    [len_seg] is positive and at most [max_token]; every segment holds at
    most [len_seg + max_token] tokens, hence at most twice [max_token];
    every segment but the last holds more than [len_seg]; and there are
    at most [n_seg] segments. *)
Theorem segments_are_bounded
    (token_counter : string -> nat) (groups_map : dict InlineGroup)
    (max_token : Z) :
  0 < max_token < 2 ^ 53 ->
  token_sum token_counter groups_map < 2 ^ 53 ->
  token_sum token_counter groups_map <> 0 ->
  exists segs,
    segment_groups_map token_counter groups_map max_token = inr segs
    /\ 0 < len_seg_of token_counter groups_map max_token <= max_token
    /\ Forall (fun s => token_sum token_counter s
                        <= len_seg_of token_counter groups_map max_token + max_token
                        /\ token_sum token_counter s <= 2 * max_token) segs
    /\ (forall i s, segs !! i = Some s -> (S i < length segs)%nat ->
                    len_seg_of token_counter groups_map max_token
                    < token_sum token_counter s)
    /\ Z.of_nat (length segs)
       <= ceil_div (token_sum token_counter groups_map) max_token.
Proof.
intros [Hmax _] _ Hnz.
destruct (segment_groups_map_inv token_counter groups_map max_token Hmax Hnz)
  as (st & Hrun & Hn & Hlen & Hprod & [Hk Htok Hbound Hclosed] & Htotal).
set (len_seg := len_seg_of token_counter groups_map max_token) in *.
exists (ret st ++ [seg st]). split; [exact Hrun|]. split; [exact Hlen|].
split; [|split].
- apply Forall_app. split.
  + eapply Forall_impl; [exact Hclosed|]. intros s (_ & _ & Hs). simpl. lia.
  + constructor; [|constructor]. rewrite <- Htok. lia.
- intros i s Hi Hlt. rewrite length_app in Hlt. simpl in Hlt.
  rewrite lookup_app_l in Hi by lia.
  rewrite Forall_forall in Hclosed.
  destruct (Hclosed s) as (_ & _ & Hs & _); [eapply list_elem_of_lookup_2; exact Hi|].
  exact Hs.
- rewrite length_app. simpl.
  pose proof (closed_total token_counter max_token len_seg (ret st) Hclosed) as Hc.
  assert (0 <= token_cnt st).
  { rewrite Htok. apply token_sum_nonneg. }
  nia.
Qed.

(** X7: With a [max_token] that is not positive and a non-zero total, both
    below 2^53 in absolute value so that the floats of the code carry
    the exact quotients, no group reaches a segment: the division by
    zero of [token_all / max_token] or of [token_all / n_seg] raises, or
    the one segment returned is empty. *)
Theorem nonpositive_max_token_keeps_no_group
    (token_counter : string -> nat) (groups_map : dict InlineGroup)
    (max_token : Z) :
  - 2 ^ 53 < max_token <= 0 ->
  token_sum token_counter groups_map < 2 ^ 53 ->
  token_sum token_counter groups_map <> 0 ->
  (max_token = 0 \/ token_sum token_counter groups_map < - max_token ->
   segment_groups_map token_counter groups_map max_token = inl ZeroDivisionError)
  /\ (max_token < 0 -> - max_token <= token_sum token_counter groups_map ->
      segment_groups_map token_counter groups_map max_token = inr [[]]).
Proof.
intros [_ Hmax] _ Hnz.
pose proof (token_sum_nonneg token_counter groups_map) as Hnn.
unfold segment_groups_map. cbv zeta.
set (total := token_sum token_counter groups_map) in *.
destruct (Z.eqb_spec total 0) as [?|_]; [contradiction|].
assert (Hskip : max_token < 0 -> forall len_seg l st,
          fold_left (step token_counter max_token len_seg) l st = st).
{ intros Hneg len_seg. induction l as [|kv l IH]; intros st; simpl; [reflexivity|].
  rewrite <- (IH st) at 2. f_equal. unfold step. cbv zeta.
  destruct (Z.ltb_spec max_token (n_tokens token_counter kv.2)) as [_|Hle];
    [reflexivity|]. unfold n_tokens in Hle. lia. }
assert (Hopp : max_token < 0 -> - total / max_token = total / - max_token).
{ intros Hneg. rewrite <- (Z.div_opp_opp total (- max_token)) by lia.
  rewrite Z.opp_involutive. reflexivity. }
split.
- intros [->|Hsmall]; [reflexivity|].
  destruct (Z.eqb_spec max_token 0) as [_|_]; [reflexivity|].
  assert (Hq : ceil_div total max_token = 0).
  { unfold ceil_div. rewrite Hopp by lia. rewrite Z.div_small by lia. reflexivity. }
  rewrite Hq. reflexivity.
- intros Hneg Hlarge.
  destruct (Z.eqb_spec max_token 0) as [?|_]; [lia|].
  destruct (Z.eqb_spec (ceil_div total max_token) 0) as [Hq|_].
  + exfalso. unfold ceil_div in Hq. rewrite Hopp in Hq by lia.
    assert (H0 : total / - max_token = 0) by lia.
    apply Z.div_small_iff in H0; lia.
  + rewrite Hskip by exact Hneg. reflexivity.
Qed.

End SegmentMore.

Module SegmentMoreExamples.
Import Segment SegmentFacts SegmentMore SegmentExamples.
Open Scope string_scope.

Lemma segments_are_keyed_anew_witness :
  segment_groups_map String.length four_groups 4
  = inr [[("0", one "abc"); ("1", one "de")]; [("0", one "fgh")]]
  /\ Forall numbered [[("0", one "abc"); ("1", one "de")]; [("0", one "fgh")]].
Proof.
split; [vm_compute; reflexivity|].
apply (segments_are_keyed_anew String.length four_groups 4
         [[("0", one "abc"); ("1", one "de")]; [("0", one "fgh")]]).
vm_compute. reflexivity.
Defined.

Lemma segments_are_bounded_witness :
  0 < 4 < 2 ^ 53 /\ token_sum String.length four_groups < 2 ^ 53
  /\ token_sum String.length four_groups <> 0
  /\ exists segs,
       segment_groups_map String.length four_groups 4 = inr segs
       /\ Z.of_nat (length segs) <= ceil_div (token_sum String.length four_groups) 4.
Proof.
split; [lia|]. split; [reflexivity|]. split; [vm_compute; discriminate|].
destruct (segments_are_bounded String.length four_groups 4)
  as (segs & Hrun & _ & _ & _ & Hn).
- lia.
- reflexivity.
- vm_compute. discriminate.
- exists segs. split; [exact Hrun | exact Hn].
Defined.

Lemma nonpositive_max_token_keeps_no_group_witness :
  - 2 ^ 53 < 0 <= 0 /\ token_sum String.length four_groups < 2 ^ 53
  /\ token_sum String.length four_groups <> 0
  /\ segment_groups_map String.length four_groups 0 = inl ZeroDivisionError.
Proof.
split; [lia|]. split; [reflexivity|]. split; [vm_compute; discriminate|].
apply (nonpositive_max_token_keeps_no_group String.length four_groups 0).
- lia.
- reflexivity.
- vm_compute. discriminate.
- left. reflexivity.
Defined.

End SegmentMoreExamples.

(** ** More on the fit-back reconstructor *)

Module FitMore.
Import Fit TreeFacts FitFacts FitTheorems.

(** The tree with the text of its plain strings blanked: its tags and
    their names, its comments and doctypes, and where the strings are. *)
Fixpoint skeleton (t : Node) : Node :=
  match t with
  | NavigableString _ => NavigableString ""
  | Tag n cs => Tag n (map skeleton cs)
  | c => c
  end.

Lemma skeleton_Tag n cs : skeleton (Tag n cs) = Tag n (skeleton <$> cs).
Proof. reflexivity. Qed.

Lemma get_skeleton p : forall t,
  Tree.get p (skeleton t) = skeleton <$> Tree.get p t.
Proof.
induction p as [|i p IH]; intros t; [reflexivity|].
destruct t as [s|s|s|n cs]; try reflexivity.
rewrite skeleton_Tag. simpl. rewrite list_lookup_fmap.
destruct (cs !! i) as [c|]; simpl; [apply IH | reflexivity].
Qed.

(** Trees of one skeleton have their plain strings at the same places. *)
Lemma skeleton_text_at t t' p :
  skeleton t' = skeleton t -> text_at t p -> text_at t' p.
Proof.
intros Hsk [s Hs].
pose proof (get_skeleton p t') as H'. rewrite Hsk, get_skeleton, Hs in H'.
unfold text_at. destruct (Tree.get p t') as [c|]; [|discriminate]. simpl in H'.
destruct c as [s'|s'|s'|n cs]; try discriminate. exists s'. reflexivity.
Qed.

Lemma replace_with_skeleton ele cid v : forall t t',
  Tree.replace_with ele cid v t = Some t' ->
  text_at t (ele ++ [cid]) ->
  skeleton t' = skeleton t.
Proof.
induction ele as [|i ele IH]; intros t t' Hr [s Hs]; simpl in *.
- destruct t as [x|x|x|n cs]; try discriminate.
  destruct (cs !! cid) as [c|] eqn:Hc; [|discriminate].
  injection Hr as <-. simpl in Hs. injection Hs as ->.
  rewrite !skeleton_Tag, list_fmap_insert. f_equal.
  apply list_insert_id. rewrite list_lookup_fmap, Hc. reflexivity.
- destruct t as [x|x|x|n cs]; try discriminate.
  destruct (cs !! i) as [c|] eqn:Hc; [|discriminate].
  destruct (Tree.replace_with ele cid v c) as [c'|] eqn:Hrc; [|discriminate].
  injection Hr as <-.
  rewrite !skeleton_Tag, list_fmap_insert. f_equal.
  apply list_insert_id. rewrite list_lookup_fmap, Hc. simpl. f_equal.
  symmetry. eapply IH; [exact Hrc | eexists; exact Hs].
Qed.

Section WithLib.
Context {lib : PyLib}.

(** *** [validate_fit_in] *)

(** X8: [validate_fit_in], case by case.  A count of shreds other than the
    group's gives the score 0 and a reason.  On equal counts the
    function does not return: it raises [ValueError], from [int] on a key
    that is not an integer and from [match_score] otherwise.  So a score
    it returns is 0 and comes with a reason, never with the empty one
    that ends the loop of [restruct]. *)
Theorem validate_fit_in_scores_and_reasons
    (shreds_in : dict string) (trans : string) (shreds_out : dict string) :
  (length shreds_in <> length shreds_out ->
   validate_fit_in shreds_in trans shreds_out
   = inr (0%Q, length_reason (length shreds_in) (length shreds_out)))
  /\ (length shreds_in = length shreds_out ->
      validate_fit_in shreds_in trans shreds_out = inl ValueError)
  /\ (forall score err,
        validate_fit_in shreds_in trans shreds_out = inr (score, err) ->
        score = 0%Q /\ err <> ""%string
        /\ length shreds_in <> length shreds_out).
Proof.
rewrite validate_fit_in_cases.
destruct (Nat.eqb_spec (length shreds_in) (length shreds_out)) as [Heq|Hne].
- split; [contradiction|]. split; [reflexivity|]. discriminate.
- split; [reflexivity|]. split; [contradiction|].
  intros score err H. injection H as <- <-.
  split; [reflexivity|]. split; [discriminate | exact Hne].
Qed.

(** *** The requests of [restruct] *)

Lemma restruct_loop_ext chat chat' shreds_in trans :
  (forall n, (n <= max_retry)%nat ->
             chat n (temperature_at n) = chat' n (temperature_at n)) ->
  forall k retry cands,
    (S max_retry - retry = k)%nat -> (retry <= max_retry)%nat ->
    restruct_loop chat shreds_in trans retry (temperature_at retry) cands
    = restruct_loop chat' shreds_in trans retry (temperature_at retry) cands.
Proof.
intros Hsame. induction k as [|k IH]; intros retry cands Hk Hle.
- unfold max_retry in *. lia.
- rewrite (restruct_loop_step chat), (restruct_loop_step chat'). cbv zeta.
  rewrite (Hsame retry Hle).
  destruct (attempt shreds_in trans (chat' retry (temperature_at retry)) cands)
    as [[|] c]; simpl; [reflexivity|].
  destruct (lt_dec max_retry (S retry)); [reflexivity|].
  apply (IH (S retry) c); unfold max_retry in *; lia.
Qed.

(** X10: [restruct] meets the service at the requests numbered 0 to
    [max_retry] only, the [n]-th at the temperature 0.01 * 1.6^n: two
    services that agree there give the same outcome. *)
Theorem restruct_asks_on_schedule
    (chat chat' : nat -> Q -> reply) (group : InlineGroup) (ori trans : string)
    (w : world) :
  (forall n, (n <= max_retry)%nat ->
             chat n (temperature_at n) = chat' n (temperature_at n)) ->
  restruct chat group ori trans w = restruct chat' group ori trans w.
Proof.
intros Hsame. unfold restruct. cbv zeta.
change (1 # 100) with (temperature_at 0).
rewrite (restruct_loop_ext chat chat' _ trans Hsame (S max_retry) 0%nat []);
  [reflexivity | reflexivity | unfold max_retry; lia].
Qed.

(** X11: No attempt of [restruct] ends its loop.  Whatever the service
    replies, the [max_retry + 1] requests are issued; the candidates are
    the replies that decode to a non-empty object whose count of shreds
    differs from the group's, in the order of the requests, each with
    the score 0; and a status that [restruct] returns is [Fail] or
    [Compromise]. *)
Theorem restruct_runs_every_attempt
    (chat : nat -> Q -> reply) (group : InlineGroup) (ori trans : string)
    (w : world) :
  requests chat group trans = S max_retry
  /\ candidates chat group trans
     = mjoin (added chat (shreds_of group) <$> seq 0 (S max_retry))
  /\ (forall c, c ∈ candidates chat group trans ->
                c.1 = 0%Q /\ c.2 <> [] /\ length c.2 <> group_len group)
  /\ (forall s w',
        restruct chat group ori trans w = Returns s w' ->
        s <> Success /\ calls w' = (calls w + S max_retry)%nat).
Proof.
destruct (restruct_runs chat group trans) as [Hc Hr].
split; [exact Hr|]. split; [exact Hc|]. split; [apply candidates_score_0|].
intros s w'. rewrite restruct_unfold, Hr.
destruct (candidates chat group trans) as [|c rest] eqn:Ec.
- intros H. injection H as <- <-. split; [discriminate | reflexivity].
- destruct (replace_contents group (max_from c rest).2 (soup w)) as [[e t]|t];
    [discriminate|].
  destruct (max_from_spec rest c) as [Hin _].
  destruct (candidates_score_0 chat group trans (max_from c rest)) as [H0 _];
    [rewrite Ec; exact Hin|].
  destruct (max_from c rest) as [score d]. simpl in H0. subst score.
  intros H. injection H as <- <-. split; [discriminate | reflexivity].
Qed.

(** *** Ties between candidates *)

(** X12: [max] returns the first of the candidates of the highest score: the
    candidate [restruct] applies is the earliest attempt that reached the
    best score, every attempt before it having scored strictly less. *)
Theorem restruct_prefers_the_earliest_best (rest : list (Q * dict string)) :
  forall c,
  exists i,
    (c :: rest) !! i = Some (max_from c rest)
    /\ (forall j x, (j < i)%nat -> (c :: rest) !! j = Some x ->
                    (x.1 < (max_from c rest).1)%Q)
    /\ (forall x, x ∈ c :: rest -> (x.1 <= (max_from c rest).1)%Q).
Proof.
induction rest as [|y rest IH]; intros c.
- exists 0%nat. simpl. split; [reflexivity|]. split; [intros j x Hj; lia|].
  intros x Hx. apply list_elem_of_singleton in Hx. subst. apply Qle_refl.
- pose proof (max_from_spec (y :: rest) c) as [_ Hmax].
  simpl in *. destruct (Qltb c.1 y.1) eqn:Hlt.
  + apply Qltb_lt in Hlt.
    destruct (IH y) as (i & Hi & Hbefore & Hall).
    exists (S i). split; [exact Hi|]. split; [|exact Hmax].
    intros [|j] x Hj Hx; simpl in Hx.
    * injection Hx as <-. eapply Qlt_le_trans; [exact Hlt|].
      apply Hall, list_elem_of_here.
    * apply (Hbefore j x); [lia | exact Hx].
  + apply Qltb_ge in Hlt.
    destruct (IH c) as (i & Hi & Hbefore & Hall).
    destruct i as [|i].
    * exists 0%nat. simpl in Hi. split; [exact Hi|].
      split; [intros j x Hj; lia | exact Hmax].
    * exists (S (S i)). simpl in Hi. split; [exact Hi|]. split; [|exact Hmax].
      intros [|[|j]] x Hj Hx; simpl in Hx.
      -- injection Hx as <-. apply (Hbefore 0%nat c); [lia | reflexivity].
      -- injection Hx as <-. eapply Qle_lt_trans; [exact Hlt|].
         apply (Hbefore 0%nat c); [lia | reflexivity].
      -- apply (Hbefore (S j) x); [lia | exact Hx].
Qed.

(** *** What a fit-in task leaves alone *)

Definition tree_of (r : (exn * Node) + Node) : Node :=
  match r with
  | inl (_, t) => t
  | inr t => t
  end.

(** [p] is not the path of an entry of the group. *)
Definition outside (g : InlineGroup) (p : path) : Prop :=
  forall j ele cid,
    elements g !! j = Some ele -> cids g !! j = Some cid -> p <> ele ++ [cid].

Lemma replace_contents_any g d : forall t,
  group_in_tree g t ->
  skeleton (tree_of (replace_contents g d t)) = skeleton t
  /\ forall p, text_at t p -> outside g p ->
       Tree.get p (tree_of (replace_contents g d t)) = Tree.get p t.
Proof.
induction d as [|[k v] d IH]; intros t Hg; simpl; [auto|].
destruct (int_of_str k) as [i|]; [|simpl; auto].
destruct (py_index (cids g) i) as [cid|] eqn:Hc; [|simpl; auto].
destruct (py_index (elements g) i) as [ele|] eqn:He; [|simpl; auto].
pose proof Hg as [[Hl1 Hl2] Hleaf].
pose proof (py_index_position _ _ _ Hc) as Hc'.
pose proof (py_index_position _ _ _ He) as He'.
rewrite <- Hl2 in He'.
pose proof (Hleaf _ _ _ He' Hc') as Hat.
destruct (Tree.replace_with ele cid v t) as [t1|] eqn:Hr; [|simpl; auto].
assert (Hg1 : group_in_tree g t1).
{ split; [split; assumption|]. intros j' e c Hj'e Hj'c.
  apply (replace_with_text_at _ _ _ _ _ Hr Hat). eauto. }
destruct (IH t1 Hg1) as [Hsk Hframe]. split.
- rewrite Hsk. eapply replace_with_skeleton; eassumption.
- intros p Hp Hout. rewrite Hframe; [| |exact Hout].
  + eapply replace_with_frame; [exact Hr | exact Hat | exact Hp |].
    eapply Hout; eassumption.
  + apply (replace_with_text_at _ _ _ _ _ Hr Hat). exact Hp.
Qed.

(** X13: Whatever the service replies, and whether it returns or raises,
    [restruct] on a group whose entries address text leaves changes the
    text of leaves of its group only: the skeleton of the tree is the one
    before and every plain string outside the group reads the same. *)
Theorem restruct_touches_its_group_only
    (chat : nat -> Q -> reply) (group : InlineGroup) (ori trans : string)
    (w : world) :
  group_in_tree group (soup w) ->
  skeleton (soup (Orchestrate.world_of (restruct chat group ori trans w)))
  = skeleton (soup w)
  /\ (forall p, text_at (soup w) p -> outside group p ->
        Tree.get p (soup (Orchestrate.world_of (restruct chat group ori trans w)))
        = Tree.get p (soup w)).
Proof.
intros Hg. rewrite restruct_unfold.
destruct (candidates chat group trans) as [|c rest]; [simpl; auto|].
destruct (replace_contents_any group (max_from c rest).2 (soup w) Hg) as [Hsk Hframe].
destruct (replace_contents group (max_from c rest).2 (soup w)) as [[e t]|t];
  simpl in *; auto.
Qed.

End WithLib.
End FitMore.

Module FitMoreExamples.
Import Fit TreeFacts FitFacts FitTheorems FitMore FitExamples FitWitnesses.
Open Scope string_scope.

(** A service that answers the first eleven requests as [splits_well]
    does, and fails at any other. *)
Definition answers_eleven : nat -> Q -> reply :=
  fun n q => if (n <=? 10)%nat then splits_well n q else Raises RuntimeError.

Lemma restruct_asks_on_schedule_witness :
  restruct splits_well hello_group "Hello world" "Hola mundo" hello_world
  = restruct answers_eleven hello_group "Hello world" "Hola mundo" hello_world.
Proof.
apply (restruct_asks_on_schedule (lib := example_lib) splits_well answers_eleven
         hello_group "Hello world" "Hola mundo" hello_world).
intros n Hn. unfold answers_eleven.
destruct (Nat.leb_spec n 10) as [_|Hgt]; [reflexivity|].
unfold max_retry in Hn. lia.
Defined.

Lemma restruct_touches_its_group_only_witness :
  group_in_tree hello_group (soup hello_world)
  /\ skeleton (soup (Orchestrate.world_of
                       (restruct never_matches hello_group "Hello world"
                          "Hola mundo" hello_world)))
     = skeleton hello_page
  /\ Tree.get [0; 1; 0]%nat
       (soup (Orchestrate.world_of
                (restruct never_matches hello_group "Hello world"
                   "Hola mundo" hello_world)))
     = Some (NavigableString "world").
Proof.
split; [exact hello_group_in_tree|].
split; [|reflexivity].
apply (restruct_touches_its_group_only (lib := example_lib) never_matches
         hello_group "Hello world" "Hola mundo" hello_world hello_group_in_tree).
Defined.

End FitMoreExamples.

(** ** More on the orchestrator: what the pipeline leaves alone *)

Module OrchestrateMore.
Import Extract ExtractFacts Segment SegmentFacts Fit TreeFacts FitFacts.
Import FitMore Orchestrate OrchestrateFacts.

Section WithLib.
Context {lib : PyLib}.

Lemma translate_groups_writes_nothing p chat seg w :
  soup (world_of (translate_groups p chat seg w)) = soup w
  /\ forall rs w',
       translate_groups p chat seg w = Returns rs w' ->
       Forall (fun r => r = Exc ValueError) rs /\ w' = requested w.
Proof.
unfold translate_groups. cbv zeta.
destruct (response_of p) as [e|[d|]]; try (split; [reflexivity | discriminate]).
destruct (fit_in_tasks seg d) as [ts|]; [|split; [reflexivity | discriminate]].
rewrite gather_results. split; [reflexivity|].
intros rs w' H. injection H as <- <-. split; [|reflexivity].
apply Forall_fmap, Forall_forall. intros t _. unfold compose, task_result.
rewrite FitFacts.group_fit_in_raises. reflexivity.
Qed.

Lemma gather_segments_writes_nothing p chat segs : forall n w,
  soup (world_of (gather_segments p chat n segs w)) = soup w
  /\ forall rss w',
       gather_segments p chat n segs w = Returns rss w' ->
       Forall (Forall (fun r => r = Exc ValueError)) rss
       /\ w' = mkWorld (soup w) (calls w + length segs).
Proof.
induction segs as [|seg segs IH]; intros n w.
- simpl. split; [reflexivity|]. intros rss w' H. injection H as <- <-.
  split; [constructor|]. rewrite Nat.add_0_r. destruct w; reflexivity.
- cbn [gather_segments].
  destruct (translate_groups_writes_nothing (p n) (chat n) seg w) as [Hsoup Hret].
  destruct (translate_groups (p n) (chat n) seg w) as [rs w1|e w1];
    [|split; [exact Hsoup | discriminate]].
  destruct (Hret rs w1 eq_refl) as [Hrs ->].
  destruct (IH (S n) (requested w)) as [Hsoup' Hret'].
  destruct (gather_segments p chat (S n) segs (requested w)) as [rss w2|e w2];
    [|split; [exact Hsoup' | discriminate]].
  destruct (Hret' rss w2 eq_refl) as [Hrss ->]. split; [reflexivity|].
  intros rss' w' H. injection H as <- <-. split; [constructor; assumption|].
  simpl. f_equal. lia.
Qed.

(** X14: Whatever the service replies and however the run ends, the
    pipeline leaves the tree as it was: no fit-in task gets to write.
    When it returns, every result is the [ValueError] that a fit-in task
    raised from [match_score], and the requests issued are one for each
    segment, none for fitting back. *)
Theorem pipeline_writes_nothing
    (token_counter : string -> nat) (n_input_token : Z)
    (p : nat -> primary) (chat : nat -> string -> nat -> Q -> reply) (w : world) :
  soup (world_of (translation_pipeline token_counter n_input_token p chat w))
  = soup w
  /\ forall rs w',
       translation_pipeline token_counter n_input_token p chat w = Returns rs w' ->
       Forall (fun r => r = Exc ValueError) rs
       /\ exists segs,
            segment_groups_map token_counter (get_text_group_inline (soup w))
              n_input_token = inr segs
            /\ w' = mkWorld (soup w) (calls w + length segs).
Proof.
unfold translation_pipeline. cbv zeta.
destruct (segment_groups_map token_counter (get_text_group_inline (soup w))
            n_input_token) as [e|segs]; [split; [reflexivity | discriminate]|].
destruct (gather_segments_writes_nothing p chat segs 0 w) as [Hsoup Hret].
destruct (gather_segments p chat 0 segs w) as [rss w1|e w1];
  [|split; [exact Hsoup | discriminate]].
destruct (Hret rss w1 eq_refl) as [Hrss ->]. split; [reflexivity|].
intros rs w' H. injection H as <- <-. split.
- apply Forall_forall. intros r Hr. apply list_elem_of_join in Hr as (l & Hr & Hl).
  rewrite Forall_forall in Hrss. specialize (Hrss l Hl).
  rewrite Forall_forall in Hrss. exact (Hrss r Hr).
- exists segs. split; reflexivity.
Qed.

End WithLib.

Lemma classic_answers (groups_map : dict InlineGroup) (d : dict string) :
  answers_within groups_map d \/ ~ answers_within groups_map d.
Proof.
unfold answers_within. induction d as [|[k v] d [IH|IH]].
- left. constructor.
- destruct (dict_get k groups_map) as [g|] eqn:Hg.
  + left. constructor; [simpl; rewrite Hg; eauto | exact IH].
  + right. intros H. inversion H as [|? ? [x Hx] _]; subst. simpl in Hx. congruence.
- right. intros H. inversion H; subst. contradiction.
Qed.

Section WithLib.
Context {lib : PyLib}.

(** X16: Called on a root all of whose tags are inline, a [span] say, the
    pipeline finds no group: it returns the empty list at once, without a
    request, and the tree is the one it was, whatever text the root
    holds. *)
Theorem pipeline_skips_an_inline_root
    (token_counter : string -> nat) (n_input_token : Z)
    (p : nat -> primary) (chat : nat -> string -> nat -> Q -> reply) (w : world) :
  ExtractMore.all_inline (soup w) = true ->
  get_text_group_inline (soup w) = []
  /\ translation_pipeline token_counter n_input_token p chat w = Returns [] w.
Proof.
intros Hall. pose proof (ExtractMore.all_inline_no_group (soup w) Hall) as Hnil.
split; [exact Hnil|].
unfold translation_pipeline. cbv zeta. rewrite Hnil. reflexivity.
Qed.

(** X17: How [translate_groups] ends.  A response that does not decode raises
    [AttributeError] and one with a key that is not of the segment raises
    [KeyError], in both cases before any fit-in task runs: the tree is the
    one before and the only request issued is the segment's own.  An
    exception of the request other than [RuntimeError] leaves the
    function.  And the function returns only on a decoded response whose
    keys are all of the segment, with one result for each of them. *)
Theorem translate_groups_raises_before_any_task
    (p : primary) (chat : string -> nat -> Q -> reply)
    (groups_map : dict InlineGroup) (w : world) :
  (response_of p = inr None ->
   translate_groups p chat groups_map w
   = Raised AttributeError (mkWorld (soup w) (S (calls w))))
  /\ (forall d,
        response_of p = inr (Some d) -> ~ answers_within groups_map d ->
        translate_groups p chat groups_map w
        = Raised KeyError (mkWorld (soup w) (S (calls w))))
  /\ (forall e partial,
        p = PRaises e partial -> e <> RuntimeError ->
        translate_groups p chat groups_map w
        = Raised e (mkWorld (soup w) (S (calls w))))
  /\ (forall rs w',
        translate_groups p chat groups_map w = Returns rs w' ->
        exists d,
          response_of p = inr (Some d) /\ answers_within groups_map d
          /\ length rs = length d).
Proof.
split; [|split; [|split]].
- intros Hp. unfold translate_groups. rewrite Hp. reflexivity.
- intros d Hp Hn. unfold translate_groups. rewrite Hp.
  rewrite fit_in_tasks_KeyError by exact Hn. reflexivity.
- intros e partial -> He. unfold translate_groups.
  destruct e; try reflexivity. contradiction.
- intros rs w'. unfold translate_groups. cbv zeta.
  destruct (response_of p) as [e|[d|]] eqn:Hp; try discriminate.
  destruct (fit_in_tasks groups_map d) as [ts|] eqn:Hts; [|discriminate].
  assert (Hin : answers_within groups_map d).
  { destruct (classic_answers groups_map d) as [H|H]; [exact H|].
    rewrite fit_in_tasks_KeyError in Hts by exact H. discriminate. }
  pose proof (gather_spec chat ts (mkWorld (soup w) (S (calls w)))) as [Hlen _].
  destruct (gather chat ts _) as [rs0 w0]. intros H. injection H as <- <-.
  exists d. split; [reflexivity|]. split; [exact Hin|].
  destruct (fit_in_tasks_spec _ _ Hin) as (ts' & Hts' & Hl & _).
  simpl in Hlen. congruence.
Qed.

End WithLib.
End OrchestrateMore.

Module OrchestrateMoreExamples.
Import Extract ExtractFacts TreeFacts FitMore Orchestrate OrchestrateFacts.
Import OrchestrateMore FitExamples OrchestrateExamples.
Open Scope string_scope.

(** <p>Settings</p>, a line feed and a script: the group is answered,
    its fit-in task raises and the page is the one before. *)
Definition scripted : Node :=
  Tag "[document]"
    [Tag "p" [NavigableString "Settings"];
     NavigableString ExtractExamples.nl;
     Tag "script" [NavigableString "x=1"]].

Example scripted_run :
  translation_pipeline String.length 100
    (fun _ => PDone false (Some [("0", "Einstellungen")])) no_reply
    (mkWorld scripted 0)
  = Returns [Exc ValueError] (mkWorld scripted 1).
Proof. vm_compute. reflexivity. Qed.

(** <span>Hello <b>world</b></span> *)
Definition span_root : Node :=
  Tag "span" [NavigableString "Hello "; Tag "b" [NavigableString "world"]].

Lemma pipeline_skips_an_inline_root_witness :
  ExtractMore.all_inline span_root = true
  /\ translation_pipeline String.length 100 both_answered splits (mkWorld span_root 0)
     = Returns [] (mkWorld span_root 0).
Proof.
split; [reflexivity|].
exact (proj2 (pipeline_skips_an_inline_root (lib := example_lib) String.length 100
                both_answered splits (mkWorld span_root 0) eq_refl)).
Defined.

End OrchestrateMoreExamples.

(** ** More on the retry loops: what a run does, call by call *)

Module RetryMore.
Import Retry RetryFacts.

(** What the caller does around [n] failed calls that are retried, for
    the waits [sleeps]: gate, call and wait, for each of them. *)
Definition rounds (sleeps : list Q) : list event :=
  mjoin ((fun s => [Gate; Call; Sleep s]) <$> sleeps).

Definition sleep_within (bound : Q) (e : event) : Prop :=
  match e with
  | Sleep s => (s <= bound)%Q
  | _ => True
  end.

Section WithOperation.
Context {V : Type}.
Variable subclass : nat -> nat -> bool.
Variable cfg : config.
Variable func : nat -> called V.
Variable uniform : nat -> Q.

Lemma arun_step num_retry backoff_delay trace :
  arun subclass cfg func uniform num_retry backoff_delay trace =
  match arun_turn subclass cfg num_retry backoff_delay
          (func num_retry) (uniform num_retry) with
  | Leave e d => (e, d, trace ++ [Gate; Call])
  | Again slept n d =>
      arun subclass cfg func uniform n d (trace ++ [Gate; Call; Sleep slept])
  end.
Proof.
funelim (arun subclass cfg func uniform num_retry backoff_delay trace);
  clear_inspected;
  match goal with
  | E : arun_turn _ _ _ _ _ _ = _ |- _ => rewrite E
  end; reflexivity.
Qed.

Lemma run_loop_step num_retry backoff_delay trace :
  run_loop cfg func uniform num_retry backoff_delay trace =
  match run_turn cfg num_retry backoff_delay (func num_retry) (uniform num_retry) with
  | LeaveSync e => (e, trace ++ [Gate; Call])
  | AgainSync slept n d =>
      run_loop cfg func uniform n d (trace ++ [Gate; Call] ++ slept_events slept)
  end.
Proof.
funelim (run_loop cfg func uniform num_retry backoff_delay trace);
  clear_inspected;
  match goal with
  | E : run_turn _ _ _ _ _ = _ |- _ => rewrite E
  end; reflexivity.
Qed.

Lemma arun_turn_Again num_retry d (o : called V) r slept n d' :
  arun_turn subclass cfg num_retry d o r = Again slept n d' ->
  exists c id,
    o = Err c id /\ n = S num_retry
    /\ Z.of_nat (S num_retry) <= backoff_max_retry cfg
    /\ ((eligible subclass cfg c = true /\ slept = d
         /\ d' = cap (d * (backoff_exp_base cfg + r)))
        \/ (eligible subclass cfg c = false
            /\ slept = backoff_init_delay cfg /\ d' = d)).
Proof.
unfold arun_turn. destruct o as [ret|c id]; [discriminate|]. cbv zeta.
destruct (Z.ltb_spec (backoff_max_retry cfg) (Z.of_nat (S num_retry))) as [Hlt|Hle];
  [discriminate|].
destruct (eligible subclass cfg c) eqn:He; intros H; injection H as <- <- <-;
  exists c, id; auto 10.
Qed.

Lemma arun_turn_Leave num_retry d (o : called V) r e d' :
  arun_turn subclass cfg num_retry d o r = Leave e d' ->
  (exists ret, o = Ok ret /\ e = Returned ret /\ d' = backoff_init_delay cfg)
  \/ (exists c id, o = Err c id /\ e = MaxRetry c id /\ d' = d
                   /\ backoff_max_retry cfg < Z.of_nat (S num_retry)).
Proof.
unfold arun_turn. destruct o as [ret|c id].
- intros H. injection H as <- <-. left. eauto.
- cbv zeta.
  destruct (Z.ltb_spec (backoff_max_retry cfg) (Z.of_nat (S num_retry))) as [Hlt|Hle].
  + intros H. injection H as <- <-. right. eauto 10.
  + destruct (eligible subclass cfg c); discriminate.
Qed.

Lemma run_turn_Again num_retry d (o : called V) r slept n d' :
  run_turn cfg num_retry d o r = AgainSync slept n d' ->
  exists c id,
    o = Err c id /\ n = S num_retry
    /\ Z.of_nat (S num_retry) <= backoff_max_retry cfg
    /\ slept = None /\ d' = d.
Proof.
unfold run_turn. destruct o as [ret|c id]; [discriminate|]. cbv zeta.
destruct (Z.ltb_spec (backoff_max_retry cfg) (Z.of_nat (S num_retry))) as [Hlt|Hle];
  [discriminate|].
rewrite in_tuple_false. intros H. injection H as <- <- <-.
exists c, id. auto.
Qed.

Lemma run_turn_Leave num_retry d (o : called V) r e :
  run_turn cfg num_retry d o r = LeaveSync e ->
  (exists ret, o = Ok ret /\ e = Returned ret)
  \/ (exists c id, o = Err c id /\ e = MaxRetry c id
                   /\ backoff_max_retry cfg < Z.of_nat (S num_retry)).
Proof.
unfold run_turn. destruct o as [ret|c id].
- intros H. injection H as <-. left. eauto.
- cbv zeta.
  destruct (Z.ltb_spec (backoff_max_retry cfg) (Z.of_nat (S num_retry))) as [Hlt|Hle].
  + intros H. injection H as <-. right. eauto 10.
  + destruct (in_tuple cfg c id); discriminate.
Qed.

(** The retries left to a run that has made [num_retry] failed
    calls. *)
Definition budget (num_retry : nat) : nat :=
  Z.to_nat (backoff_max_retry cfg + 1 - Z.of_nat num_retry).

Lemma arun_shape k : forall num_retry backoff_delay trace,
  (budget num_retry <= k)%nat ->
  exists sleeps,
    (arun subclass cfg func uniform num_retry backoff_delay trace).2
    = trace ++ rounds sleeps ++ [Gate; Call]
    /\ (length sleeps <= k - 1)%nat.
Proof.
unfold budget.
induction k as [|k IH]; intros num_retry d trace Hk; rewrite arun_step;
  destruct (arun_turn subclass cfg num_retry d (func num_retry) (uniform num_retry))
    as [e d'|slept n d'] eqn:Et;
  try (exists []; simpl; split; [reflexivity | lia]).
- apply arun_turn_Again in Et as (c & id & _ & -> & Hle & _). lia.
- apply arun_turn_Again in Et as (c & id & _ & -> & Hle & _).
  destruct (IH (S num_retry) d' (trace ++ [Gate; Call; Sleep slept])) as (sleeps & Htr & Hlen);
    [lia|].
  exists (slept :: sleeps). split; [|simpl; lia].
  rewrite Htr. unfold rounds. simpl. rewrite <- !app_assoc. reflexivity.
Qed.

Lemma run_loop_shape k : forall num_retry backoff_delay trace,
  (budget num_retry <= k)%nat ->
  exists n,
    (run_loop cfg func uniform num_retry backoff_delay trace).2
    = trace ++ mjoin (replicate n [Gate; Call]) ++ [Gate; Call]
    /\ (n <= k - 1)%nat.
Proof.
unfold budget.
induction k as [|k IH]; intros num_retry d trace Hk; rewrite run_loop_step;
  destruct (run_turn cfg num_retry d (func num_retry) (uniform num_retry))
    as [e|slept n d'] eqn:Et;
  try (exists 0%nat; simpl; split; [reflexivity | lia]).
- apply run_turn_Again in Et as (c & id & _ & -> & Hle & _). lia.
- apply run_turn_Again in Et as (c & id & _ & -> & Hle & -> & ->).
  destruct (IH (S num_retry) d (trace ++ [Gate; Call] ++ slept_events None))
    as (n & Htr & Hlen); [lia|].
  exists (S n). split; [|simpl; lia].
  rewrite Htr. simpl. rewrite <- !app_assoc. reflexivity.
Qed.

Lemma arun_delays k : forall num_retry backoff_delay trace,
  (budget num_retry <= k)%nat ->
  (backoff_init_delay cfg <= 300)%Q ->
  (backoff_delay <= 300)%Q ->
  Forall (sleep_within 300) trace ->
  ((arun subclass cfg func uniform num_retry backoff_delay trace).1.2 <= 300)%Q
  /\ Forall (sleep_within 300)
       (arun subclass cfg func uniform num_retry backoff_delay trace).2.
Proof.
unfold budget.
induction k as [|k IH]; intros num_retry d trace Hk Hinit Hd Htr; rewrite arun_step;
  destruct (arun_turn subclass cfg num_retry d (func num_retry) (uniform num_retry))
    as [e d'|slept n d'] eqn:Et.
- simpl. split.
  + apply arun_turn_Leave in Et as [(ret & _ & _ & ->) | (c & id & _ & _ & -> & _)];
      assumption.
  + apply Forall_app. split; [exact Htr|]. repeat constructor.
- apply arun_turn_Again in Et as (c & id & _ & -> & Hle & _). lia.
- simpl. split.
  + apply arun_turn_Leave in Et as [(ret & _ & _ & ->) | (c & id & _ & _ & -> & _)];
      assumption.
  + apply Forall_app. split; [exact Htr|]. repeat constructor.
- apply arun_turn_Again in Et
    as (c & id & _ & -> & Hle & [(_ & -> & ->) | (_ & -> & ->)]).
  + apply IH; [lia | exact Hinit | apply cap_le|].
    apply Forall_app. split; [exact Htr|].
    constructor; [exact I|]. constructor; [exact I|]. constructor; [exact Hd | constructor].
  + apply IH; [lia | exact Hinit | exact Hd|].
    apply Forall_app. split; [exact Htr|].
    constructor; [exact I|]. constructor; [exact I|].
    constructor; [exact Hinit | constructor].
Qed.

(** The call numbered [n] is the first that succeeds. *)
Definition first_success (n : nat) (ret : V) : Prop :=
  func n = Ok ret /\ forall m, (m < n)%nat -> exists c id, func m = Err c id.

Lemma arun_first_success n ret :
  first_success n ret ->
  Z.of_nat n <= Z.max 0 (backoff_max_retry cfg) ->
  forall k num_retry backoff_delay trace,
    (num_retry + k = n)%nat ->
    exists sleeps,
      arun subclass cfg func uniform num_retry backoff_delay trace
      = (Returned ret, backoff_init_delay cfg, trace ++ rounds sleeps ++ [Gate; Call])
      /\ length sleeps = k.
Proof.
intros [Hok Hbefore] Hn.
induction k as [|k IH]; intros num_retry d trace Hk; rewrite arun_step.
- assert (num_retry = n) by lia. subst num_retry. rewrite Hok. simpl.
  exists []. split; reflexivity.
- destruct (Hbefore num_retry) as (c & id & Hf); [lia|]. rewrite Hf.
  unfold arun_turn. cbv zeta.
  destruct (Z.ltb_spec (backoff_max_retry cfg) (Z.of_nat (S num_retry))); [lia|].
  destruct (eligible subclass cfg c).
  + destruct (IH (S num_retry) (cap (d * (backoff_exp_base cfg + uniform num_retry)))
                (trace ++ [Gate; Call; Sleep d])) as (sleeps & -> & Hlen); [lia|].
    exists (d :: sleeps). split; [|simpl; lia].
    unfold rounds. simpl. rewrite <- !app_assoc. reflexivity.
  + destruct (IH (S num_retry) d
                (trace ++ [Gate; Call; Sleep (backoff_init_delay cfg)]))
      as (sleeps & -> & Hlen); [lia|].
    exists (backoff_init_delay cfg :: sleeps). split; [|simpl; lia].
    unfold rounds. simpl. rewrite <- !app_assoc. reflexivity.
Qed.

Lemma run_loop_first_success n ret :
  first_success n ret ->
  Z.of_nat n <= Z.max 0 (backoff_max_retry cfg) ->
  forall k num_retry backoff_delay trace,
    (num_retry + k = n)%nat ->
    run_loop cfg func uniform num_retry backoff_delay trace
    = (Returned ret, trace ++ mjoin (replicate k [Gate; Call]) ++ [Gate; Call]).
Proof.
intros [Hok Hbefore] Hn.
induction k as [|k IH]; intros num_retry d trace Hk; rewrite run_loop_step.
- assert (num_retry = n) by lia. subst num_retry. rewrite Hok. reflexivity.
- destruct (Hbefore num_retry) as (c & id & Hf); [lia|]. rewrite Hf.
  unfold run_turn. cbv zeta.
  destruct (Z.ltb_spec (backoff_max_retry cfg) (Z.of_nat (S num_retry))); [lia|].
  rewrite in_tuple_false. rewrite IH by lia.
  simpl. rewrite <- !app_assoc. reflexivity.
Qed.

Lemma run_arun_alike k : forall num_retry d d' trace trace',
  (budget num_retry <= k)%nat ->
  (run_loop cfg func uniform num_retry d trace).1
  = (arun subclass cfg func uniform num_retry d' trace').1.1.
Proof.
unfold budget.
induction k as [|k IH]; intros num_retry d d' trace trace' Hk;
  rewrite run_loop_step, arun_step; unfold run_turn, arun_turn;
  destruct (func num_retry) as [ret|c id]; try reflexivity; cbv zeta;
  destruct (Z.ltb_spec (backoff_max_retry cfg) (Z.of_nat (S num_retry)));
  try reflexivity; try lia.
rewrite in_tuple_false.
destruct (eligible subclass cfg c); apply IH; lia.
Qed.

End WithOperation.

(** X20: What a caller of [_arun] does, from its first call on: it passes the
    gate before every call, waits once after every failed call that is
    retried, and makes at most [backoff_max_retry] retries (none when
    that is negative). *)
Theorem arun_passes_the_gate_before_every_call
    {V : Type} (subclass : nat -> nat -> bool) (cfg : config)
    (func : nat -> called V) (uniform : nat -> Q) (backoff_delay : Q) :
  exists sleeps,
    (arun subclass cfg func uniform 0 backoff_delay []).2
    = rounds sleeps ++ [Gate; Call]
    /\ Z.of_nat (length sleeps) <= Z.max 0 (backoff_max_retry cfg).
Proof.
destruct (arun_shape subclass cfg func uniform (budget cfg 0) 0 backoff_delay [])
  as (sleeps & Htr & Hlen); [lia|].
exists sleeps. split; [exact Htr|]. unfold budget in Hlen. lia.
Qed.

(** X21: With an initial delay and a current delay of at most 300 seconds,
    no wait of a run of [_arun] exceeds 300 seconds, and the delay the
    run leaves behind is at most 300 as well. *)
Theorem arun_never_waits_over_the_cap
    {V : Type} (subclass : nat -> nat -> bool) (cfg : config)
    (func : nat -> called V) (uniform : nat -> Q) (backoff_delay : Q) :
  (backoff_init_delay cfg <= 300)%Q ->
  (backoff_delay <= 300)%Q ->
  ((arun subclass cfg func uniform 0 backoff_delay []).1.2 <= 300)%Q
  /\ forall s, Sleep s ∈ (arun subclass cfg func uniform 0 backoff_delay []).2 ->
               (s <= 300)%Q.
Proof.
intros Hinit Hd.
destruct (arun_delays subclass cfg func uniform (budget cfg 0) 0 backoff_delay []
            ltac:(lia) Hinit Hd ltac:(constructor)) as [Hfin Hall].
split; [exact Hfin|]. intros s Hin.
rewrite Forall_forall in Hall. exact (Hall _ Hin).
Qed.

(** X22: When the call numbered [n] is the first to succeed and [n] is within
    [backoff_max_retry] (or is the very first call), both forms return
    its value after [n + 1] calls; [_arun] has waited [n] times by then
    and resets the delay, [_run] has not waited at all. *)
Theorem both_forms_return_the_first_success
    {V : Type} (subclass : nat -> nat -> bool) (cfg : config)
    (func : nat -> called V) (uniform : nat -> Q) (backoff_delay : Q)
    (n : nat) (ret : V) :
  first_success func n ret ->
  Z.of_nat n <= Z.max 0 (backoff_max_retry cfg) ->
  (exists sleeps,
      arun subclass cfg func uniform 0 backoff_delay []
      = (Returned ret, backoff_init_delay cfg, rounds sleeps ++ [Gate; Call])
      /\ length sleeps = n)
  /\ run cfg func uniform
     = (Returned ret, mjoin (replicate n [Gate; Call]) ++ [Gate; Call]).
Proof.
intros Hfirst Hn. split.
- apply (arun_first_success subclass cfg func uniform n ret Hfirst Hn n 0%nat).
  reflexivity.
- apply (run_loop_first_success cfg func uniform n ret Hfirst Hn n 0%nat).
  reflexivity.
Qed.

(** X23: What a caller of [_run] does: gate and call, again and again, at
    most [backoff_max_retry] retries and never a wait, since an exception
    instance is never a member of the tuple of classes. *)
Theorem run_retries_without_waiting
    {V : Type} (cfg : config) (func : nat -> called V) (uniform : nat -> Q) :
  exists n,
    (run cfg func uniform).2 = mjoin (replicate (S n) [Gate; Call])
    /\ Z.of_nat n <= Z.max 0 (backoff_max_retry cfg).
Proof.
destruct (run_loop_shape cfg func uniform (budget cfg 0) 0 (backoff_init_delay cfg) [])
  as (n & Htr & Hlen); [lia|].
exists n. split; [|unfold budget in Hlen; lia].
unfold run. rewrite Htr. simpl.
clear. induction n as [|n IH]; simpl; [reflexivity|]. rewrite IH. reflexivity.
Qed.

(** X24: The two forms end the same way, whatever the delays: with the value
    of the same call, or with the retries-exhausted error that wraps the
    same failure. *)
Theorem run_and_arun_end_alike
    {V : Type} (subclass : nat -> nat -> bool) (cfg : config)
    (func : nat -> called V) (uniform : nat -> Q) (backoff_delay : Q) :
  (run cfg func uniform).1
  = (arun subclass cfg func uniform 0 backoff_delay []).1.1.
Proof.
unfold run. apply (run_arun_alike subclass cfg func uniform (budget cfg 0)). lia.
Qed.

End RetryMore.

Module RetryMoreExamples.
Import Retry RetryFacts RetryMore RetryExamples.

Lemma arun_never_waits_over_the_cap_witness :
  (backoff_init_delay chat_cfg <= 300)%Q /\ (1 <= 300)%Q
  /\ ((arun Nat.eqb chat_cfg limited_once no_jitter 0 1 []).1.2 <= 300)%Q.
Proof.
assert (H1 : (backoff_init_delay chat_cfg <= 300)%Q) by (vm_compute; discriminate).
assert (H2 : (1 <= 300)%Q) by (vm_compute; discriminate).
split; [exact H1|]. split; [exact H2|].
exact (proj1 (arun_never_waits_over_the_cap Nat.eqb chat_cfg limited_once no_jitter
                1 H1 H2)).
Defined.

Lemma both_forms_return_the_first_success_witness :
  first_success limited_once 1 42%nat
  /\ Z.of_nat 1 <= Z.max 0 (backoff_max_retry chat_cfg)
  /\ run chat_cfg limited_once no_jitter
     = (Returned 42%nat, mjoin (replicate 1 [Gate; Call]) ++ [Gate; Call]).
Proof.
assert (H1 : first_success limited_once 1 42%nat).
{ split; [reflexivity|]. intros m Hm. assert (m = 0%nat) as -> by lia.
  exists 1%nat, 0%nat. reflexivity. }
assert (H2 : Z.of_nat 1 <= Z.max 0 (backoff_max_retry chat_cfg))
  by (vm_compute; discriminate).
split; [exact H1|]. split; [exact H2|].
exact (proj2 (both_forms_return_the_first_success Nat.eqb chat_cfg limited_once
                no_jitter 1 1 42%nat H1 H2)).
Defined.

End RetryMoreExamples.

(** ** The waits of a run of [_arun], one by one *)

Module RetryRun.
Import Retry RetryFacts RetryMore.

Section WithOperation.
Context {V : Type}.
Variable subclass : nat -> nat -> bool.
Variable cfg : config.
Variable func : nat -> called V.
Variable uniform : nat -> Q.






End WithOperation.
End RetryRun.

Module RetryRunExamples.
Import Retry RetryFacts RetryMore RetryRun RetryExamples.




End RetryRunExamples.

(** ** More on the admission gate *)

Module GateMore.
Import Gate GateFacts.

(** X26: A caller that has to wait in the gate waits more than nothing and at
    most [period]: the oldest time of the window is in the past. *)
Theorem gate_sleeps_at_most_a_period
    (limit : Z) (period : Q) (s : sys) (sw1 : list Q) (d : Q) :
  0 < limit ->
  reachable limit period s ->
  a_lock s = None ->
  before_sleep limit period (clock s) (sw s) = Some (sw1, Some d) ->
  (0 < d <= period)%Q.
Proof.
intros Hpos Hreach Hlock Hbefore.
destruct (inv_reachable limit period Hpos s Hreach) as [Hpast _ _ Hwin].
unfold window_ok in Hwin. rewrite Hlock in Hwin.
destruct Hwin as [_ (old & Hadm & _ & _)].
unfold before_sleep in Hbefore.
destruct (full limit (sw s)); [|discriminate].
destruct (sw s) as [|last rest] eqn:Hsw; [discriminate|]. cbv zeta in Hbefore.
destruct (Qltb (clock s - last) period) eqn:Hlag; [|discriminate].
injection Hbefore as _ <-.
apply FitFacts.Qltb_lt in Hlag.
assert (Hlast : (last <= clock s)%Q).
{ rewrite Forall_forall in Hpast. apply Hpast. rewrite Hadm.
  apply elem_of_app. right. apply list_elem_of_here. }
split; lra.
Qed.

(** X27: While fewer than [limit] calls have been admitted, a caller that
    finds the lock free goes through the gate without waiting. *)
Theorem first_callers_do_not_wait (limit : Z) (period : Q) (s : sys) :
  0 < limit ->
  reachable limit period s ->
  a_lock s = None ->
  Z.of_nat (length (admissions s)) < limit ->
  before_sleep limit period (clock s) (sw s) = Some (sw s, None)
  /\ forall x, put limit x (sw s) = Some (sw s ++ [x]).
Proof.
intros Hpos Hreach Hlock Hfew.
destruct (inv_reachable limit period Hpos s Hreach) as [_ _ _ Hwin].
unfold window_ok in Hwin. rewrite Hlock in Hwin.
destruct Hwin as [_ (old & Hadm & _ & _)].
assert (Hlen : (length (sw s) < Z.to_nat limit)%nat).
{ rewrite Hadm, length_app in Hfew. lia. }
assert (Hfull : full limit (sw s) = false).
{ destruct (full limit (sw s)) eqn:E; [|reflexivity].
  apply (full_spec limit Hpos) in E. lia. }
unfold before_sleep, put. rewrite Hfull. auto.
Qed.

(** X28: A [limit] that is not positive limits nothing: the queue is never
    full, and for a positive [period] any number of calls can be admitted
    within one window. *)
Theorem nonpositive_limit_never_limits (limit : Z) (period : Q) (t0 : Q) (n : nat) :
  limit <= 0 ->
  (0 < period)%Q ->
  exists s,
    reachable limit period s
    /\ (clock s == t0)%Q
    /\ admitted_within period (clock s) s = n.
Proof.
intros Hlimit Hperiod.
assert (Hfull : forall l, full limit l = false).
{ intros l. unfold full. destruct (Z.ltb_spec 0 limit); [lia | reflexivity]. }
assert (H : exists s,
          reachable limit period s /\ (clock s == t0)%Q /\ a_lock s = None
          /\ (forall i, pcs s i = Outside)
          /\ length (admissions s) = n
          /\ Forall (fun a => (a == t0)%Q) (admissions s)).
{ induction n as [|n (s & Hreach & Hclock & Hlock & Hpcs & Hlen & Hall)].
  - exists (init t0). split; [constructor|]. split; [reflexivity|].
    split; [reflexivity|]. split; [reflexivity|]. split; [reflexivity | constructor].
  - exists (mkSys (clock s + 0) (sw s ++ [(clock s + 0)%Q]) None (pcs s)
              (admissions s ++ [(clock s + 0)%Q])).
    split.
    + eapply reach_step; [exact Hreach|].
      apply (step_admit limit period s 0%nat 0 (sw s)); auto.
      * apply Qle_refl.
      * unfold before_sleep. rewrite Hfull. reflexivity.
      * unfold put. rewrite Hfull. reflexivity.
    + simpl. split; [rewrite Hclock; ring|]. split; [reflexivity|].
      split; [exact Hpcs|]. split; [rewrite length_app; simpl; lia|].
      apply Forall_app. split; [exact Hall|].
      constructor; [rewrite Hclock; ring | constructor]. }
destruct H as (s & Hreach & Hclock & _ & _ & Hlen & Hall).
exists s. split; [exact Hreach|]. split; [exact Hclock|].
unfold admitted_within. rewrite <- Hlen. f_equal.
clear Hlen. induction Hall as [|a l Ha _ IH]; [reflexivity|]. simpl.
assert (Hin : in_window period (clock s) a = true).
{ apply in_window_spec. rewrite Ha, Hclock. split; lra. }
rewrite Hin, IH. reflexivity.
Qed.

(** *** The synchronous gate *)

Section Sync.
Variable limit : Z.
Variable period : Q.

(** [_block_by_rate], entered at time [now] by the thread that holds
    [_t_lock]; the second reading of the clock comes [late] after the
    first, or after the end of the sleep when there is one.  The result
    is the queue and the time pushed; [None] when [get] or [put] would
    block. *)
Definition block_by_rate (now late : Q) (sw : list Q) : option (list Q * Q) :=
  match before_sleep limit period now sw with
  | Some (sw1, o) =>
      let t := match o with
               | Some d => (now + d + late)%Q
               | None => (now + late)%Q
               end in
      match put limit t sw1 with
      | Some sw2 => Some (sw2, t)
      | None => None
      end
  | None => None
  end.

(** The controller as the threads of [_run] see it: the clock, the
    window and the times pushed so far. *)
Record sync : Type := mkSync {
  s_clock : Q;
  s_sw : list Q;
  s_admissions : list Q
}.

(** The calls of [_block_by_rate] follow one another, each under
    [_t_lock]: a call starts [gap] after the one before it ended. *)
Definition sync_call (st : sync) (c : Q * Q) : option sync :=
  match block_by_rate (s_clock st + c.1) c.2 (s_sw st) with
  | Some (sw2, t) => Some (mkSync t sw2 (s_admissions st ++ [t]))
  | None => None
  end.

Fixpoint sync_run (calls : list (Q * Q)) (st : sync) : option sync :=
  match calls with
  | [] => Some st
  | c :: rest =>
      match sync_call st c with
      | Some st' => sync_run rest st'
      | None => None
      end
  end.

Hypothesis limit_pos : 0 < limit.

(** The state of the synchronous controller is one the system of the
    gate can reach, with the lock free. *)
Definition mirrors (st : sync) (s : sys) : Prop :=
  reachable limit period s /\ a_lock s = None
  /\ clock s = s_clock st /\ sw s = s_sw st /\ admissions s = s_admissions st.

Lemma sync_call_mirrors st s c :
  mirrors st s -> (0 <= c.1)%Q -> (0 <= c.2)%Q ->
  exists st' s', sync_call st c = Some st' /\ mirrors st' s'.
Proof.
intros (Hreach & Hlock & Hclock & Hsw & Hadm) Hgap Hlate.
destruct c as [gap late]. simpl in Hgap, Hlate.
set (s1 := mkSys (clock s + gap) (sw s) (a_lock s) (pcs s) (admissions s)).
assert (Hreach1 : reachable limit period s1).
{ eapply reach_step; [exact Hreach|]. apply step_tick. exact Hgap. }
destruct (inv_reachable limit period limit_pos s1 Hreach1) as [_ _ _ Hwin].
unfold window_ok in Hwin. simpl in Hwin. rewrite Hlock in Hwin.
destruct Hwin as [Hout (old & _ & Hlen & _)].
unfold sync_call, block_by_rate. simpl. rewrite <- Hclock, <- Hsw, <- Hadm.
destruct (before_sleep limit period (clock s + gap) (sw s)) as [[sw1 o]|] eqn:Hbefore.
- pose proof (before_sleep_inv limit period limit_pos _ _ _ _ Hbefore) as Hcases.
  assert (Hroom : (length sw1 < Z.to_nat limit)%nat).
  { destruct Hcases as [(Hfew & -> & _) | (last & Hs & _ & _)]; [exact Hfew|].
    rewrite Hs in Hlen. simpl in Hlen. lia. }
  destruct o as [d|].
  + rewrite (put_not_full limit limit_pos _ _ Hroom).
    set (s2 := mkSys (clock s1) sw1 (Some 0%nat)
                 (set_pc 0 (Asleep (clock s1 + d)) (pcs s1)) (admissions s1)).
    assert (Hreach2 : reachable limit period s2).
    { eapply reach_step; [exact Hreach1|].
      apply (step_suspend limit period s1 0%nat sw1 d);
        [apply Hout | exact Hlock | exact Hbefore]. }
    assert (Hd : (0 <= d)%Q).
    { destruct Hcases as [(_ & _ & ?) | (last & _ & _ & [[? _] | (d' & Hd' & _)])];
        try discriminate.
      injection Hd' as <-. unfold before_sleep in Hbefore.
      destruct (full limit (sw s)); [|discriminate].
      destruct (sw s) as [|l r]; [discriminate|]. cbv zeta in Hbefore.
      destruct (Qltb (clock s + gap - l) period) eqn:Hlag; [|discriminate].
      injection Hbefore as _ <-. apply FitFacts.Qltb_lt in Hlag. lra. }
    set (s3 := mkSys (clock s2 + d) (sw s2) (a_lock s2) (pcs s2) (admissions s2)).
    assert (Hreach3 : reachable limit period s3).
    { eapply reach_step; [exact Hreach2|]. apply step_tick. exact Hd. }
    set (s4 := mkSys (clock s3 + late) (sw s3) (a_lock s3) (pcs s3) (admissions s3)).
    assert (Hreach4 : reachable limit period s4).
    { eapply reach_step; [exact Hreach3|]. apply step_tick. exact Hlate. }
    eexists _, (mkSys (clock s4) (sw1 ++ [clock s4]) None
                  (set_pc 0 Outside (pcs s4)) (admissions s4 ++ [clock s4])).
    split; [reflexivity|]. split; [|simpl; auto].
    eapply reach_step; [exact Hreach4|].
    apply (step_resume limit period s4 0%nat (clock s1 + d)).
    * simpl. apply set_pc_same.
    * simpl. lra.
    * simpl. apply (put_not_full limit limit_pos). exact Hroom.
  + rewrite (put_not_full limit limit_pos _ _ Hroom).
    eexists _, (mkSys (clock s1 + late) (sw1 ++ [(clock s1 + late)%Q]) None (pcs s1)
                  (admissions s1 ++ [(clock s1 + late)%Q])).
    split; [reflexivity|]. split; [|simpl; auto].
    eapply reach_step; [exact Hreach1|].
    apply (step_admit limit period s1 0%nat late sw1);
      [apply Hout | exact Hlock | exact Hlate | exact Hbefore|].
    simpl. apply (put_not_full limit limit_pos). exact Hroom.
- exfalso. unfold before_sleep in Hbefore.
  destruct (full limit (sw s)) eqn:Hf; [|discriminate].
  apply (full_spec limit limit_pos) in Hf.
  destruct (sw s) as [|l r]; [simpl in Hf; lia|]. cbv zeta in Hbefore.
  destruct (Qltb (clock s + gap - l) period); discriminate.
Qed.

Lemma sync_run_mirrors calls : forall st s,
  mirrors st s ->
  Forall (fun c => (0 <= c.1)%Q /\ (0 <= c.2)%Q) calls ->
  exists st' s',
    sync_run calls st = Some st' /\ mirrors st' s'
    /\ length (s_admissions st') = (length (s_admissions st) + length calls)%nat.
Proof.
induction calls as [|c calls IH]; intros st s Hm Hcalls; simpl.
- exists st, s. split; [reflexivity|]. split; [exact Hm | lia].
- inversion Hcalls as [|? ? [Hgap Hlate] Hrest]; subst.
  destruct (sync_call_mirrors st s c Hm Hgap Hlate) as (st1 & s1 & Hcall & Hm1).
  rewrite Hcall.
  destruct (IH st1 s1 Hm1 Hrest) as (st' & s' & Hrun & Hm' & Hlen).
  exists st', s'. split; [exact Hrun|]. split; [exact Hm'|].
  rewrite Hlen. unfold sync_call in Hcall.
  destruct (block_by_rate _ _ _) as [[sw2 t]|]; [|discriminate].
  injection Hcall as <-. simpl. rewrite length_app. simpl. lia.
Qed.

End Sync.

(** X29: The synchronous gate, for a positive [limit]: calls of
    [_block_by_rate] that follow one another under the thread lock never
    block on the queue, each pushes one time, and no trailing window
    [(t - period, t]] holds more than [limit] of the times pushed. *)
Theorem sync_gate_admits_at_most_limit_per_window
    (limit : Z) (period : Q) (t0 : Q) (calls : list (Q * Q)) :
  0 < limit ->
  Forall (fun c => (0 <= c.1)%Q /\ (0 <= c.2)%Q) calls ->
  exists st,
    sync_run limit period calls (mkSync t0 [] []) = Some st
    /\ length (s_admissions st) = length calls
    /\ forall t,
         Z.of_nat (length (List.filter (in_window period t) (s_admissions st)))
         <= limit.
Proof.
intros Hpos Hcalls.
destruct (sync_run_mirrors limit period Hpos calls (mkSync t0 [] []) (init t0))
  as (st & s & Hrun & (Hreach & _ & _ & _ & Hadm) & Hlen).
{ split; [constructor|]. repeat split; reflexivity. }
{ exact Hcalls. }
exists st. split; [exact Hrun|]. split; [exact Hlen|].
intros t. rewrite <- Hadm.
destruct (inv_reachable limit period Hpos s Hreach) as [_ Hasc Hsp _].
pose proof (window_holds_at_most _ _ _ t Hasc Hsp). lia.
Qed.

End GateMore.

Module GateMoreExamples.
Import Gate GateFacts GateMore GateExamples.

Lemma gate_never_blocks_witness :
  0 < 1 /\ reachable 1 (7 # 2) s5
  /\ exists sw1 o, before_sleep 1 (7 # 2) (clock s5) (sw s5) = Some (sw1, o).
Proof.
split; [reflexivity|]. split; [exact s5_reachable|].
destruct (gate_never_blocks 1 (7 # 2) s5 eq_refl s5_reachable) as [H _].
destruct (H eq_refl) as (sw1 & o & Hb & _). exists sw1, o. exact Hb.
Defined.

Lemma s2_reachable : reachable 1 (7 # 2) s2.
Proof.
apply (reach_step 1 (7 # 2) s1 s2).
- apply (reach_step 1 (7 # 2) (init 0) s1 (reach_init 1 (7 # 2) 0)).
  apply (step_admit 1 (7 # 2) (init 0) 0%nat 0 [] [0%Q]);
    (reflexivity || discriminate).
- apply (step_tick 1 (7 # 2) s1 1). discriminate.
Defined.

Lemma gate_sleeps_at_most_a_period_witness :
  0 < 1 /\ reachable 1 (7 # 2) s2 /\ a_lock s2 = None
  /\ before_sleep 1 (7 # 2) (clock s2) (sw s2)
     = Some ([], Some ((7 # 2) - (1 - 0))%Q)
  /\ (0 < (7 # 2) - (1 - 0) <= 7 # 2)%Q.
Proof.
split; [reflexivity|]. split; [exact s2_reachable|]. split; [reflexivity|].
split; [reflexivity|].
apply (gate_sleeps_at_most_a_period 1 (7 # 2) s2 [] ((7 # 2) - (1 - 0))%Q
         eq_refl s2_reachable eq_refl eq_refl).
Defined.

Lemma first_callers_do_not_wait_witness :
  0 < 2 /\ reachable 2 (7 # 2) (init 0)
  /\ before_sleep 2 (7 # 2) (clock (init 0)) (sw (init 0)) = Some (sw (init 0), None).
Proof.
split; [reflexivity|]. split; [apply reach_init|].
exact (proj1 (first_callers_do_not_wait 2 (7 # 2) (init 0) eq_refl
                (reach_init 2 (7 # 2) 0) eq_refl eq_refl)).
Defined.

Lemma nonpositive_limit_never_limits_witness :
  0 <= 0 /\ (0 < 7 # 2)%Q
  /\ exists s, reachable 0 (7 # 2) s /\ admitted_within (7 # 2) (clock s) s = 3%nat.
Proof.
split; [discriminate|]. split; [reflexivity|].
destruct (nonpositive_limit_never_limits 0 (7 # 2) 0 3) as (s & Hreach & _ & Hn).
- discriminate.
- reflexivity.
- exists s. split; [exact Hreach | exact Hn].
Defined.

Lemma sync_gate_admits_at_most_limit_per_window_witness :
  0 < 1
  /\ exists st,
       sync_run 1 (7 # 2) [(0%Q, 0%Q); (1%Q, 0%Q)] (mkSync 0 [] []) = Some st
       /\ length (s_admissions st) = 2%nat.
Proof.
split; [reflexivity|].
destruct (sync_gate_admits_at_most_limit_per_window 1 (7 # 2) 0
            [(0%Q, 0%Q); (1%Q, 0%Q)]) as (st & Hrun & Hlen & _).
- reflexivity.
- constructor; [split; discriminate|]. constructor; [split; discriminate | constructor].
- exists st. split; [exact Hrun | exact Hlen].
Defined.

End GateMoreExamples.

(** ** Callers of both forms on one controller *)

Module GateMixed.
Import Gate GateFacts GateMore.

Section WithConfig.
Variable limit : Z.
Variable period : Q.

(** The controller with callers of [_arun] and callers of [_run].  A
    caller of [_run] takes [_t_lock], which no caller of [_arun] ever
    holds, and goes through [_block_by_rate] in one piece, [time.sleep]
    blocking its thread.  It works on the window as [_ablock_by_rate]
    has left it, also while a caller of [_arun] is suspended inside the
    gate. *)
Inductive step_mixed : sys -> sys -> Prop :=
| by_arun s s' :
    step limit period s s' -> step_mixed s s'
| by_run s late sw2 t :
    (0 <= late)%Q ->
    block_by_rate limit period (clock s) late (sw s) = Some (sw2, t) ->
    step_mixed s (mkSys t sw2 (a_lock s) (pcs s) (admissions s ++ [t])).

Inductive reachable_mixed : sys -> Prop :=
| mixed_init t0 : reachable_mixed (init t0)
| mixed_step s s' : reachable_mixed s -> step_mixed s s' -> reachable_mixed s'.

Lemma reachable_mixed_of s : reachable limit period s -> reachable_mixed s.
Proof.
induction 1 as [t0 | s s' _ IH Hstep]; [constructor|].
eapply mixed_step; [exact IH | apply by_arun; exact Hstep].
Qed.

End WithConfig.
End GateMixed.

Module GateMixedExamples.
Import Gate GateFacts GateMore GateExamples GateMixed.

(** The controller of [openai_api_chat.py], one call per 3.5 seconds,
    which wraps a synchronous and an asynchronous function.  Caller 0 of
    [_arun] is admitted at time 0; caller 1 of [_arun] arrives at time 1,
    takes the time 0 out of the window and sleeps until 3.5 holding
    [_a_lock]; at time 2 a caller of [_run] finds the window empty and is
    admitted at once. *)
Definition m4 : sys :=
  mkSys 2 [] (Some 1%nat) (set_pc 1 (Asleep (7 # 2)) (fun _ => Outside)) [0%Q].
Definition m5 : sys :=
  mkSys 2 [2%Q] (Some 1%nat) (set_pc 1 (Asleep (7 # 2)) (fun _ => Outside))
    [0%Q; 2%Q].

Lemma m5_reachable : reachable_mixed 1 (7 # 2) m5.
Proof.
assert (H3 : reachable 1 (7 # 2) s3).
{ apply (reach_step 1 (7 # 2) s2 s3 GateMoreExamples.s2_reachable).
  apply (step_suspend 1 (7 # 2) s2 1%nat [] (5 # 2)); reflexivity. }
assert (H4 : reachable 1 (7 # 2) m4).
{ apply (reach_step 1 (7 # 2) s3 m4 H3).
  apply (step_tick 1 (7 # 2) s3 1). discriminate. }
apply (mixed_step 1 (7 # 2) m4 m5 (reachable_mixed_of 1 (7 # 2) m4 H4)).
apply (by_run 1 (7 # 2) m4 0 [2%Q] 2); [discriminate | reflexivity].
Qed.

(** C2: with callers of both forms the limit does not hold, and the gate
    is not one.  For [limit = 1] and [period = 3.5] the controller
    reaches a state with two admissions, at the times 0 and 2, in the
    trailing window of the time 2; the second is the one of a caller of
    [_run], made while a caller of [_arun] is inside the gate, asleep
    with [_a_lock].  When that caller is resumed the window is full and
    its [put] blocks. *)
Theorem mixed_callers_exceed_the_limit :
  reachable_mixed 1 (7 # 2) m5
  /\ admissions m5 = [0%Q; 2%Q]
  /\ admitted_within (7 # 2) 2 m5 = 2%nat
  /\ a_lock m5 = Some 1%nat
  /\ pcs m5 1%nat = Asleep (7 # 2)
  /\ forall x, put 1 x (sw m5) = None.
Proof.
split; [exact m5_reachable|]. repeat split; reflexivity.
Qed.

End GateMixedExamples.

(** ** The chat client *)

Module Chat.

(** A message of the conversation.  The role of a streamed answer is
    what the deltas of the stream gave, [None] when none gave one. *)
Record message : Type := mkMessage {
  role : option string;
  content : string
}.

(** The attributes of an [OpenaiAPIChat] that the methods below read or
    write. *)
Record client : Type := mkClient {
  sys_prompt : string;
  chat_log : list message;
  max_retry : Z
}.

Definition system_message (c : client) : message :=
  mkMessage (Some "system"%string) (sys_prompt c).

Definition user_message (user_prompt : string) : message :=
  mkMessage (Some "user"%string) user_prompt.

(** [_make_msg(user_prompt, to_continue)]. *)
Definition make_msg (c : client) (user_prompt : string) (to_continue : bool)
  : list message :=
  (system_message c :: chat_log c)
  ++ (if to_continue then [] else [user_message user_prompt]).

(** [clear()]. *)
Definition clear (c : client) : client := mkClient (sys_prompt c) [] (max_retry c).

(** [round_format(user, assistant)]. *)
Definition round_format (user assistant : string) : list message :=
  [user_message user; mkMessage (Some "assistant"%string) assistant].

Definition log (c : client) (ms : list message) : client :=
  mkClient (sys_prompt c) (chat_log c ++ ms) (max_retry c).

(** A chunk of a streamed answer: the role and the content of its delta,
    an absent role being [None] and an absent content the empty string,
    and its finish reason. *)
Record chunk : Type := mkChunk {
  delta_role : option string;
  delta_content : string;
  finish_reason : option string
}.

(** What a completion call comes to.  Without streaming: the content and
    the finish reason of the first choice, or an exception.  With
    streaming: the call raises, or gives chunks and then ends or
    raises. *)
Inductive answer : Type :=
| Answered (full_content : string) (finish_reason : string)
| Failed (e : exn).

Inductive stream : Type :=
| Refused (e : exn)
| Opened (chunks : list chunk) (broken : option exn).

(** The client together with the messages of the requests it has sent,
    in order. *)
Record session : Type := mkSession {
  the_client : client;
  sent : list (list message)
}.

Section WithService.

(** The service, as the request numbered [n] meets it. *)
Variable complete : nat -> list message -> answer.
Variable complete_stream : nat -> list message -> stream.

(** [get_response(user_prompt, to_continue)].  The two statements that
    follow the [try] are in the body of the [while]: a turn that does not
    return from the [try] returns from them.  [None] is the [None] Python
    returns when the body is not entered. *)
Definition get_response (user_prompt : string) (to_continue : bool) (s : session)
  : option (string * string) * session :=
  let c := the_client s in
  let retry_cnt := 0 in
  if retry_cnt <? max_retry c then
    let messages := make_msg c user_prompt to_continue in
    match complete (length (sent s)) messages with
    | Answered full_content finish_reason =>
        (Some (full_content, finish_reason),
         mkSession (log c (round_format user_prompt full_content))
           (sent s ++ [messages]))
    | Failed _ => (Some (""%string, ""%string), mkSession c (sent s ++ [messages]))
    end
  else (None, s).

(** The loop [for chunk in response] of the streamed forms, run to the
    end of the chunks: the role, the content accumulated and the last
    finish reason. *)
Definition drain (chunks : list chunk) : option string * string * option (option string) :=
  foldl (fun '(role, full_content, last) ch =>
           (match delta_role ch with Some r => Some r | None => role end,
            (full_content ++ delta_content ch)%string,
            Some (finish_reason ch)))
        (None, ""%string, None) chunks.

(** [get_stream_aresponse(user_prompt, to_continue)] read to its end, as
    the [async for] of [translate.py] reads it: the text received, the
    last finish reason, and the exception when the call or the stream
    raised. *)
Definition get_stream_aresponse (user_prompt : string) (to_continue : bool)
    (s : session) : (string * option (option string) * option exn) * session :=
  let c := the_client s in
  let messages := make_msg c user_prompt to_continue in
  let s' := mkSession c (sent s ++ [messages]) in
  match complete_stream (length (sent s)) messages with
  | Refused e => ((""%string, None, Some e), s')
  | Opened chunks (Some e) =>
      let '(_, full_content, last) := drain chunks in
      ((full_content, last, Some e), s')
  | Opened chunks None =>
      let '(role, full_content, last) := drain chunks in
      ((full_content, last, None),
       mkSession (log c [user_message user_prompt; mkMessage role full_content])
         (sent s ++ [messages]))
  end.

(** The operations on a client. *)
Inductive op : Type :=
| GetResponse (user_prompt : string) (to_continue : bool)
| StreamResponse (user_prompt : string) (to_continue : bool)
| Clear.

Definition run_op (s : session) (o : op) : session :=
  match o with
  | GetResponse p k => (get_response p k s).2
  | StreamResponse p k => (get_stream_aresponse p k s).2
  | Clear => mkSession (clear (the_client s)) (sent s)
  end.

Definition run_ops (ops : list op) (s : session) : session := foldl run_op s ops.

End WithService.

(** A client as [__init__] leaves it. *)
Definition fresh (system_prompt : string) (max_retry : Z) : session :=
  mkSession (mkClient system_prompt [] max_retry) [].

End Chat.

Module ChatFacts.
Import Chat.

(** The log is a sequence of rounds: a user message, then an answer. *)
Definition rounds (l : list message) : Prop :=
  exists rs : list (string * message),
    l = mjoin ((fun r => [user_message r.1; r.2]) <$> rs).

Definition is_request (o : op) : bool :=
  match o with
  | Clear => false
  | _ => true
  end.

Definition well_formed (system_prompt : string) (ms : list message) : Prop :=
  exists l tail,
    ms = mkMessage (Some "system"%string) system_prompt :: l ++ tail
    /\ rounds l
    /\ (tail = [] \/ exists p, tail = [user_message p]).

Lemma rounds_nil : rounds [].
Proof. exists []. reflexivity. Qed.

Lemma rounds_snoc l u m : rounds l -> rounds (l ++ [user_message u; m]).
Proof.
intros [rs ->]. exists (rs ++ [(u, m)]).
rewrite fmap_app, join_app. simpl. reflexivity.
Qed.

Section WithService.
Variable complete : nat -> list message -> answer.
Variable complete_stream : nat -> list message -> stream.

Record kept (system_prompt : string) (retries : Z) (s : session) : Prop := mkKept {
  kept_prompt : sys_prompt (the_client s) = system_prompt;
  kept_retry : max_retry (the_client s) = retries;
  kept_log : rounds (chat_log (the_client s));
  kept_sent : Forall (well_formed system_prompt) (sent s)
}.

Lemma make_msg_well_formed c p k :
  rounds (chat_log c) -> well_formed (sys_prompt c) (make_msg c p k).
Proof.
intros Hl. exists (chat_log c), (if k then [] else [user_message p]).
split; [reflexivity|]. split; [exact Hl|]. destruct k; eauto.
Qed.

Lemma run_op_kept system_prompt retries s o :
  kept system_prompt retries s ->
  kept system_prompt retries (run_op complete complete_stream s o)
  /\ (length (sent (run_op complete complete_stream s o))
      <= length (sent s) + (if is_request o then 1 else 0))%nat.
Proof.
intros [Hp Hr Hl Hs].
assert (Hmsg : forall p k, well_formed system_prompt (make_msg (the_client s) p k)).
{ intros p k. rewrite <- Hp. apply make_msg_well_formed. exact Hl. }
destruct o as [p k|p k|]; simpl.
- unfold get_response. cbv zeta.
  destruct (0 <? max_retry (the_client s)); simpl; [|split; [split; assumption | lia]].
  destruct (complete _ _) as [full fin|e]; simpl.
  + split; [|rewrite length_app; simpl; lia].
    split; simpl; [assumption | assumption | apply rounds_snoc; exact Hl|].
    apply Forall_app. split; [exact Hs|]. constructor; [apply Hmsg | constructor].
  + split; [|rewrite length_app; simpl; lia].
    split; simpl; [assumption | assumption | assumption|].
    apply Forall_app. split; [exact Hs|]. constructor; [apply Hmsg | constructor].
- unfold get_stream_aresponse. cbv zeta.
  assert (Hsent : Forall (well_formed system_prompt)
                    (sent s ++ [make_msg (the_client s) p k])).
  { apply Forall_app. split; [exact Hs|]. constructor; [apply Hmsg | constructor]. }
  destruct (complete_stream _ _) as [e|chunks [e|]]; simpl.
  + split; [split; assumption | rewrite length_app; simpl; lia].
  + destruct (drain chunks) as [[r full] last]. simpl.
    split; [split; assumption | rewrite length_app; simpl; lia].
  + destruct (drain chunks) as [[r full] last]. simpl.
    split; [|rewrite length_app; simpl; lia].
    split; simpl; [assumption | assumption | apply rounds_snoc; exact Hl | exact Hsent].
- split; [|lia]. split; simpl; [assumption | assumption | apply rounds_nil | exact Hs].
Qed.

Lemma run_ops_kept system_prompt retries ops : forall s,
  kept system_prompt retries s ->
  kept system_prompt retries (run_ops complete complete_stream ops s)
  /\ (length (sent (run_ops complete complete_stream ops s))
      <= length (sent s) + length (List.filter is_request ops))%nat.
Proof.
induction ops as [|o ops IH]; intros s Hs; [split; [exact Hs | simpl; lia]|].
change (run_ops complete complete_stream (o :: ops) s)
  with (run_ops complete complete_stream ops (run_op complete complete_stream s o)).
destruct (run_op_kept system_prompt retries s o Hs) as [Hs1 Hlen1].
destruct (IH _ Hs1) as [Hfin Hlen].
split; [exact Hfin|].
cbn [List.filter]. destruct (is_request o); cbn [length]; lia.
Qed.

End WithService.

(** X30: Whatever the service answers and whatever operations are applied to
    a client in whatever order, from its creation on: the log is a
    sequence of rounds, a user message and then an answer; every request
    sent is the system message, then whole rounds, then the user prompt
    or nothing; and each call of [get_response] or of the streamed form
    sends one request at most, whatever [max_retry] is. *)
Theorem chat_log_is_made_of_rounds
    (complete : nat -> list message -> answer)
    (complete_stream : nat -> list message -> stream)
    (system_prompt : string) (retries : Z) (ops : list op) :
  rounds (chat_log (the_client
            (run_ops complete complete_stream ops (fresh system_prompt retries))))
  /\ Forall (well_formed system_prompt)
       (sent (run_ops complete complete_stream ops (fresh system_prompt retries)))
  /\ (length (sent (run_ops complete complete_stream ops (fresh system_prompt retries)))
      <= length (List.filter is_request ops))%nat.
Proof.
destruct (run_ops_kept complete complete_stream system_prompt retries ops
            (fresh system_prompt retries)) as [[_ _ Hl Hs] Hlen].
{ split; simpl; [reflexivity | reflexivity | apply rounds_nil | constructor]. }
simpl in Hlen. auto.
Qed.

End ChatFacts.
